(** * MassNet wallet: standard scripts, the in-memory ledger and the sync peer set

    A shallow embedding of [txscript/standard.go], [database/memdb/memdb.go]
    and [netsync/peer.go], with the properties of the specification stated
    over it.  Go values are modelled as follows:
    - a [[]byte] is a [list byte]; a nil slice that the code tells apart from
      an empty one is an [option (list byte)];
    - Go [int] values are [Z] (the lengths and counts met here stay far below
      2^63); conversions to [int32], [uint32] and [byte] are written out;
    - a Go [map] is a [gmap];
    - a call returns [Ok v], [Err e] for a returned error, or [Panic] when the
      Go runtime would panic (index out of range, nil dereference). *)

From Stdlib Require Import ZArith List Bool Lia.
From Stdlib Require Import Strings.Byte.
From stdpp Require Import base option list gmap strings.

Local Open Scope Z_scope.

(** ** Outcomes of a Go call *)

Inductive result (E A : Type) : Type :=
| Ok (a : A)
| Err (e : E)
| Panic.
Arguments Ok {E A} a.
Arguments Err {E A} e.
Arguments Panic {E A}.

#[global] Instance result_ret {E} : MRet (result E) := fun A a => Ok a.
#[global] Instance result_bind {E} : MBind (result E) := fun A B k r =>
  match r with
  | Ok a => k a
  | Err e => Err e
  | Panic => Panic
  end.

#[global] Instance byte_eq_dec : EqDecision byte := Byte.byte_eq_dec.

(** [byte(z)]: conversion of an integer to [uint8], keeping the low 8 bits. *)
Definition byte_of_Z (z : Z) : byte :=
  match Byte.of_N (Z.to_N (z mod 256)) with
  | Some b => b
  | None => x00
  end.

Definition Z_of_byte (b : byte) : Z := Z.of_N (Byte.to_N b).

Definition len {A} (l : list A) : Z := Z.of_nat (length l).

(** [l[i]], with Go's bounds check. *)
Definition index {E A} (l : list A) (i : Z) : result E A :=
  if (i <? 0) || (len l <=? i) then Panic
  else match l !! Z.to_nat i with
       | Some x => Ok x
       | None => Panic
       end.

Module Txscript.

(** ** Opcodes *)

(** Modelled from the spec: the opcode values of [opcode.go] (section 6,
    Bitcoin-style script byte format). *)
Definition OP_0 : byte := x00.
Definition OP_DATA_1 : byte := x01.
Definition OP_DATA_8 : byte := x08.
Definition OP_DATA_20 : byte := x14.
Definition OP_DATA_32 : byte := x20.
Definition OP_DATA_75 : byte := x4b.
Definition OP_PUSHDATA1 : byte := x4c.
Definition OP_PUSHDATA2 : byte := x4d.
Definition OP_PUSHDATA4 : byte := x4e.
Definition OP_1NEGATE : byte := x4f.
Definition OP_1 : byte := x51.
Definition OP_16 : byte := x60.
Definition OP_RETURN : byte := x6a.
Definition OP_DROP : byte := x75.
Definition OP_EQUAL : byte := x87.
Definition OP_HASH160 : byte := xa9.
Definition OP_CHECKSIG : byte := xac.
Definition OP_CHECKMULTISIG : byte := xae.
Definition OP_CHECKSEQUENCEVERIFY : byte := xb2.

(** Modelled from the spec: the [opcode] entry of the opcode table.  [oplength]
    is 1 for an opcode without payload, [n+1] for a direct push of [n] bytes,
    and [-1], [-2], [-4] for PUSHDATA1/2/4 (the width of the length prefix). *)
Record opcode : Type := mkOpcode { value : byte; oplength : Z }.

(** Modelled from the spec: [parsedOpcode], the pair of an opcode and its
    optional payload ([None] is Go's nil slice). *)
Record parsedOpcode : Type := mkPop { op : opcode; data : option (list byte) }.

#[global] Instance opcode_eq_dec : EqDecision opcode.
Proof. solve_decision. Defined.
#[global] Instance parsedOpcode_eq_dec : EqDecision parsedOpcode.
Proof. solve_decision. Defined.

(** Modelled from the spec: [opcodeArray], the table from byte to opcode. *)
Definition opcodeArray (b : byte) : opcode :=
  let v := Z_of_byte b in
  if (1 <=? v) && (v <=? 75) then mkOpcode b (v + 1)
  else if v =? 76 then mkOpcode b (-1)
  else if v =? 77 then mkOpcode b (-2)
  else if v =? 78 then mkOpcode b (-4)
  else mkOpcode b 1.

(** [len(pop.data)]; the length of a nil slice is 0. *)
Definition data_len (pop : parsedOpcode) : Z :=
  match data pop with
  | Some d => len d
  | None => 0
  end.

(** Modelled from the spec: [isSmallInt] (script.go), "OP_0 or OP_1..OP_16". *)
Definition isSmallInt (o : opcode) : bool :=
  bool_decide (value o = OP_0)
  || ((Z_of_byte OP_1 <=? Z_of_byte (value o)) && (Z_of_byte (value o) <=? Z_of_byte OP_16)).

(** Modelled from the spec: [asSmallInt] (script.go), "OP_0 is treated as
    numeric 0 while OP_1..OP_16 push values 1..16"; the subtraction is done on
    bytes, as [int(op.value - (OP_1 - 1))]. *)
Definition asSmallInt (o : opcode) : Z :=
  if bool_decide (value o = OP_0) then 0
  else (Z_of_byte (value o) - (Z_of_byte OP_1 - 1)) mod 256.

(** Modelled from the spec: [ScriptClass], the closed enumeration of
    section 3. *)
Inductive ScriptClass : Type :=
| NonStandardTy
| MultiSigTy
| NullDataTy
| WitnessV0ScriptHashTy
| LocktimeScriptHashTy.

#[global] Instance ScriptClass_eq_dec : EqDecision ScriptClass.
Proof. solve_decision. Defined.

(** Modelled from the spec: the error kinds of section 7 that the package
    returns. *)
Inductive ScriptError : Type :=
| ErrParseFailure
| ErrStackUnderflow
| ErrBadNumRequired
| ErrUnsupportedAddress
| ErrSizeBounds.

(** [pops[i]], for an index the caller has checked against [len(pops)]. *)
Definition popDefault : parsedOpcode := mkPop (mkOpcode x00 1) None.
Definition pop_at (pops : list parsedOpcode) (i : Z) : parsedOpcode :=
  nth (Z.to_nat i) pops popDefault.

(** [pops[lo:hi]]. *)
Definition slice {A} (l : list A) (lo hi : Z) : list A :=
  take (Z.to_nat (hi - lo)) (drop (Z.to_nat lo) l).

(** [isMultiSig] (standard.go:30). *)
Definition isMultiSig (pops : list parsedOpcode) : bool :=
  let l := len pops in
  if l <? 4 then false
  else if negb (isSmallInt (op (pop_at pops 0))) then false
  else if negb (isSmallInt (op (pop_at pops (l - 2)))) then false
  else if negb (bool_decide (value (op (pop_at pops (l - 1))) = OP_CHECKMULTISIG)) then false
  else if negb (l - 2 - 1 =? asSmallInt (op (pop_at pops (l - 2)))) then false
  else forallb (fun pop => negb (negb (data_len pop =? 33) && negb (data_len pop =? 65)))
         (slice pops 1 (l - 2)).

(** [isNullData] (standard.go:64); [MaxDataCarrierSize] is a constant of the
    package that the file does not declare. *)
Definition isNullData (MaxDataCarrierSize : Z) (pops : list parsedOpcode) : bool :=
  let l := len pops in
  if (l =? 1) && bool_decide (value (op (pop_at pops 0)) = OP_RETURN) then true
  else
    (l =? 2)
    && bool_decide (value (op (pop_at pops 0)) = OP_RETURN)
    && (Z_of_byte (value (op (pop_at pops 1))) <=? Z_of_byte OP_PUSHDATA4)
    && (data_len (pop_at pops 1) <=? MaxDataCarrierSize).

(** Modelled from the spec: [isWitnessScriptHash] (script.go), the pattern
    "OP_0 <32-byte push>", serialized as [OP_0 0x20 <32 bytes>]. *)
Definition isWitnessScriptHash (pops : list parsedOpcode) : bool :=
  (len pops =? 2)
  && bool_decide (value (op (pop_at pops 0)) = OP_0)
  && bool_decide (value (op (pop_at pops 1)) = OP_DATA_32).

(** Modelled from the spec: [isLocktimeScriptHash] (script.go), the pattern
    "<8-byte push> OP_CHECKSEQUENCEVERIFY OP_DROP OP_HASH160 <20-byte push>
    OP_EQUAL". *)
Definition isLocktimeScriptHash (pops : list parsedOpcode) : bool :=
  (len pops =? 6)
  && bool_decide (value (op (pop_at pops 0)) = OP_DATA_8)
  && bool_decide (value (op (pop_at pops 1)) = OP_CHECKSEQUENCEVERIFY)
  && bool_decide (value (op (pop_at pops 2)) = OP_DROP)
  && bool_decide (value (op (pop_at pops 3)) = OP_HASH160)
  && bool_decide (value (op (pop_at pops 4)) = OP_DATA_20)
  && bool_decide (value (op (pop_at pops 5)) = OP_EQUAL).

(** [expectedInputs] (standard.go:138).  The multisig case reads [pops[0]]. *)
Definition expectedInputs (pops : list parsedOpcode) (class : ScriptClass)
  : result ScriptError Z :=
  match class with
  | WitnessV0ScriptHashTy => Ok 1
  | LocktimeScriptHashTy => Ok 1
  | MultiSigTy =>
      match pops with
      | [] => Panic
      | pop0 :: _ => Ok (asSmallInt (op pop0))
      end
  | NullDataTy | NonStandardTy => Ok (-1)
  end.

(** [ScriptInfo] (standard.go:164). *)
Record ScriptInfo : Type := mkScriptInfo {
  PkScriptClass : ScriptClass;
  NumInputs : Z;
  ExpectedInputs : Z;
  SigOps : Z
}.

Section Standard.

(** The parts of the package that standard.go calls and [src/] does not
    hold: the opcode parser, the data-carrier bound, the signature-operation
    counters and the address constructors of [massutil]. *)
Variable parseScript : list byte -> list parsedOpcode * option ScriptError.
Variable MaxDataCarrierSize : Z.
Variable GetWitnessSigOpCount : list byte -> list (list byte) -> Z.
Variable GetLocktimeScriptSigOpCount : list byte -> list (list byte) -> Z.
Variable getSigOpCount : list parsedOpcode -> bool -> Z.

(** [typeOfScript] (standard.go:81). *)
Definition typeOfScript (pops : list parsedOpcode) : ScriptClass :=
  if isMultiSig pops then MultiSigTy
  else if isNullData MaxDataCarrierSize pops then NullDataTy
  else if isWitnessScriptHash pops then WitnessV0ScriptHashTy
  else if isLocktimeScriptHash pops then LocktimeScriptHashTy
  else NonStandardTy.

(** [GetScriptClass] (standard.go:97). *)
Definition GetScriptClass (script : list byte) : ScriptClass :=
  match parseScript script with
  | (_, Some _) => NonStandardTy
  | (pops, None) => typeOfScript pops
  end.

(** The two script-hash cases of [CalcScriptInfo] adjust the expected
    inputs in the same way. *)
Definition addShInputs (expected shInputs : Z) : Z :=
  if shInputs =? -1 then -1 else expected + shInputs.

(** [CalcScriptInfo] (standard.go:185). *)
Definition CalcScriptInfo (pkScript : list byte) (witness : list (list byte))
  : result ScriptError ScriptInfo :=
  match parseScript pkScript with
  | (_, Some e) => Err e
  | (pkPops, None) =>
      let class := typeOfScript pkPops in
      expected ← expectedInputs pkPops class;
      witnessScript ← index witness (len witness - 1);
      let pops := fst (parseScript witnessScript) in
      witnesssig ← index witness 0;
      let popsigs := fst (parseScript witnesssig) in
      match class with
      | WitnessV0ScriptHashTy =>
          shInputs ← expectedInputs pops (typeOfScript pops);
          Ok (mkScriptInfo class (len popsigs + 1) (addShInputs expected shInputs)
                (GetWitnessSigOpCount pkScript witness))
      | LocktimeScriptHashTy =>
          shInputs ← expectedInputs pops (typeOfScript pops);
          Ok (mkScriptInfo class (len popsigs + 1) (addShInputs expected shInputs)
                (GetLocktimeScriptSigOpCount pkScript witness))
      | _ =>
          Ok (mkScriptInfo class (len popsigs + len pops) expected
                (getSigOpCount pkPops true))
      end
  end.

(** [CalcMultiSigStats] (standard.go:244): [(numPubKeys, numSigs)]. *)
Definition CalcMultiSigStats (script : list byte) : result ScriptError (Z * Z) :=
  match parseScript script with
  | (_, Some e) => Err e
  | (pops, None) =>
      if len pops <? 4 then Err ErrStackUnderflow
      else
        let numSigs := asSmallInt (op (pop_at pops 0)) in
        let numPubKeys := asSmallInt (op (pop_at pops (len pops - 2))) in
        Ok (numPubKeys, numSigs)
  end.

(** [PushedData] (standard.go:367).  An entry is [None] where the code
    appends a nil slice. *)
Definition PushedData (script : list byte)
  : result ScriptError (list (option (list byte))) :=
  match parseScript script with
  | (_, Some e) => Err e
  | (pops, None) =>
      Ok (foldl (fun acc pop =>
                   match data pop with
                   | Some d => acc ++ [Some d]
                   | None =>
                       if bool_decide (value (op pop) = OP_0) then acc ++ [None]
                       else acc
                   end) [] pops)
  end.

(** The address constructors of [massutil] (not in [src/]).  A constructor
    returns the address, or [None] when it fails: the Go functions then
    return a nil address together with the error. *)
Context {Params Address AddressPubKey PublicKey : Type}.
Variable NewAddressWitnessScriptHash : list byte -> Params -> option Address.
Variable NewAddressLocktimeScriptHash : list byte -> Params -> option Address.
Variable NewAddressPubKey : list byte -> Params -> option AddressPubKey.
(** The accessor [PubKey] of an address, on a non-nil receiver, and the
    conversion of a public-key address to the [massutil.Address]
    interface. *)
Variable PubKey : AddressPubKey -> PublicKey.
Variable asAddress : AddressPubKey -> Address.

(** [pop.data] passed as a [[]byte] argument. *)
Definition data_bytes (pop : parsedOpcode) : list byte := default [] (data pop).

(** [addr.PubKey()] on the pointer returned by [NewAddressPubKey]: the
    accessor reads a field of its receiver, so a nil receiver panics. *)
Definition callPubKey (addr : option AddressPubKey) : result ScriptError PublicKey :=
  match addr with
  | Some a => Ok (PubKey a)
  | None => Panic
  end.

(** The loop [for i := 0; i < numPubKeys; i++] of [ExtractPkScriptAddrs]
    (standard.go:432), with [n] iterations left. *)
Fixpoint extractPubKeys (pops : list parsedOpcode) (chainParams : Params)
    (n : nat) (i : Z) (addrs : list Address) (pks : list PublicKey)
  : result ScriptError (list Address * list PublicKey) :=
  match n with
  | O => Ok (addrs, pks)
  | S n' =>
      pop ← index pops (i + 1);
      let addr := NewAddressPubKey (data_bytes pop) chainParams in
      pk ← callPubKey addr;
      match addr with
      | Some a => extractPubKeys pops chainParams n' (i + 1) (addrs ++ [asAddress a]) (pks ++ [pk])
      | None => extractPubKeys pops chainParams n' (i + 1) addrs pks
      end
  end.

(** [ExtractPkScriptAddrs] (standard.go:388): class, addresses, public keys
    and required signatures. *)
Definition ExtractPkScriptAddrs (pkScript : list byte) (chainParams : Params)
  : result ScriptError (ScriptClass * list Address * list PublicKey * Z) :=
  match parseScript pkScript with
  | (_, Some e) => Err e
  | (pops, None) =>
      let scriptClass := typeOfScript pops in
      match scriptClass with
      | WitnessV0ScriptHashTy =>
          pop ← index pops 1;
          match NewAddressWitnessScriptHash (data_bytes pop) chainParams with
          | Some addr => Ok (scriptClass, [addr], [], 1)
          | None => Ok (scriptClass, [], [], 1)
          end
      | LocktimeScriptHashTy =>
          pop ← index pops 4;
          match NewAddressLocktimeScriptHash (data_bytes pop) chainParams with
          | Some addr => Ok (scriptClass, [addr], [], 1)
          | None => Ok (scriptClass, [], [], 1)
          end
      | MultiSigTy =>
          pop0 ← index pops 0;
          let requiredSigs := asSmallInt (op pop0) in
          popn ← index pops (len pops - 2);
          let numPubKeys := asSmallInt (op popn) in
          '(addrs, pks) ← extractPubKeys pops chainParams (Z.to_nat numPubKeys) 0 [] [];
          Ok (scriptClass, addrs, pks, requiredSigs)
      | NullDataTy => Ok (scriptClass, [], [], 0)
      | NonStandardTy => Ok (scriptClass, [], [], 0)
      end
  end.

(** [GetScriptInfo] (standard.go:105); the nil slice returned with a parse
    error is the empty list. *)
Definition GetScriptInfo (script : list byte) : ScriptClass * list parsedOpcode :=
  match parseScript script with
  | (_, Some _) => (NonStandardTy, [])
  | (pops, None) => (typeOfScript pops, pops)
  end.

End Standard.

(** ** The opcode parser *)

(** Little-endian value of a length prefix. *)
Definition le_uint (bs : list byte) : Z :=
  foldr (fun b acc => Z_of_byte b + 256 * acc) 0 bs.

Definition consPop (pop : parsedOpcode) (r : list parsedOpcode * option ScriptError)
  : list parsedOpcode * option ScriptError :=
  match r with
  | (pops, None) => (pop :: pops, None)
  | (_, Some e) => ([], Some e)
  end.

(** Modelled from the spec: the opcode parser [parseScript] (script.go),
    section 4.1: a byte sequence is decoded into parsed opcodes, each push
    opcode taking its payload (direct push, PUSHDATA1/2/4); a payload that
    runs past the end of the script is a parse failure, and a failed parse
    yields the empty opcode list.  [fuel] bounds the number of opcodes; every
    opcode takes at least one byte, so the length of the script is enough. *)
Fixpoint parseFrom (fuel : nat) (script : list byte)
  : list parsedOpcode * option ScriptError :=
  match fuel, script with
  | _, [] => ([], None)
  | O, _ :: _ => ([], Some ErrParseFailure)
  | S fuel', instr :: rest =>
      let o := opcodeArray instr in
      if oplength o =? 1 then consPop (mkPop o None) (parseFrom fuel' rest)
      else if 1 <? oplength o then
        if len script <? oplength o then ([], Some ErrParseFailure)
        else consPop (mkPop o (Some (take (Z.to_nat (oplength o - 1)) rest)))
               (parseFrom fuel' (drop (Z.to_nat (oplength o - 1)) rest))
      else
        let w := - oplength o in
        if len rest <? w then ([], Some ErrParseFailure)
        else
          let l := le_uint (take (Z.to_nat w) rest) in
          let body := drop (Z.to_nat w) rest in
          if len body <? l then ([], Some ErrParseFailure)
          else consPop (mkPop o (Some (take (Z.to_nat l) body)))
                 (parseFrom fuel' (drop (Z.to_nat l) body))
  end.

Definition parseScript (script : list byte) : list parsedOpcode * option ScriptError :=
  parseFrom (List.length script) script.

(** ** The script builder *)

(** Modelled from the spec: [ScriptBuilder] (scriptbuilder.go), section 4.3:
    the builder appends opcodes and pushes to a byte script and records an
    error once an input violates the size bounds. *)
Record ScriptBuilder : Type := mkBuilder {
  script : list byte;
  err : option ScriptError
}.

Definition NewScriptBuilder : ScriptBuilder := mkBuilder [] None.

(** The [n] low bytes of [z], least significant first. *)
Fixpoint le_bytes (n : nat) (z : Z) : list byte :=
  match n with
  | O => []
  | S n' => byte_of_Z z :: le_bytes n' (z / 256)
  end.

(** Modelled from the spec: the serialized push of [data] (section 6): a
    direct push when the length fits the opcode, else PUSHDATA1, PUSHDATA2 or
    PUSHDATA4 with a little-endian length. *)
Definition pushBytes (data : list byte) : list byte :=
  let dataLen := len data in
  if dataLen <? Z_of_byte OP_PUSHDATA1 then
    byte_of_Z (Z_of_byte OP_DATA_1 - 1 + dataLen) :: data
  else if dataLen <=? 255 then
    OP_PUSHDATA1 :: le_bytes 1 dataLen ++ data
  else if dataLen <=? 65535 then
    OP_PUSHDATA2 :: le_bytes 2 dataLen ++ data
  else
    OP_PUSHDATA4 :: le_bytes 4 dataLen ++ data.

(** Modelled from the spec: the minimal little-endian sign-and-magnitude
    bytes of a script number (Bitcoin-style), used by [AddInt64] for the
    integers that have no opcode of their own. *)
Fixpoint magnitude (fuel : nat) (n : Z) : list Z :=
  match fuel with
  | O => []
  | S fuel' => if n <=? 0 then [] else (n mod 256) :: magnitude fuel' (n / 256)
  end.

Definition scriptNumBytes (n : Z) : list byte :=
  let m := magnitude 9 (Z.abs n) in
  match reverse m with
  | [] => []
  | top :: _ =>
      if 128 <=? top then
        map byte_of_Z (m ++ [if n <? 0 then 128 else 0])
      else if n <? 0 then
        map byte_of_Z (take (Nat.pred (List.length m)) m ++ [top + 128])
      else map byte_of_Z m
  end.

(** ** Reading a script hash back *)

(** Go's [uint64(z)] of an [int64]. *)
Definition uint64 (z : Z) : Z := z mod 18446744073709551616.

(** [binary.LittleEndian.Uint64(b)]: the first eight bytes, least
    significant first; it panics on a shorter slice. *)
Definition Uint64 {E} (b : list byte) : result E Z :=
  if len b <? 8 then Panic else Ok (le_uint (take 8 b)).

(** [binary.LittleEndian.PutUint64(buf, v)] on a fresh buffer of eight
    bytes. *)
Definition PutUint64 (v : Z) : list byte := le_bytes 8 v.

(** [copy(rsh[:], scripthash)] into the zeroed array [rsh] of 20 bytes: as
    many bytes as both hold are copied, the rest stays zero. *)
Definition copy20 (scripthash : list byte) : list byte :=
  take 20 scripthash ++ replicate (20 - List.length (take 20 scripthash)) x00.

(** The error of [GetParsedOpcode], [errors.New("invalid script hash
    type")]. *)
Inductive HashTypeError : Type := ErrInvalidScriptHashType.

(** [GetParsedOpcode] (standard.go:114): the height and the 20-byte array. *)
Definition GetParsedOpcode (pops : list parsedOpcode) (class : ScriptClass)
  : result HashTypeError (Z * list byte) :=
  match class with
  | LocktimeScriptHashTy =>
      pop0 ← index pops 0;
      pop4 ← index pops 4;
      hgt ← Uint64 (data_bytes pop0);
      Ok (hgt, copy20 (data_bytes pop4))
  | WitnessV0ScriptHashTy =>
      pop1 ← index pops 1;
      hgt ← Uint64 (replicate 8 x00);
      Ok (hgt, copy20 (data_bytes pop1))
  | _ => Err ErrInvalidScriptHashType
  end.

Section Builder.

(** The size bounds of the builder: the maximal script size and the maximal
    size of one pushed element (constants of the package, not in [src/]). *)
Variable maxScriptSize : Z.
Variable MaxScriptElementSize : Z.

(** Modelled from the spec: [AddOp]. *)
Definition AddOp (b : ScriptBuilder) (opcode : byte) : ScriptBuilder :=
  match err b with
  | Some _ => b
  | None =>
      if maxScriptSize <? len (script b) + 1 then mkBuilder (script b) (Some ErrSizeBounds)
      else mkBuilder (script b ++ [opcode]) None
  end.

(** Modelled from the spec: [AddData], "push(data)". *)
Definition AddData (b : ScriptBuilder) (data : list byte) : ScriptBuilder :=
  match err b with
  | Some _ => b
  | None =>
      if maxScriptSize <? len (script b) + len (pushBytes data)
      then mkBuilder (script b) (Some ErrSizeBounds)
      else if MaxScriptElementSize <? len data
      then mkBuilder (script b) (Some ErrSizeBounds)
      else mkBuilder (script b ++ pushBytes data) None
  end.

(** Modelled from the spec: [AddInt64], "push(n)": OP_0 for 0, OP_1..OP_16
    for 1..16, a data push of the number otherwise. *)
Definition AddInt64 (b : ScriptBuilder) (val : Z) : ScriptBuilder :=
  match err b with
  | Some _ => b
  | None =>
      if maxScriptSize <? len (script b) + 1 then mkBuilder (script b) (Some ErrSizeBounds)
      else if val =? 0 then mkBuilder (script b ++ [OP_0]) None
      else if (1 <=? val) && (val <=? 16)
      then mkBuilder (script b ++ [byte_of_Z (Z_of_byte OP_1 - 1 + val)]) None
      else AddData b (scriptNumBytes val)
  end.

(** Modelled from the spec: [Script], the serialized script or the error. *)
Definition Script (b : ScriptBuilder) : result ScriptError (list byte) :=
  match err b with
  | Some e => Err e
  | None => Ok (script b)
  end.

(** [payToWitnessScriptHashScript] (standard.go:268). *)
Definition payToWitnessScriptHashScript (scriptHash : list byte)
  : result ScriptError (list byte) :=
  Script (AddData (AddOp NewScriptBuilder OP_0) scriptHash).

(** [PayToWitnessScriptHashScript] (standard.go:273). *)
Definition PayToWitnessScriptHashScript (scriptHash : list byte)
  : result ScriptError (list byte) :=
  payToWitnessScriptHashScript scriptHash.

(** [payToLocktimeScriptHashScript] (standard.go:279). *)
Definition payToLocktimeScriptHashScript (scriptHash locktime : list byte)
  : result ScriptError (list byte) :=
  Script (AddOp (AddData (AddOp (AddOp (AddOp (AddData NewScriptBuilder locktime)
    OP_CHECKSEQUENCEVERIFY) OP_DROP) OP_HASH160) scriptHash) OP_EQUAL).

(** [MultiSigScript] (standard.go:350).  A public-key address enters through
    [key.ScriptAddress()], its serialized key. *)
Definition MultiSigScript {AddressPubKey : Type}
    (ScriptAddress : AddressPubKey -> list byte)
    (pubkeys : list AddressPubKey) (nrequired : Z)
  : result ScriptError (list byte) :=
  if len pubkeys <? nrequired then Err ErrBadNumRequired
  else
    let builder := AddInt64 NewScriptBuilder nrequired in
    let builder := foldl (fun b key => AddData b (ScriptAddress key)) builder pubkeys in
    let builder := AddInt64 builder (len pubkeys) in
    let builder := AddOp builder OP_CHECKMULTISIG in
    Script builder.

(** A [massutil.Address] as the two functions below inspect it: a pointer
    to a witness-script-hash address, which may be nil, or a value of any
    other type (the nil interface among them).  The accessors of the
    address are not in [src/]. *)
Context {AddressWitnessScriptHash : Type}.
Variable WitnessVersion : AddressWitnessScriptHash -> Z.
Variable ScriptAddress : AddressWitnessScriptHash -> list byte.

Inductive PayAddress : Type :=
| WitnessScriptHashAddress (addr : option AddressWitnessScriptHash)
| OtherAddress.

(** [PayToLockAddrScript] (standard.go:285). *)
Definition PayToLockAddrScript (addr : PayAddress) (locktime : Z)
  : result ScriptError (list byte) :=
  match addr with
  | WitnessScriptHashAddress None => Err ErrUnsupportedAddress
  | WitnessScriptHashAddress (Some addr) =>
      if WitnessVersion addr =? 0 then payToWitnessScriptHashScript (ScriptAddress addr)
      else if WitnessVersion addr =? 10 then
        let buf := PutUint64 (uint64 locktime) in
        payToLocktimeScriptHashScript (ScriptAddress addr) buf
      else Err ErrUnsupportedAddress
  | OtherAddress => Err ErrUnsupportedAddress
  end.

(** [PayToAddrScript] (standard.go:309). *)
Definition PayToAddrScript (addr : PayAddress) : result ScriptError (list byte) :=
  match addr with
  | WitnessScriptHashAddress None => Err ErrUnsupportedAddress
  | WitnessScriptHashAddress (Some addr) =>
      if WitnessVersion addr =? 0 then payToWitnessScriptHashScript (ScriptAddress addr)
      else Err ErrUnsupportedAddress
  | OtherAddress => Err ErrUnsupportedAddress
  end.

End Builder.

(** ** The shape of a built multi-signature script *)

(** The opcode [AddInt64] writes for an integer from 0 to 16. *)
Definition smallIntOp (n : Z) : byte :=
  if n =? 0 then OP_0 else byte_of_Z (Z_of_byte OP_1 - 1 + n).

(** The parsed opcode of the direct push of a serialized key. *)
Definition keyPop (key : list byte) : parsedOpcode :=
  mkPop (mkOpcode (byte_of_Z (len key)) (len key + 1)) (Some key).

(** A serialized public key is 33 or 65 bytes long. *)
Definition keyLenOk (key : list byte) : Prop := len key = 33 \/ len key = 65.

End Txscript.

(** * The in-memory ledger store ([database/memdb/memdb.go]) *)

Module Memdb.

(** The errors of the store: [ErrDbClosed] (memdb.go:23), the errors of the
    [database] package it returns, and its three [fmt.Errorf] errors: an
    unknown block in [DropAfterBlockBySha], a negative start height and an
    end height below the start height in [FetchHeightRange]. *)
Inductive DbError : Type :=
| ErrDbClosed
| ErrPrevShaMissing
| ErrTxShaMissing
| ErrDuplicateSha
| ErrNotImplemented
| ErrBlockUnknown
| ErrStartNegative
| ErrEndBelowStart.

(** Conversions of an integer to Go's [int32] and [uint32]. *)
Definition int32 (z : Z) : Z := (z + 2147483648) mod 4294967296 - 2147483648.
Definition uint32 (z : Z) : Z := z mod 4294967296.
Definition MaxUint32 : Z := 4294967295.

(** A store operation: the outcome and the store it leaves behind (for
    [Panic], the store as it was when the panic was raised). *)
Definition M (S A : Type) : Type := S -> result DbError A * S.

Definition retM {S A} (a : A) : M S A := fun s => (Ok a, s).
Definition bindM {S A B} (m : M S A) (k : A -> M S B) : M S B := fun s =>
  match m s with
  | (Ok a, s') => k a s'
  | (Err e, s') => (Err e, s')
  | (Panic, s') => (Panic, s')
  end.

Declare Scope store_scope.
Delimit Scope store_scope with store.
Notation "x <~ m ;; k" := (bindM m (fun x => k))
  (at level 100, m at next level, right associativity) : store_scope.
Notation "m ;;; k" := (bindM m (fun _ => k))
  (at level 100, right associativity) : store_scope.
Local Open Scope store_scope.

Definition failM {S A} (r : result DbError A) : M S A := fun s => (r, s).
Definition getM {S} : M S S := fun s => (Ok s, s).
Definition putM {S} (s : S) : M S unit := fun _ => (Ok tt, s).

(** [for _, x := range xs { body x }]. *)
Fixpoint forM {S A} (xs : list A) (body : A -> M S unit) : M S unit :=
  match xs with
  | [] => retM tt
  | x :: rest => body x ;;; forM rest body
  end.

Section Store.

(** [wire.Hash] is a 32-byte array compared bytewise; the store only uses it
    as a map key.  The hash functions of [wire] are not in [src/]. *)
Context {Hash : Type} `{Countable Hash}.
Variable zeroHash : Hash.

(** Modelled from the spec: the [wire] types of section 3.  An outpoint is a
    hash and a [uint32] index; an input carries an outpoint; an output
    carries a script; a transaction has ordered inputs and outputs; a block
    is a header, which names the previous block, and ordered transactions.
    The lock time of a transaction and the timestamp of a header stand for
    the rest of the content that the hashes cover; the store reads neither. *)
Record OutPoint : Type := mkOutPoint { OutHash : Hash; Index : Z }.
Record TxInput : Type := mkTxIn { PreviousOutPoint : OutPoint }.
Record TxOutput : Type := mkTxOut { PkScript : list byte }.
Record MsgTx : Type := mkMsgTx {
  TxIn : list TxInput;
  TxOut : list TxOutput;
  LockTime : Z
}.
Record BlockHeader : Type := mkHeader { Previous : Hash; Timestamp : Z }.
Record MsgBlock : Type := mkBlock {
  Header : BlockHeader;
  Transactions : list MsgTx
}.

(** [tx.Hash()] / [msgTx.TxHash()] and [block.Hash()] / [msgBlock.BlockHash()]. *)
Variable TxHash : MsgTx -> Hash.
Variable BlockHash : MsgBlock -> Hash.

(** [tTxInsertData] (memdb.go:32). *)
Record tTxInsertData : Type := mkTxD {
  blockHeight : Z;
  offset : Z;
  spentBuf : list bool
}.

(** [MemDb] (memdb.go:79), without its mutex. *)
Record MemDb : Type := mkMemDb {
  blocks : list MsgBlock;
  blocksBySha : gmap Hash Z;
  txns : gmap Hash (list tTxInsertData);
  closed : bool
}.

(** [newMemDb] (memdb.go:761). *)
Definition newMemDb : MemDb := mkMemDb [] ∅ ∅ false.

(** [isCoinbaseInput] (memdb.go:54). *)
Definition isCoinbaseInput (txIn : TxInput) : bool :=
  let prevOut := PreviousOutPoint txIn in
  (Index prevOut =? MaxUint32) && bool_decide (OutHash prevOut = zeroHash).

(** [isFullySpent] (memdb.go:66). *)
Definition isFullySpent (txD : tTxInsertData) : bool :=
  forallb (fun spent => spent) (spentBuf txD).

(** [isCoinBaseTx] (memdb.go:629); reading [msgTx.TxIn[0]] panics when the
    transaction has no input. *)
Definition isCoinBaseTx (msgTx : MsgTx) : result DbError bool :=
  match TxIn msgTx with
  | [] => Panic
  | txIn :: _ =>
      let prevOut := PreviousOutPoint txIn in
      if negb (Index prevOut =? MaxUint32) || negb (bool_decide (OutHash prevOut = zeroHash))
      then Ok false
      else Ok true
  end.

(** Modelled from the spec: the method [IsCoinBaseTx] of [wire.MsgTx], the
    "transaction predicate (first input is a coinbase input)" of section 9. *)
Definition IsCoinBaseTx (msgTx : MsgTx) : bool :=
  match TxIn msgTx with
  | [] => false
  | txIn :: _ => isCoinbaseInput txIn
  end.

Abbreviation TxMap := (gmap Hash (list tTxInsertData)).

(** [originTxD.spentBuf[index] = v], for an index within the flags. *)
Definition withFlag (v : bool) (index : Z) (d : tTxInsertData) : tTxInsertData :=
  mkTxD (blockHeight d) (offset d) (<[Z.to_nat index := v]> (spentBuf d)).

(** [originTxns[len(originTxns)-1].spentBuf[index] = v], for the slice
    [originTxns] found in the map: the last entry must exist and [index]
    must be within its flags. *)
Definition setSpent (v : bool) (originTxns : list tTxInsertData) (index : Z)
  : result DbError (list tTxInsertData) :=
  match last originTxns with
  | None => Panic
  | Some originTxD =>
      if (index <? 0) || (len (spentBuf originTxD) <=? index) then Panic
      else Ok (<[Nat.pred (List.length originTxns) := withFlag v index originTxD]> originTxns)
  end.

(** The spend of one input in the second pass of [InsertBlock]
    (memdb.go:618-621), and its undoing in [removeTx] (memdb.go:98-107).  A
    hash missing from the map gives a nil slice, whose last entry does not
    exist. *)
Definition spendInput (txIn : TxInput) : M TxMap unit := fun t =>
  let prevOut := PreviousOutPoint txIn in
  let originTxns := default [] (t !! OutHash prevOut) in
  match setSpent true originTxns (Index prevOut) with
  | Ok originTxns' => (Ok tt, <[OutHash prevOut := originTxns']> t)
  | Err e => (Err e, t)
  | Panic => (Panic, t)
  end.

Definition unspendInput (txIn : TxInput) : M TxMap unit := fun t =>
  let prevOut := PreviousOutPoint txIn in
  match t !! OutHash prevOut with
  | None => (Ok tt, t)
  | Some originTxns =>
      match setSpent false originTxns (Index prevOut) with
      | Ok originTxns' => (Ok tt, <[OutHash prevOut := originTxns']> t)
      | Err e => (Err e, t)
      | Panic => (Panic, t)
      end
  end.

(** The body of the input loop of [removeTx] (memdb.go:90-108). *)
Definition unspendBody (msgTx : MsgTx) (txIn : TxInput) : M TxMap unit :=
  if isCoinbaseInput txIn then retM tt
  else if IsCoinBaseTx msgTx then retM tt
  else unspendInput txIn.

(** [removeTx] (memdb.go:88). *)
Definition removeTx (msgTx : MsgTx) (txHash : Hash) : M TxMap unit :=
  forM (TxIn msgTx) (unspendBody msgTx) ;;;
  fun t =>
    let txns := default [] (t !! txHash) in
    let lastIndex := len txns - 1 in
    if lastIndex <? 0 then (Panic, t)
    else
      let txns := take (Z.to_nat lastIndex) txns in
      let t := <[txHash := txns]> t in
      if len txns =? 0 then (Ok tt, delete txHash t) else (Ok tt, t).

(** A step on the transaction map, run on the store. *)
Definition onTxns {A} (m : M TxMap A) : M MemDb A := fun db =>
  let '(r, t) := m (txns db) in
  (r, mkMemDb (blocks db) (blocksBySha db) t (closed db)).

(** The in-flight map of [InsertBlock] (memdb.go:525-529): each transaction
    hash of the block with the index written last for it. *)
Fixpoint buildInFlight (i : Z) (transactions : list MsgTx) (txInFlight : gmap Hash Z)
  : gmap Hash Z :=
  match transactions with
  | [] => txInFlight
  | tx :: rest => buildInFlight (i + 1) rest (<[TxHash tx := i]> txInFlight)
  end.

(** The checks on one input in the first pass of [InsertBlock]
    (memdb.go:539-569). *)
Definition checkInput (db : MemDb) (txInFlight : gmap Hash Z) (i : Z) (tx : MsgTx)
    (txIn : TxInput) : result DbError unit :=
  if isCoinbaseInput txIn then Ok tt
  else
    cb ← isCoinBaseTx tx;
    if cb : bool then Ok tt
    else
      let prevOut := PreviousOutPoint txIn in
      match txInFlight !! OutHash prevOut with
      | Some inFlightIndex =>
          if i <=? inFlightIndex then Err ErrTxShaMissing else Ok tt
      | None =>
          match txns db !! OutHash prevOut with
          | None => Err ErrTxShaMissing
          | Some originTxns =>
              match last originTxns with
              | None => Panic
              | Some originTxD =>
                  if uint32 (len (spentBuf originTxD)) <? Index prevOut
                  then Err ErrTxShaMissing
                  else Ok tt
              end
          end
      end.

Fixpoint checkInputs (db : MemDb) (txInFlight : gmap Hash Z) (i : Z) (tx : MsgTx)
    (txIns : list TxInput) : result DbError unit :=
  match txIns with
  | [] => Ok tt
  | txIn :: rest =>
      checkInput db txInFlight i tx txIn ≫= fun _ =>
      checkInputs db txInFlight i tx rest
  end.

(** The duplicate checks on one transaction (memdb.go:572-587). *)
Definition checkDuplicate (db : MemDb) (txInFlight : gmap Hash Z) (i : Z) (tx : MsgTx)
  : result DbError unit :=
  match txInFlight !! TxHash tx with
  | Some inFlightIndex => if inFlightIndex <? i then Err ErrDuplicateSha else Ok tt
  | None => Ok tt
  end ≫= fun _ =>
  match txns db !! TxHash tx with
  | None => Ok tt
  | Some txns =>
      match last txns with
      | None => Panic
      | Some txD => if negb (isFullySpent txD) then Err ErrDuplicateSha else Ok tt
      end
  end.

(** The first pass of [InsertBlock] (memdb.go:537-588), from index [i]; it
    reads the store and writes nothing. *)
Fixpoint validate (db : MemDb) (txInFlight : gmap Hash Z) (i : Z)
    (transactions : list MsgTx) : result DbError unit :=
  match transactions with
  | [] => Ok tt
  | tx :: rest =>
      checkInputs db txInFlight i tx (TxIn tx) ≫= fun _ =>
      checkDuplicate db txInFlight i tx ≫= fun _ =>
      validate db txInFlight (i + 1) rest
  end.

(** The body of the input loop in the second pass of [InsertBlock]
    (memdb.go:608-623). *)
Definition spendBody (tx : MsgTx) (txIn : TxInput) : M TxMap unit :=
  if isCoinbaseInput txIn then retM tt
  else
    cb <~ failM (isCoinBaseTx tx) ;;
    if cb : bool then retM tt
    else spendInput txIn.

(** The body of the second pass of [InsertBlock] for the transaction at
    offset [i] (memdb.go:595-624). *)
Definition insertTx (newHeight i : Z) (tx : MsgTx) : M TxMap unit :=
  (fun t =>
     let txD := mkTxD newHeight i (replicate (List.length (TxOut tx)) false) in
     (Ok tt, <[TxHash tx := default [] (t !! TxHash tx) ++ [txD]]> t)) ;;;
  cb <~ failM (isCoinBaseTx tx) ;;
  if cb : bool then retM tt
  else forM (TxIn tx) (spendBody tx).

Fixpoint insertTxs (newHeight i : Z) (transactions : list MsgTx) : M TxMap unit :=
  match transactions with
  | [] => retM tt
  | tx :: rest => insertTx newHeight i tx ;;; insertTxs newHeight (i + 1) rest
  end.

(** [InsertBlock] (memdb.go:504).  [massutil.Block] wraps the [wire.MsgBlock]
    and caches its hashes. *)
Definition InsertBlock (block : MsgBlock) : M MemDb Z := fun db =>
  if closed db then (Err ErrDbClosed, db)
  else if negb (bool_decide (is_Some (blocksBySha db !! Previous (Header block))))
          && (0 <? len (blocks db))
  then (Err ErrPrevShaMissing, db)
  else
    let transactions := Transactions block in
    let txInFlight := buildInFlight 0 transactions ∅ in
    let newHeight := int32 (len (blocks db)) in
    match validate db txInFlight 0 transactions with
    | Err e => (Err e, db)
    | Panic => (Panic, db)
    | Ok _ =>
        (putM (mkMemDb (blocks db ++ [block])
                 (<[BlockHash block := newHeight]> (blocksBySha db))
                 (txns db) (closed db)) ;;;
         onTxns (insertTxs newHeight 0 transactions) ;;;
         retM newHeight) db
    end.

(** [Close] (memdb.go:130). *)
Definition Close : M MemDb unit := fun db =>
  if closed db then (Err ErrDbClosed, db)
  else (Ok tt, mkMemDb [] ∅ ∅ true).

(** The loop [for i := endHeight; i > height; i--] of [DropAfterBlockBySha]
    (memdb.go:170-182), with [n] iterations left. *)
Fixpoint dropLoop (n : nat) (i : Z) : M MemDb unit :=
  match n with
  | O => retM tt
  | S n' =>
      db <~ getM ;;
      blk <~ failM (index (blocks db) i) ;;
      onTxns (forM (reverse (Transactions blk)) (fun tx => removeTx tx (TxHash tx))) ;;;
      db <~ getM ;;
      putM (mkMemDb (take (Z.to_nat i) (blocks db)) (blocksBySha db) (txns db) (closed db)) ;;;
      dropLoop n' (i - 1)
  end.

(** [DropAfterBlockBySha] (memdb.go:149). *)
Definition DropAfterBlockBySha (sha : Hash) : M MemDb unit := fun db =>
  if closed db then (Err ErrDbClosed, db)
  else match blocksBySha db !! sha with
       | None => (Err ErrBlockUnknown, db)
       | Some height =>
           let endHeight := int32 (len (blocks db) - 1) in
           dropLoop (Z.to_nat (endHeight - height)) endHeight db
       end.

(** [ExistsSha] (memdb.go:189). *)
Definition ExistsSha (sha : Hash) (db : MemDb) : result DbError bool :=
  if closed db then Err ErrDbClosed
  else Ok (bool_decide (is_Some (blocksBySha db !! sha))).

(** The loop of [FetchHeightRange] (memdb.go:317-325), with [n] iterations
    left. *)
Fixpoint fetchLoop (n : nat) (i lastBlockIndex : Z) (bs : list MsgBlock)
    (hashList : list Hash) : result DbError (list Hash) :=
  match n with
  | O => Ok hashList
  | S n' =>
      if lastBlockIndex <? i then Ok hashList
      else
        msgBlock ← index bs i;
        fetchLoop n' (i + 1) lastBlockIndex bs (hashList ++ [BlockHash msgBlock])
  end.

(** [FetchHeightRange] (memdb.go:291). *)
Definition FetchHeightRange (startHeight endHeight : Z) (db : MemDb)
  : result DbError (list Hash) :=
  if closed db then Err ErrDbClosed
  else
    let endHeight := int32 (len (blocks db)) in
    if startHeight <? 0 then Err ErrStartNegative
    else if endHeight <? startHeight then Err ErrEndBelowStart
    else
      let lastBlockIndex := int32 (len (blocks db) - 1) in
      fetchLoop (Z.to_nat (endHeight - startHeight)) startHeight lastBlockIndex
        (blocks db) [].

(** [NewestSha] (memdb.go:642). *)
Definition NewestSha (db : MemDb) : result DbError (Hash * Z) :=
  if closed db then Err ErrDbClosed
  else
    let numBlocks := len (blocks db) in
    if numBlocks =? 0 then Ok (zeroHash, -1)
    else
      blk ← index (blocks db) (numBlocks - 1);
      Ok (BlockHash blk, int32 (numBlocks - 1)).

(** ** The other operations of the store *)

(** The [fmt.Errorf] errors of the block reads: a hash that is not a key of
    the blocks-by-hash map ("block %v is not in database", "block header %v
    is not in database") and a height outside the block vector ("unable to
    fetch block height %d since it is not within the valid range"). *)
Inductive ReadError : Type :=
| DbErr (e : DbError)
| ErrBlockNotInDb
| ErrHeaderNotInDb
| ErrHeightNotInRange.

(** A read of [db.blocks[i]] inside a block read. *)
Definition blockAt (db : MemDb) (i : Z) : result ReadError MsgBlock :=
  index (blocks db) i.

(** [FetchBlockBySha] (memdb.go:210): the block, with the height that
    [SetHeight] records on it. *)
Definition FetchBlockBySha (sha : Hash) (db : MemDb) : result ReadError (MsgBlock * Z) :=
  if closed db then Err (DbErr ErrDbClosed)
  else match blocksBySha db !! sha with
       | Some blockHeight => blk ← blockAt db blockHeight; Ok (blk, blockHeight)
       | None => Err ErrBlockNotInDb
       end.

(** [FetchBlockHeightBySha] (memdb.go:229). *)
Definition FetchBlockHeightBySha (sha : Hash) (db : MemDb) : result ReadError Z :=
  if closed db then Err (DbErr ErrDbClosed)
  else match blocksBySha db !! sha with
       | Some blockHeight => Ok blockHeight
       | None => Err ErrBlockNotInDb
       end.

(** [FetchBlockHeaderBySha] (memdb.go:250). *)
Definition FetchBlockHeaderBySha (sha : Hash) (db : MemDb) : result ReadError BlockHeader :=
  if closed db then Err (DbErr ErrDbClosed)
  else match blocksBySha db !! sha with
       | Some blockHeight => blk ← blockAt db blockHeight; Ok (Header blk)
       | None => Err ErrHeaderNotInDb
       end.

(** [FetchBlockShaByHeight] (memdb.go:267). *)
Definition FetchBlockShaByHeight (height : Z) (db : MemDb) : result ReadError Hash :=
  if closed db then Err (DbErr ErrDbClosed)
  else
    let numBlocks := int32 (len (blocks db)) in
    if (height <? 0) || (int32 (numBlocks - 1) <? height) then Err ErrHeightNotInRange
    else msgBlock ← blockAt db height; Ok (BlockHash msgBlock).

(** [ExistsTxSha] (memdb.go:333). *)
Definition ExistsTxSha (sha : Hash) (db : MemDb) : result DbError bool :=
  if closed db then Err ErrDbClosed
  else match txns db !! sha with
       | Some txns =>
           match last txns with
           | Some txD => Ok (negb (isFullySpent txD))
           | None => Panic
           end
       | None => Ok false
       end.

(** [database.TxListReply], as the store fills it; a nil pointer is [None]
    and the nil flag slice is empty. *)
Record TxListReply : Type := mkReply {
  Sha : Hash;
  Tx : option MsgTx;
  BlkSha : option Hash;
  Height : Z;
  TxSpent : list bool;
  ReplyErr : option DbError
}.

(** The reply for one recorded version (memdb.go:371-383 and 433-446): the
    block at the recorded height and its transaction at the recorded
    offset are read with Go's bounds checks. *)
Definition replyFor (db : MemDb) (sha : Hash) (txD : tTxInsertData)
  : result DbError TxListReply :=
  msgBlock ← index (blocks db) (blockHeight txD);
  tx ← index (Transactions msgBlock) (offset txD);
  Ok (mkReply sha (Some tx) (Some (BlockHash msgBlock)) (blockHeight txD)
        (spentBuf txD) None).

Fixpoint repliesFor (db : MemDb) (sha : Hash) (txns : list tTxInsertData)
  : result DbError (list TxListReply) :=
  match txns with
  | [] => Ok []
  | txD :: rest =>
      reply ← replyFor db sha txD;
      replies ← repliesFor db sha rest;
      Ok (reply :: replies)
  end.

(** [FetchTxBySha] (memdb.go:354). *)
Definition FetchTxBySha (txHash : Hash) (db : MemDb) : result DbError (list TxListReply) :=
  if closed db then Err ErrDbClosed
  else match txns db !! txHash with
       | None => Err ErrTxShaMissing
       | Some txns => repliesFor db txHash txns
       end.

(** The body of the loop of [fetchTxByShaList] (memdb.go:403-448). *)
Definition fetchOne (db : MemDb) (includeSpent : bool) (hash : Hash)
  : result DbError TxListReply :=
  let missing := mkReply hash None None 0 [] (Some ErrTxShaMissing) in
  if closed db then Ok (mkReply hash None None 0 [] (Some ErrDbClosed))
  else match txns db !! hash with
       | None => Ok missing
       | Some txns =>
           match last txns with
           | None => Panic
           | Some txD =>
               if negb includeSpent && isFullySpent txD then Ok missing
               else replyFor db hash txD
           end
       end.

(** [fetchTxByShaList] (memdb.go:401). *)
Fixpoint fetchTxByShaList (txShaList : list Hash) (includeSpent : bool) (db : MemDb)
  : result DbError (list TxListReply) :=
  match txShaList with
  | [] => Ok []
  | hash :: rest =>
      reply ← fetchOne db includeSpent hash;
      replies ← fetchTxByShaList rest includeSpent db;
      Ok (reply :: replies)
  end.

(** [FetchTxByShaList] (memdb.go:473) and [FetchUnSpentTxByShaList]
    (memdb.go:492). *)
Definition FetchTxByShaList (txShaList : list Hash) (db : MemDb)
  : result DbError (list TxListReply) :=
  fetchTxByShaList txShaList true db.

Definition FetchUnSpentTxByShaList (txShaList : list Hash) (db : MemDb)
  : result DbError (list TxListReply) :=
  fetchTxByShaList txShaList false db.

(** [RollbackClose] (memdb.go:697). *)
Definition RollbackClose : M MemDb unit := Close.

(** [Sync] (memdb.go:709). *)
Definition Sync : M MemDb unit := fun db =>
  if closed db then (Err ErrDbClosed, db) else (Ok tt, db).

(** A recorded version points into the store: the block vector has a block
    at its height, that block has a transaction at its offset, and this
    transaction has the hash the version is recorded under. *)
Definition entryOk (bs : list MsgBlock) (h : Hash) (d : tTxInsertData) : Prop :=
  0 <= blockHeight d /\ 0 <= offset d
  /\ exists blk tx,
       bs !! Z.to_nat (blockHeight d) = Some blk
       /\ Transactions blk !! Z.to_nat (offset d) = Some tx
       /\ TxHash tx = h.

(** Every key of the transaction map has at least one version, and every
    version points into the block vector [bs]. *)
Definition mapOk (bs : list MsgBlock) (t : TxMap) : Prop :=
  forall h l, t !! h = Some l -> l <> [] /\ Forall (entryOk bs h) l.

Definition wellStored (db : MemDb) : Prop := mapOk (blocks db) (txns db).

(** Output [index] of the last version recorded for the hash [h] is marked
    spent. *)
Definition markedSpent (t : TxMap) (h : Hash) (index : Z) : Prop :=
  exists init d,
    t !! h = Some (init ++ [d])
    /\ 0 <= index
    /\ spentBuf d !! Z.to_nat index = Some true.

(** A reply without error carries a transaction with the hash of the reply,
    and the hash of a block. *)
Definition replyOk (r : TxListReply) : Prop :=
  ReplyErr r = None ->
  is_Some (BlkSha r) /\ exists tx, Tx r = Some tx /\ TxHash tx = Sha r.

(** ** Observations on a store *)

(** A sequence of block inserts each of which returns a height. *)
Fixpoint insertAll (bs : list MsgBlock) (db : MemDb) : option MemDb :=
  match bs with
  | [] => Some db
  | b :: rest =>
      match InsertBlock b db with
      | (Ok _, db') => insertAll rest db'
      | _ => None
      end
  end.

(** The versions recorded for a transaction hash, oldest first; none when
    the hash is not a key of the map. *)
Definition versions (t : TxMap) (h : Hash) : list tTxInsertData :=
  default [] (t !! h).

(** Two transaction maps hold, for every hash, the same versions up to their
    spent flags, which are related by [R]. *)
Definition entryRel (R : bool -> bool -> Prop) (d d' : tTxInsertData) : Prop :=
  blockHeight d = blockHeight d'
  /\ offset d = offset d'
  /\ Forall2 R (spentBuf d) (spentBuf d').

Definition txnsRel (R : bool -> bool -> Prop) (t t' : TxMap) : Prop :=
  forall h, Forall2 (entryRel R) (versions t h) (versions t' h).

(** [t'] is [t] with some spent flags cleared: a flag set in [t'] is set in
    [t]. *)
Definition clearedFlag (b b' : bool) : Prop := b' = true -> b = true.
Definition txnsCleared (t t' : TxMap) : Prop := txnsRel clearedFlag t t'.

Definition anyFlag (b b' : bool) : Prop := True.
Definition sameShape (t t' : TxMap) : Prop := txnsRel anyFlag t t'.

(** The hash of every block of the vector is a key of the blocks-by-hash
    map. *)
Definition hashesKnown (db : MemDb) : Prop :=
  Forall (fun b => is_Some (blocksBySha db !! BlockHash b)) (blocks db).

(** The block vector is as long as the blocks-by-hash map is large. *)
Definition lengthIsSize (db : MemDb) : Prop :=
  List.length (blocks db) = size (blocksBySha db).

(** ** Spends that hit an unspent output *)

(** The spent flag an input refers to: the flag at its index in the latest
    version recorded for its hash. *)
Definition flagOf (t : TxMap) (txIn : TxInput) : option bool :=
  d ← last (versions t (OutHash (PreviousOutPoint txIn)));
  spentBuf d !! Z.to_nat (Index (PreviousOutPoint txIn)).

(** Every input of [tx] that the second pass of [InsertBlock] spends refers
    to a flag of [t] that is not set. *)
Definition spendsUnspent (tx : MsgTx) (t : TxMap) : bool :=
  match isCoinBaseTx tx with
  | Ok false =>
      forallb (fun txIn =>
                 isCoinbaseInput txIn || bool_decide (flagOf t txIn = Some false))
        (TxIn tx)
  | _ => true
  end.

(** No transaction of the list spends an output that is marked spent at
    the moment the second pass of [InsertBlock] has recorded the
    transaction and is about to spend its inputs. *)
Fixpoint noRespendTxs (newHeight i : Z) (transactions : list MsgTx) (t : TxMap) : bool :=
  match transactions with
  | [] => true
  | tx :: rest =>
      let txD := mkTxD newHeight i (replicate (List.length (TxOut tx)) false) in
      spendsUnspent tx (<[TxHash tx := default [] (t !! TxHash tx) ++ [txD]]> t)
      && match insertTx newHeight i tx t with
         | (Ok _, t1) => noRespendTxs newHeight (i + 1) rest t1
         | _ => true
         end
  end.

(** The same for a sequence of block inserts. *)
Fixpoint noRespend (bs : list MsgBlock) (db : MemDb) : bool :=
  match bs with
  | [] => true
  | b :: rest =>
      noRespendTxs (int32 (len (blocks db))) 0 (Transactions b) (txns db)
      && match InsertBlock b db with
         | (Ok _, db') => noRespend rest db'
         | _ => true
         end
  end.

(** [t'] is [t] with some spent flags set: a flag set in [t] is set in
    [t']. *)
Definition keptFlag (b b' : bool) : Prop := b = true -> b' = true.
Definition txnsKept (t t' : TxMap) : Prop := txnsRel keptFlag t t'.

(** No key of the transaction map has an empty list of versions. *)
Definition noEmptyKey (t : TxMap) : Prop := forall h l, t !! h = Some l -> l <> [].

End Store.

End Memdb.

(** * The sync peer set ([netsync/peer.go]) *)

Module Netsync.

(** [defaultBanThreshold] (peer.go:23), a [uint64]. *)
Definition defaultBanThreshold : Z := 100.

(** The calls a peer set makes on its transport, the [BasePeerSet] interface
    (peer.go:36), in the order they are made. *)
Inductive TransportCall : Type :=
| AddBannedPeer (addr : string)
| StopPeerGracefully (id : string).

Section Peers.

(** [trust.DynamicBanScore] is not in [src/]: its state is kept abstract and
    [Increase] returns the score after the increase with the new state (the
    clock it reads is part of that state). *)
Context {DynamicBanScore : Type}.
Variable Increase : DynamicBanScore -> Z -> Z -> Z * DynamicBanScore.

(** The connection-level peer behind the [BasePeer] interface (peer.go:27):
    [Addr().String()], [ID()], [ServiceFlag()] and [IsOutbound()]. *)
Record BasePeer : Type := mkBasePeer {
  Addr : string;
  ID : string;
  ServiceFlag : Z;
  IsOutbound : bool
}.

(** [peer] (peer.go:50), without its mutex. *)
Record peer : Type := mkPeer {
  base : BasePeer;
  services : Z;
  height : Z;
  hash : list byte;
  banScore : DynamicBanScore;
  knownTxs : gset string;
  knownBlocks : gset string;
  filterAdds : gset string
}.

(** [peerSet] (peer.go:260): the peers by id, and the calls made so far on the
    embedded [BasePeerSet]. *)
Record peerSet : Type := mkPeerSet {
  peers : gmap string peer;
  transport : list TransportCall
}.

(** [peer.addBanScore] (peer.go:87): whether to ban, and the peer with its
    score increased.  The two log lines leave no state behind. *)
Definition addBanScore (p : peer) (persistent transient : Z) (reason : string)
  : bool * peer :=
  let '(score, bs) := Increase (banScore p) persistent transient in
  let p := mkPeer (base p) (services p) (height p) (hash p) bs
             (knownTxs p) (knownBlocks p) (filterAdds p) in
  if defaultBanThreshold <? score then (true, p)
  else (false, p).

(** [peerSet.removePeer] (peer.go:429). *)
Definition removePeer (ps : peerSet) (peerID : string) : peerSet :=
  mkPeerSet (delete peerID (peers ps)) (transport ps ++ [StopPeerGracefully peerID]).

(** [peerSet.addBanScore] (peer.go:274).  The map holds pointers, so the
    increase of the score is seen through the map. *)
Definition peerSet_addBanScore (ps : peerSet) (peerID : string)
    (persistent transient : Z) (reason : string) : peerSet :=
  match peers ps !! peerID with
  | None => ps
  | Some peer =>
      let '(ban, peer') := addBanScore peer persistent transient reason in
      let ps := mkPeerSet (<[peerID := peer']> (peers ps)) (transport ps) in
      if negb ban then ps
      else
        let ps := mkPeerSet (peers ps) (transport ps ++ [AddBannedPeer (Addr (base peer'))]) in
        removePeer ps peerID
  end.

(** ** The other operations of a peer and of the peer set *)

(** [maxKnownTxs] and [maxKnownBlocks] (peer.go:21-22). *)
Definition maxKnownTxs : Z := 32768.
Definition maxKnownBlocks : Z := 1024.

(** The parts of other packages that the operations below call and [src/]
    does not hold: the zero value of [trust.DynamicBanScore]; the string of
    a hash, [hash.String()] and [tx.Hash().String()]; [IsEnable] of
    [consensus.ServiceFlag] and the flag [SFFullNode]; the two limits on
    filter addresses; [hex.EncodeToString]; the message constructor
    [NewTransactionMessage], which may fail; and [TrySend] of the base peer
    on [BlockchainChannel], whose outcome depends on the state [World] of
    the connection layer. *)
Context {Hash Tx Msg World : Type}.
Variable zeroBanScore : DynamicBanScore.
Variable HashString : Hash -> string.
Variable TxHashString : Tx -> string.
Variable IsEnable : Z -> Z -> bool.
Variable SFFullNode : Z.
Variable maxFilterAddressCount : Z.
Variable maxFilterAddressSize : Z.
Variable EncodeToString : list byte -> string.
Variable NewTransactionMessage : Tx -> option Msg.
Variable TrySend : BasePeer -> Msg -> World -> bool * World.

(** [Pop] of the set package [fatih/set] (not in [src/]): it deletes and
    returns some item of the set, the first one the range over the
    underlying map yields, and returns nil on an empty set.  The choice is
    kept abstract: a run of the loops below never sees the same set twice,
    so every run follows some choice function. *)
Variable Pop : gset string -> option string.

(** [newPeer] (peer.go:62). *)
Definition newPeer (height : Z) (hash : list byte) (basePeer : BasePeer) : peer :=
  mkPeer basePeer (ServiceFlag basePeer) height hash zeroBanScore ∅ ∅ ∅.

(** [peer.Height] (peer.go:74). *)
Definition Height (p : peer) : Z := height p.

(** Assignments to the three sets of a peer. *)
Definition withKnownTxs (p : peer) (s : gset string) : peer :=
  mkPeer (base p) (services p) (height p) (hash p) (banScore p)
    s (knownBlocks p) (filterAdds p).
Definition withKnownBlocks (p : peer) (s : gset string) : peer :=
  mkPeer (base p) (services p) (height p) (hash p) (banScore p)
    (knownTxs p) s (filterAdds p).
Definition withFilterAdds (p : peer) (s : gset string) : peer :=
  mkPeer (base p) (services p) (height p) (hash p) (banScore p)
    (knownTxs p) (knownBlocks p) s.

(** [peer.addFilterAddress] (peer.go:101). *)
Definition addFilterAddress (p : peer) (address : list byte) : peer :=
  if maxFilterAddressCount <=? Z.of_nat (size (filterAdds p)) then p
  else if maxFilterAddressSize <? len address then p
  else withFilterAdds p ({[EncodeToString address]} ∪ filterAdds p).

(** [peer.addFilterAddresses] (peer.go:118). *)
Definition addFilterAddresses (p : peer) (addresses : list (list byte)) : peer :=
  let p := if negb (bool_decide (filterAdds p = ∅)) then withFilterAdds p ∅ else p in
  foldl addFilterAddress p addresses.

(** [peer.isRelatedTx] (peer.go:153): the body is commented out. *)
Definition isRelatedTx (p : peer) (tx : Tx) : bool := false.

(** [peer.isSPVNode] (peer.go:167). *)
Definition isSPVNode (p : peer) : bool := negb (IsEnable (services p) SFFullNode).

(** The loop [for s.Size() >= max { s.Pop() }] of [markBlock] and
    [markTransaction], with [n] iterations left; [None] when they do not
    suffice. *)
Fixpoint popLoop (n : nat) (max : Z) (s : gset string) : option (gset string) :=
  if Z.of_nat (size s) <? max then Some s
  else match n with
       | O => None
       | S n' =>
           match Pop s with
           | Some item => popLoop n' max (s ∖ {[item]})
           | None => popLoop n' max s
           end
       end.

(** [peer.markBlock] (peer.go:171) and [peer.markTransaction] (peer.go:181).
    Every iteration on a non-empty set deletes an item, so as many
    iterations as the set has items are enough. *)
Definition markBlock (p : peer) (hash : Hash) : option peer :=
  known ← popLoop (size (knownBlocks p)) maxKnownBlocks (knownBlocks p);
  Some (withKnownBlocks p ({[HashString hash]} ∪ known)).

Definition markTransaction (p : peer) (hash : Hash) : option peer :=
  known ← popLoop (size (knownTxs p)) maxKnownTxs (knownTxs p);
  Some (withKnownTxs p ({[HashString hash]} ∪ known)).

(** The error of [sendTransactions], the wrapped error of the message
    constructor. *)
Inductive SendError : Type := ErrTxMsg.

(** [peer.sendTransactions] (peer.go:232): the result, the peer and the
    state of the connection layer after the call. *)
Fixpoint sendTransactions (txs : list Tx) (p : peer) (w : World)
  : result SendError bool * peer * World :=
  match txs with
  | [] => (Ok true, p, w)
  | tx :: rest =>
      if isSPVNode p && negb (isRelatedTx p tx) then sendTransactions rest p w
      else
        match NewTransactionMessage tx with
        | None => (Err ErrTxMsg, p, w)
        | Some msg =>
            if bool_decide (TxHashString tx ∈ knownTxs p) then sendTransactions rest p w
            else
              let '(ok, w') := TrySend (base p) msg w in
              if negb ok then (Ok false, p, w')
              else sendTransactions rest
                     (withKnownTxs p ({[TxHashString tx]} ∪ knownTxs p)) w'
        end
  end.

(** [peer.setStatus] (peer.go:253). *)
Definition setStatus (p : peer) (height : Z) (hash : list byte) : peer :=
  mkPeer (base p) (services p) height hash (banScore p)
    (knownTxs p) (knownBlocks p) (filterAdds p).

(** [peerSet.addPeer] (peer.go:291). *)
Definition addPeer (ps : peerSet) (peer : BasePeer) (height : Z) (hash : list byte)
  : peerSet :=
  match peers ps !! ID peer with
  | None => mkPeerSet (<[ID peer := newPeer height hash peer]> (peers ps)) (transport ps)
  | Some _ => ps
  end.

(** [peerSet.getPeer] (peer.go:386); the nil pointer of a missing id is
    [None]. *)
Definition getPeer (ps : peerSet) (id : string) : option peer := peers ps !! id.

(** The loop of [bestPeer] (peer.go:307-314) over the peers in the order in
    which the range statement visits the map. *)
Fixpoint bestPeerLoop (flag : Z) (order : list peer) (bestPeer : option peer)
  : option peer :=
  match order with
  | [] => bestPeer
  | p :: rest =>
      if negb (IsEnable (services p) flag) then bestPeerLoop flag rest bestPeer
      else
        match bestPeer with
        | None => bestPeerLoop flag rest (Some p)
        | Some best =>
            if height best <? height p then bestPeerLoop flag rest (Some p)
            else bestPeerLoop flag rest bestPeer
        end
  end.

(** [peerSet.bestPeer] (peer.go:302).  Go does not fix the order of a range
    over a map: [order] is the order of this call, some arrangement of the
    entries of the map. *)
Definition rangeOrder (ps : peerSet) (order : list (string * peer)) : Prop :=
  order ≡ₚ map_to_list (peers ps).

Definition bestPeer (order : list (string * peer)) (flag : Z) : option peer :=
  bestPeerLoop flag (order.*2) None.

End Peers.

End Netsync.

(** * The words of the specification, for comparison with the code *)

Module SpecWords.
Import Txscript.

(** Section 4.2: "testing predicates in this fixed precedence (first match
    wins): MultiSig, NullData, WitnessV0ScriptHash, LocktimeScriptHash, else
    NonStandard". *)
Definition precedence (MaxDataCarrierSize : Z)
  : list ((list parsedOpcode -> bool) * ScriptClass) :=
  [ (isMultiSig, MultiSigTy);
    (isNullData MaxDataCarrierSize, NullDataTy);
    (isWitnessScriptHash, WitnessV0ScriptHashTy);
    (isLocktimeScriptHash, LocktimeScriptHashTy) ].

Definition firstMatch (MaxDataCarrierSize : Z) (pops : list parsedOpcode) : ScriptClass :=
  match List.find (fun rule => fst rule pops) (precedence MaxDataCarrierSize) with
  | Some rule => snd rule
  | None => NonStandardTy
  end.

End SpecWords.

(** * Concrete scripts, blocks and peers

    The values the scenarios of section 8 are run on.  Where the code takes a
    part of the package as a parameter, a small stand-in is given here. *)

Module Vectors.

(** ** Scripts *)

(** The size bounds of Bitcoin-style scripts and the data-carrier bound. *)
Definition maxScriptSize : Z := 10000.
Definition MaxScriptElementSize : Z := 520.
Definition MaxDataCarrierSize : Z := 80.

(** S3: a script hash of 32 bytes 0x11. *)
Definition hash11 : list byte := replicate 32 x11.

(** S1: two compressed keys. *)
Definition pk1 : list byte := x02 :: replicate 32 x0a.
Definition pk2 : list byte := x03 :: replicate 32 x0b.

(** A stand-in for [massutil.NewAddressPubKey]: it accepts a serialized key by
    its length and format byte only (0x02, 0x03 for 33 bytes, 0x04 for 65). *)
Definition keyFormatOk (serializedPubKey : list byte) : bool :=
  match serializedPubKey with
  | fmt :: _ =>
      ((len serializedPubKey =? 33)
       && (bool_decide (fmt = x02) || bool_decide (fmt = x03)))
      || ((len serializedPubKey =? 65) && bool_decide (fmt = x04))
  | [] => false
  end.

Definition newAddressPubKey (serializedPubKey : list byte) (_ : unit)
  : option (list byte) :=
  if keyFormatOk serializedPubKey then Some serializedPubKey else None.

Definition newAddressScriptHash (scriptHash : list byte) (_ : unit)
  : option (list byte) := Some scriptHash.

(** A 1-of-1 multisig script whose key push holds 33 zero bytes: it has the
    multisig shape, and the key is not a valid point encoding. *)
Definition badKeyScript : list byte :=
  [x51; x21] ++ replicate 33 x00 ++ [x51; xae].

(** Stand-ins for the signature-operation counters. *)
Definition countNone (_ : list byte) (_ : list (list byte)) : Z := 0.
Definition countStatic (_ : list Txscript.parsedOpcode) (_ : bool) : Z := 0.

(** ** Blocks *)

(** Stand-ins for the hash functions: a transaction is identified by its lock
    time and a block by its timestamp; the values below keep them distinct,
    and no zero, the zero hash. *)
Definition txHash (tx : @Memdb.MsgTx Z) : Z := Memdb.LockTime tx.
Definition blockHash (b : @Memdb.MsgBlock Z) : Z := Memdb.Timestamp (Memdb.Header b).

Definition coinbaseIn : @Memdb.TxInput Z :=
  Memdb.mkTxIn (Memdb.mkOutPoint 0 Memdb.MaxUint32).
Definition spend (prev : Z) (index : Z) : @Memdb.TxInput Z :=
  Memdb.mkTxIn (Memdb.mkOutPoint prev index).
Definition oneOut : list Memdb.TxOutput := [Memdb.mkTxOut []].

(** S4: genesis [G] with coinbase 100; [B1] with coinbase 101 and [T1] = 102
    spending output 0 of 100; [B2] with [T2] = 103 spending output 0 of 102. *)
Definition cb0 : @Memdb.MsgTx Z := Memdb.mkMsgTx [coinbaseIn] oneOut 100.
Definition cb1 : @Memdb.MsgTx Z := Memdb.mkMsgTx [coinbaseIn] oneOut 101.
Definition T1 : @Memdb.MsgTx Z := Memdb.mkMsgTx [spend 100 0] oneOut 102.
Definition T2 : @Memdb.MsgTx Z := Memdb.mkMsgTx [spend 102 0] oneOut 103.
Definition G : @Memdb.MsgBlock Z := Memdb.mkBlock (Memdb.mkHeader 0 1) [cb0].
Definition B1 : @Memdb.MsgBlock Z := Memdb.mkBlock (Memdb.mkHeader 1 2) [cb1; T1].
Definition B2 : @Memdb.MsgBlock Z := Memdb.mkBlock (Memdb.mkHeader 2 3) [T2].

(** S5: a block on top of [G] with a coinbase and [T1] twice. *)
Definition Bdup : @Memdb.MsgBlock Z := Memdb.mkBlock (Memdb.mkHeader 1 4) [cb1; T1; T1].

(** A block on top of [G] whose transaction 104 spends output 1 of 100, one
    past the single output of 100. *)
Definition Tpast : @Memdb.MsgTx Z := Memdb.mkMsgTx [spend 100 1] oneOut 104.
Definition Bpast : @Memdb.MsgBlock Z := Memdb.mkBlock (Memdb.mkHeader 1 5) [cb1; Tpast].

(** A genesis block whose transaction 105 spends output 0 of its coinbase,
    and a block on top of it whose transaction 106 spends that output again:
    the store does not refuse a second spend. *)
Definition Tb : @Memdb.MsgTx Z := Memdb.mkMsgTx [spend 100 0] oneOut 105.
Definition Tc : @Memdb.MsgTx Z := Memdb.mkMsgTx [spend 100 0] oneOut 106.
Definition Gspent : @Memdb.MsgBlock Z := Memdb.mkBlock (Memdb.mkHeader 0 6) [cb0; Tb].
Definition Bagain : @Memdb.MsgBlock Z := Memdb.mkBlock (Memdb.mkHeader 6 7) [cb1; Tc].

Definition insert (b : @Memdb.MsgBlock Z) (db : @Memdb.MemDb Z _ _) : @Memdb.MemDb Z _ _ :=
  snd (Memdb.InsertBlock 0 txHash blockHash b db).

Definition dbG : @Memdb.MemDb Z _ _ := insert G Memdb.newMemDb.
Definition dbB1 : @Memdb.MemDb Z _ _ := insert B1 dbG.
Definition dbB2 : @Memdb.MemDb Z _ _ := insert B2 dbB1.

(** ** Peers *)

(** A stand-in for [trust.DynamicBanScore] without decay: the score is the sum
    of all increases. *)
Definition increase (score persistent transient : Z) : Z * Z :=
  (score + persistent + transient, score + persistent + transient).

(** S6: peer "P" after its first increase of 60. *)
Definition peerP : @Netsync.peer Z :=
  Netsync.mkPeer (Netsync.mkBasePeer "10.0.0.1:43480" "P" 1 true) 1 0 [] 60 ∅ ∅ ∅.
Definition setP : @Netsync.peerSet Z := Netsync.mkPeerSet {["P" := peerP]} [].

(** ** Addresses *)

(** A stand-in for [massutil.AddressWitnessScriptHash]: the witness version
    and the script hash. *)
Definition witnessVersion (addr : Z * list byte) : Z := fst addr.
Definition scriptAddress (addr : Z * list byte) : list byte := snd addr.

(** A version-0 address of the hash of S3 and a version-10 address of a
    20-byte hash. *)
Definition hash22 : list byte := replicate 20 x22.
Definition witnessAddr : Z * list byte := (0, hash11).
Definition locktimeAddr : Z * list byte := (10, hash22).

(** ** More peers *)

(** Stand-ins for the connection layer and the set package: a service is
    offered when all bits of the flag are set; the full-node flag is bit 0;
    a hash and a transaction are their own strings; every send succeeds and
    is counted; [Pop] takes the first item of the set. *)
Definition isEnable (services flag : Z) : bool := Z.land services flag =? flag.
Definition sfFullNode : Z := 1.
Definition trySend (_ : Netsync.BasePeer) (_ : string) (sent : nat) : bool * nat :=
  (true, S sent).
Definition popFirst (s : gset string) : option string := head (elements s).

(** A full node "Q" at height 7 and an SPV node "L" at height 9. *)
Definition peerQ : @Netsync.peer Z :=
  Netsync.mkPeer (Netsync.mkBasePeer "10.0.0.2:43480" "Q" 1 false) 1 7 [] 0 ∅ ∅ ∅.
Definition peerL : @Netsync.peer Z :=
  Netsync.mkPeer (Netsync.mkBasePeer "10.0.0.3:43480" "L" 0 false) 0 9 [] 0 ∅ ∅ ∅.
Definition setPQL : @Netsync.peerSet Z :=
  Netsync.mkPeerSet {["P" := peerP; "Q" := peerQ; "L" := peerL]} [].

End Vectors.

(** * Properties of the standard scripts *)

Module TxscriptFacts.
Import Txscript.

Section Classification.

Variable parseScript : list byte -> list parsedOpcode * option ScriptError.
Variable MaxDataCarrierSize : Z.

Lemma typeOfScript_firstMatch (pops : list parsedOpcode) :
  typeOfScript MaxDataCarrierSize pops = SpecWords.firstMatch MaxDataCarrierSize pops.
Proof.
  unfold typeOfScript, SpecWords.firstMatch, SpecWords.precedence. simpl.
  destruct (isMultiSig pops); [reflexivity|].
  destruct (isNullData MaxDataCarrierSize pops); [reflexivity|].
  destruct (isWitnessScriptHash pops); [reflexivity|].
  destruct (isLocktimeScriptHash pops); reflexivity.
Qed.

Lemma typeOfScript_MultiSigTy (pops : list parsedOpcode) :
  typeOfScript MaxDataCarrierSize pops = MultiSigTy -> isMultiSig pops = true.
Proof.
  unfold typeOfScript.
  destruct (isMultiSig pops); [reflexivity|].
  destruct (isNullData MaxDataCarrierSize pops); [discriminate|].
  destruct (isWitnessScriptHash pops); [discriminate|].
  destruct (isLocktimeScriptHash pops); discriminate.
Qed.

Lemma isMultiSig_len (pops : list parsedOpcode) :
  isMultiSig pops = true -> 4 <= len pops.
Proof.
  unfold isMultiSig. destruct (len pops <? 4) eqn:E; [discriminate|].
  intros _. apply Z.ltb_ge in E. exact E.
Qed.

Lemma expectedInputs_typeOfScript (pops : list parsedOpcode) :
  exists n, expectedInputs pops (typeOfScript MaxDataCarrierSize pops) = Ok n.
Proof.
  destruct (typeOfScript MaxDataCarrierSize pops) eqn:E; simpl; eauto.
  apply typeOfScript_MultiSigTy, isMultiSig_len in E.
  destruct pops; [unfold len in E; simpl in E; lia | eauto].
Qed.

(** C10.  Classification is a function of the script bytes: equal scripts
    get equal classes; a script that fails to parse is [NonStandardTy]; a
    script that parses gets the class of its opcodes; and the class of a
    parsed opcode sequence is the first match among MultiSig, NullData,
    WitnessV0ScriptHash and LocktimeScriptHash, in this order, else
    NonStandard.  This holds for every parser and every data-carrier
    bound. *)
Theorem GetScriptClass_deterministic
    (script1 script2 unparsed parsed : list byte) (pops anyPops : list parsedOpcode) :
  script1 = script2 ->
  snd (parseScript unparsed) <> None ->
  parseScript parsed = (pops, None) ->
  GetScriptClass parseScript MaxDataCarrierSize script1
    = GetScriptClass parseScript MaxDataCarrierSize script2
  /\ GetScriptClass parseScript MaxDataCarrierSize unparsed = NonStandardTy
  /\ GetScriptClass parseScript MaxDataCarrierSize parsed
     = SpecWords.firstMatch MaxDataCarrierSize pops
  /\ typeOfScript MaxDataCarrierSize anyPops
     = SpecWords.firstMatch MaxDataCarrierSize anyPops.
Proof.
  intros -> Hbad Hgood. split; [reflexivity|]. split; [|split].
  - unfold GetScriptClass. destruct (parseScript unparsed) as [ps [e|]]; [reflexivity|].
    simpl in Hbad. congruence.
  - unfold GetScriptClass. rewrite Hgood. apply typeOfScript_firstMatch.
  - apply typeOfScript_firstMatch.
Qed.

End Classification.

Section ScriptInfo.

Variable parseScript : list byte -> list parsedOpcode * option ScriptError.
Variable MaxDataCarrierSize : Z.
Variable GetWitnessSigOpCount : list byte -> list (list byte) -> Z.
Variable GetLocktimeScriptSigOpCount : list byte -> list (list byte) -> Z.
Variable getSigOpCount : list parsedOpcode -> bool -> Z.

Lemma index_first {E A} (x : A) (l : list A) : index (E:=E) (x :: l) 0 = Ok x.
Proof.
  unfold index, len. simpl.
  destruct (Z.of_nat (S (List.length l)) <=? 0) eqn:E1; [apply Z.leb_le in E1; lia|].
  reflexivity.
Qed.

Lemma index_last {E A} (x : A) (l : list A) :
  exists y, index (E:=E) (x :: l) (len (x :: l) - 1) = Ok y /\ last (x :: l) = Some y.
Proof.
  assert (Hl : is_Some (last (x :: l))).
  { rewrite last_is_Some. discriminate. }
  destruct Hl as [y Hy]. exists y. split; [|exact Hy].
  unfold index, len.
  rewrite last_lookup in Hy.
  replace (Z.to_nat (Z.of_nat (List.length (x :: l)) - 1)) with (Nat.pred (List.length (x :: l))) by (simpl; lia).
  rewrite Hy.
  destruct (Z.of_nat (List.length (x :: l)) - 1 <? 0) eqn:E1; [apply Z.ltb_lt in E1; simpl in E1; lia|].
  destruct (Z.of_nat (List.length (x :: l)) <=? Z.of_nat (List.length (x :: l)) - 1) eqn:E2;
    [apply Z.leb_le in E2; lia|].
  reflexivity.
Qed.

Lemma index_empty {E A} : index (E:=E) (@nil A) (len (@nil A) - 1) = Panic.
Proof. reflexivity. Qed.

(** C6.  For a public-key script that parses: with a witness of at least one
    element the reads of [witness[0]] and of [witness[len(witness)-1]] are in
    bounds and [CalcScriptInfo] returns a [ScriptInfo]; with an empty witness
    the read of the last element is out of bounds and the call panics. *)
Theorem CalcScriptInfo_needs_witness
    (pkScript : list byte) (first : list byte) (rest : list (list byte)) :
  snd (parseScript pkScript) = None ->
  (exists lastElem si,
      index (E:=ScriptError) (first :: rest) 0 = Ok first
      /\ index (E:=ScriptError) (first :: rest) (len (first :: rest) - 1) = Ok lastElem
      /\ CalcScriptInfo parseScript MaxDataCarrierSize GetWitnessSigOpCount
           GetLocktimeScriptSigOpCount getSigOpCount pkScript (first :: rest) = Ok si)
  /\ index (E:=ScriptError) (@nil (list byte)) (len (@nil (list byte)) - 1) = Panic
  /\ CalcScriptInfo parseScript MaxDataCarrierSize GetWitnessSigOpCount
       GetLocktimeScriptSigOpCount getSigOpCount pkScript [] = Panic.
Proof.
  intros Hparse. unfold CalcScriptInfo.
  destruct (parseScript pkScript) as [pkPops e] eqn:Hp. simpl in Hparse. subst e.
  destruct (expectedInputs_typeOfScript MaxDataCarrierSize pkPops) as [n Hn].
  split; [|split].
  - destruct (index_last (E:=ScriptError) first rest) as [y [Hy _]].
    exists y.
    rewrite Hn. simpl. rewrite Hy. simpl. rewrite index_first. simpl.
    destruct (expectedInputs_typeOfScript MaxDataCarrierSize (parseScript y).1) as [m Hm].
    destruct (typeOfScript MaxDataCarrierSize pkPops); rewrite ?Hm; simpl; eauto.
  - reflexivity.
  - rewrite Hn. reflexivity.
Qed.

End ScriptInfo.


Lemma Z_of_byte_of_Z (z : Z) : 0 <= z < 256 -> Z_of_byte (byte_of_Z z) = z.
Proof.
  intros Hz. unfold Z_of_byte, byte_of_Z.
  rewrite Z.mod_small by lia.
  destruct (Byte.of_N (Z.to_N z)) as [b|] eqn:E.
  - apply Byte.to_of_N in E. rewrite E. lia.
  - apply Byte.of_N_None_iff in E. lia.
Qed.

Lemma Z_of_byte_range (b : byte) : 0 <= Z_of_byte b < 256.
Proof.
  unfold Z_of_byte. pose proof (Byte.to_N_bounded b). lia.
Qed.

Lemma index_pop_at (pops : list parsedOpcode) (i : Z) (pop : parsedOpcode) :
  index (E:=ScriptError) pops i = Ok pop -> pop_at pops i = pop.
Proof.
  unfold index, pop_at.
  destruct ((i <? 0) || (len pops <=? i)); [discriminate|].
  destruct (pops !! Z.to_nat i) eqn:E; [|discriminate].
  intros [= <-]. rewrite nth_lookup, E. reflexivity.
Qed.

Lemma index_in_bounds (pops : list parsedOpcode) (i : Z) :
  0 <= i < len pops -> index (E:=ScriptError) pops i = Ok (pop_at pops i).
Proof.
  intros Hi. unfold index, pop_at.
  destruct (i <? 0) eqn:E1; [apply Z.ltb_lt in E1; lia|].
  destruct (len pops <=? i) eqn:E2; [apply Z.leb_le in E2; lia|].
  cbn [orb]. rewrite nth_lookup.
  destruct (lookup_lt_is_Some_2 pops (Z.to_nat i)) as [pop Hpop]; [unfold len in Hi; lia|].
  rewrite Hpop. reflexivity.
Qed.

Lemma isMultiSig_numPubKeys (pops : list parsedOpcode) :
  isMultiSig pops = true ->
  4 <= len pops /\ asSmallInt (op (pop_at pops (len pops - 2))) = len pops - 3.
Proof.
  unfold isMultiSig. destruct (len pops <? 4) eqn:E; [discriminate|].
  apply Z.ltb_ge in E.
  destruct (negb (isSmallInt (op (pop_at pops 0)))); [discriminate|].
  destruct (negb (isSmallInt (op (pop_at pops (len pops - 2))))); [discriminate|].
  destruct (negb (bool_decide _)); [discriminate|].
  destruct (len pops - 2 - 1 =? asSmallInt (op (pop_at pops (len pops - 2)))) eqn:E2;
    [|discriminate].
  apply Z.eqb_eq in E2. intros _. split; [exact E|lia].
Qed.

Section Addresses.

Variable parseScript : list byte -> list parsedOpcode * option ScriptError.
Variable MaxDataCarrierSize : Z.
Context {Params Address AddressPubKey PublicKey : Type}.
Variable NewAddressWitnessScriptHash : list byte -> Params -> option Address.
Variable NewAddressLocktimeScriptHash : list byte -> Params -> option Address.
Variable NewAddressPubKey : list byte -> Params -> option AddressPubKey.
Variable PubKey : AddressPubKey -> PublicKey.
Variable asAddress : AddressPubKey -> Address.

Lemma extractPubKeys_invalid (pops : list parsedOpcode) (chainParams : Params) (j : Z) :
  NewAddressPubKey (data_bytes (pop_at pops (j + 1))) chainParams = None ->
  forall (n : nat) (i : Z) addrs pks,
    i <= j < i + Z.of_nat n ->
    extractPubKeys NewAddressPubKey PubKey asAddress pops chainParams n i addrs pks = Panic.
Proof.
  intros Hbad. induction n as [|n IH]; intros i addrs pks Hj; [lia|].
  simpl. destruct (index pops (i + 1)) as [pop| |] eqn:Hi; simpl; try reflexivity.
  - apply index_pop_at in Hi. subst pop.
    destruct (NewAddressPubKey (data_bytes (pop_at pops (i + 1))) chainParams) as [a|] eqn:Ha;
      simpl; [|reflexivity].
    apply IH. assert (i <> j) by (intros ->; congruence). lia.
  - unfold index in Hi. repeat case_match; discriminate.
Qed.

(** C5 (where the code departs from the claim).  For a script of class
    MultiSig, a key push for which [NewAddressPubKey] fails makes
    [ExtractPkScriptAddrs] panic: the loop calls [addr.PubKey()] on the nil
    address before it looks at the error, so the key is not skipped. *)
Theorem ExtractPkScriptAddrs_invalid_key_panics
    (pkScript : list byte) (chainParams : Params) (pops : list parsedOpcode) (j : Z) :
  parseScript pkScript = (pops, None) ->
  typeOfScript MaxDataCarrierSize pops = MultiSigTy ->
  0 <= j < asSmallInt (op (pop_at pops (len pops - 2))) ->
  NewAddressPubKey (data_bytes (pop_at pops (j + 1))) chainParams = None ->
  ExtractPkScriptAddrs parseScript MaxDataCarrierSize NewAddressWitnessScriptHash
    NewAddressLocktimeScriptHash NewAddressPubKey PubKey asAddress pkScript chainParams
  = Panic.
Proof.
  intros Hp Hclass Hj Hbad. unfold ExtractPkScriptAddrs. rewrite Hp, Hclass.
  destruct (index pops 0) as [pop0| |] eqn:H0; simpl; try reflexivity.
  2:{ unfold index in H0. repeat case_match; discriminate. }
  destruct (index pops (len pops - 2)) as [popn| |] eqn:Hn; simpl; try reflexivity.
  2:{ unfold index in Hn. repeat case_match; discriminate. }
  apply index_pop_at in Hn. subst popn.
  rewrite (extractPubKeys_invalid pops chainParams j Hbad); [reflexivity|].
  lia.
Qed.

(** When every key push holds a key that [NewAddressPubKey] accepts, the
    addresses and keys are returned in order, with the leading small integer
    as the number of required signatures. *)
Lemma extractPubKeys_valid (pops : list parsedOpcode) (chainParams : Params) (n : nat) :
  forall (i : Z) addrs pks,
    0 <= i ->
    i + Z.of_nat n < len pops ->
    (forall k, i <= k < i + Z.of_nat n ->
               is_Some (NewAddressPubKey (data_bytes (pop_at pops (k + 1))) chainParams)) ->
    exists keys,
      extractPubKeys NewAddressPubKey PubKey asAddress pops chainParams n i addrs pks
        = Ok (addrs ++ map asAddress keys, pks ++ map PubKey keys)
      /\ List.length keys = n.
Proof.
  induction n as [|n IH]; intros i addrs pks Hi Hlen Hvalid.
  - exists []. cbn. rewrite !app_nil_r. auto.
  - cbn [extractPubKeys]. rewrite index_in_bounds by lia. cbn.
    destruct (Hvalid i ltac:(lia)) as [a Ha]. rewrite Ha. cbn.
    destruct (IH (i + 1) (addrs ++ [asAddress a]) (pks ++ [PubKey a])) as (keys & Hk & Hl);
      [lia|lia|intros k Hk; apply Hvalid; lia|].
    exists (a :: keys). rewrite Hk. cbn [map List.length]. rewrite <- !app_assoc.
    split; [reflexivity|lia].
Qed.

Lemma ExtractPkScriptAddrs_valid_keys
    (pkScript : list byte) (chainParams : Params) (pops : list parsedOpcode) :
  parseScript pkScript = (pops, None) ->
  typeOfScript MaxDataCarrierSize pops = MultiSigTy ->
  (forall k, 0 <= k < len pops - 3 ->
             is_Some (NewAddressPubKey (data_bytes (pop_at pops (k + 1))) chainParams)) ->
  exists keys,
    ExtractPkScriptAddrs parseScript MaxDataCarrierSize NewAddressWitnessScriptHash
      NewAddressLocktimeScriptHash NewAddressPubKey PubKey asAddress pkScript chainParams
    = Ok (MultiSigTy, map asAddress keys, map PubKey keys, asSmallInt (op (pop_at pops 0)))
    /\ len keys = len pops - 3.
Proof.
  intros Hp Hclass Hvalid. unfold ExtractPkScriptAddrs. rewrite Hp, Hclass.
  apply typeOfScript_MultiSigTy, isMultiSig_numPubKeys in Hclass.
  destruct Hclass as [Hlen Hnum].
  rewrite !index_in_bounds by lia. cbn. rewrite Hnum.
  destruct (extractPubKeys_valid pops chainParams (Z.to_nat (len pops - 3)) 0 [] [])
    as (keys & Hk & Hl); [lia|lia|intros k Hk; apply Hvalid; lia|].
  exists keys. rewrite Hk. cbn. split; [reflexivity|unfold len in *; lia].
Qed.

End Addresses.

(** ** The parser on built scripts *)

Lemma len_cons {A} (x : A) (l : list A) : len (x :: l) = 1 + len l.
Proof. unfold len. simpl. lia. Qed.

Lemma len_app {A} (l1 l2 : list A) : len (l1 ++ l2) = len l1 + len l2.
Proof. unfold len. rewrite length_app. lia. Qed.

Lemma len_nonneg {A} (l : list A) : 0 <= len l.
Proof. unfold len. lia. Qed.

Lemma parseFrom_fuel (fuel1 : nat) :
  forall (fuel2 : nat) (script : list byte),
    (List.length script <= fuel1)%nat -> (List.length script <= fuel2)%nat ->
    parseFrom fuel1 script = parseFrom fuel2 script.
Proof.
  induction fuel1 as [|f1 IH]; intros fuel2 script H1 H2.
  - destruct script; [|simpl in H1; lia]. destruct fuel2; reflexivity.
  - destruct script as [|instr rest]; [destruct fuel2; reflexivity|].
    destruct fuel2 as [|f2]; [simpl in H2; lia|].
    simpl in H1, H2. cbn [parseFrom].
    assert (Hd : forall k, (List.length (drop k rest) <= f1)%nat /\ (List.length (drop k rest) <= f2)%nat).
    { intros k. rewrite length_drop. lia. }
    rewrite (IH f2 rest) by lia.
    rewrite (IH f2 (drop (Z.to_nat (oplength (opcodeArray instr) - 1)) rest)) by apply Hd.
    repeat case_match; try reflexivity.
    f_equal. apply IH.
    all: rewrite !length_drop; lia.
Qed.

Lemma parseScript_op (b : byte) (rest : list byte) :
  oplength (opcodeArray b) = 1 ->
  parseScript (b :: rest) = consPop (mkPop (opcodeArray b) None) (parseScript rest).
Proof.
  intros Hl. unfold parseScript. cbn [List.length parseFrom]. rewrite Hl. simpl. reflexivity.
Qed.

Lemma pushBytes_direct (data : list byte) :
  len data < 76 -> pushBytes data = byte_of_Z (len data) :: data.
Proof.
  intros H. unfold pushBytes.
  change (Z_of_byte OP_PUSHDATA1) with 76. change (Z_of_byte OP_DATA_1 - 1) with 0.
  destruct (len data <? 76) eqn:E; [|apply Z.ltb_ge in E; lia].
  rewrite Z.add_0_l. reflexivity.
Qed.

Lemma opcodeArray_direct (n : Z) :
  1 <= n <= 75 -> opcodeArray (byte_of_Z n) = mkOpcode (byte_of_Z n) (n + 1).
Proof.
  intros H. unfold opcodeArray. rewrite Z_of_byte_of_Z by lia.
  destruct (1 <=? n) eqn:E1; [|apply Z.leb_gt in E1; lia].
  destruct (n <=? 75) eqn:E2; [|apply Z.leb_gt in E2; lia].
  reflexivity.
Qed.

Lemma parseScript_push (data rest : list byte) :
  1 <= len data <= 75 ->
  parseScript (pushBytes data ++ rest)
  = consPop (mkPop (mkOpcode (byte_of_Z (len data)) (len data + 1)) (Some data))
      (parseScript rest).
Proof.
  intros H. rewrite pushBytes_direct by lia.
  unfold parseScript. cbn [app List.length parseFrom].
  rewrite opcodeArray_direct by lia. cbn [oplength].
  destruct (len data + 1 =? 1) eqn:E1; [apply Z.eqb_eq in E1; lia|].
  destruct (1 <? len data + 1) eqn:E2; [|apply Z.ltb_ge in E2; lia].
  destruct (len (byte_of_Z (len data) :: data ++ rest) <? len data + 1) eqn:E3.
  { apply Z.ltb_lt in E3. rewrite len_cons, len_app in E3. pose proof (len_nonneg rest). lia. }
  replace (Z.to_nat (len data + 1 - 1)) with (List.length data) by (unfold len; lia).
  rewrite take_app_length, drop_app_length.
  f_equal. apply parseFrom_fuel; [rewrite length_app|]; lia.
Qed.


Lemma parseScript_nil : parseScript [] = ([], None).
Proof. reflexivity. Qed.

Section BuilderSteps.

Variable maxScriptSize : Z.
Variable MaxScriptElementSize : Z.

Lemma AddOp_ok (b : ScriptBuilder) (opcode : byte) :
  err b = None ->
  len (script b) + 1 <= maxScriptSize ->
  AddOp maxScriptSize b opcode = mkBuilder (script b ++ [opcode]) None.
Proof.
  intros He Hs. unfold AddOp. rewrite He.
  destruct (maxScriptSize <? len (script b) + 1) eqn:E; [apply Z.ltb_lt in E; lia|].
  reflexivity.
Qed.

Lemma AddData_ok (b : ScriptBuilder) (data : list byte) :
  err b = None ->
  len (script b) + len (pushBytes data) <= maxScriptSize ->
  len data <= MaxScriptElementSize ->
  AddData maxScriptSize MaxScriptElementSize b data
  = mkBuilder (script b ++ pushBytes data) None.
Proof.
  intros He Hs Hd. unfold AddData. rewrite He.
  destruct (maxScriptSize <? len (script b) + len (pushBytes data)) eqn:E;
    [apply Z.ltb_lt in E; lia|].
  destruct (MaxScriptElementSize <? len data) eqn:E2; [apply Z.ltb_lt in E2; lia|].
  reflexivity.
Qed.

Lemma AddInt64_small (b : ScriptBuilder) (n : Z) :
  err b = None ->
  len (script b) + 1 <= maxScriptSize ->
  0 <= n <= 16 ->
  AddInt64 maxScriptSize MaxScriptElementSize b n
  = mkBuilder (script b ++ [smallIntOp n]) None.
Proof.
  intros He Hs Hn. unfold AddInt64, smallIntOp. rewrite He.
  destruct (maxScriptSize <? len (script b) + 1) eqn:E; [apply Z.ltb_lt in E; lia|].
  destruct (n =? 0) eqn:E0; [reflexivity|].
  destruct (1 <=? n) eqn:E1; [|apply Z.leb_gt in E1; apply Z.eqb_neq in E0; lia].
  destruct (n <=? 16) eqn:E2; [|apply Z.leb_gt in E2; lia].
  reflexivity.
Qed.

End BuilderSteps.

(** *** Pay-to-witness-script-hash *)

Section WitnessScriptHash.

Variable maxScriptSize : Z.
Variable MaxScriptElementSize : Z.
Variable MaxDataCarrierSize : Z.

(** C4 (as amended).  For every 32-byte hash, within the size bounds of the
    builder, [payToWitnessScriptHashScript] builds [OP_0 0x20 <hash>]; the
    script classifies as [WitnessV0ScriptHashTy]; and [PushedData] returns
    two entries, the nil entry of OP_0 followed by the hash. *)
Theorem payToWitnessScriptHash_classify_pushes (scriptHash : list byte) :
  List.length scriptHash = 32%nat ->
  34 <= maxScriptSize ->
  32 <= MaxScriptElementSize ->
  payToWitnessScriptHashScript maxScriptSize MaxScriptElementSize scriptHash
    = Ok (OP_0 :: OP_DATA_32 :: scriptHash)
  /\ GetScriptClass parseScript MaxDataCarrierSize (OP_0 :: OP_DATA_32 :: scriptHash)
     = WitnessV0ScriptHashTy
  /\ PushedData parseScript (OP_0 :: OP_DATA_32 :: scriptHash)
     = Ok [None; Some scriptHash].
Proof.
  intros Hlen Hs He.
  assert (Hl : len scriptHash = 32) by (unfold len; lia).
  assert (Hpush : pushBytes scriptHash = OP_DATA_32 :: scriptHash).
  { rewrite pushBytes_direct by lia. rewrite Hl. reflexivity. }
  assert (Hparse : parseScript (OP_0 :: OP_DATA_32 :: scriptHash)
                   = ([mkPop (mkOpcode OP_0 1) None;
                       mkPop (mkOpcode OP_DATA_32 33) (Some scriptHash)], None)).
  { rewrite parseScript_op by reflexivity.
    rewrite <- Hpush, <- (app_nil_r (pushBytes scriptHash)).
    rewrite parseScript_push by lia. rewrite Hl. reflexivity. }
  split; [|split].
  - unfold payToWitnessScriptHashScript.
    rewrite AddOp_ok; [|reflexivity|unfold len; simpl; lia].
    rewrite AddData_ok; cbn [script err]; try reflexivity.
    + rewrite Hpush. reflexivity.
    + rewrite Hpush, len_app, !len_cons, Hl. unfold len. simpl. lia.
    + lia.
  - unfold GetScriptClass. rewrite Hparse. reflexivity.
  - unfold PushedData. rewrite Hparse. reflexivity.
Qed.

End WitnessScriptHash.

(** *** Multi-signature scripts *)

Lemma smallIntOp_facts (n : Z) :
  0 <= n <= 16 ->
  oplength (opcodeArray (smallIntOp n)) = 1
  /\ isSmallInt (opcodeArray (smallIntOp n)) = true
  /\ asSmallInt (opcodeArray (smallIntOp n)) = n.
Proof.
  intros H. rewrite <- (Z2Nat.id n) by lia.
  assert (Hk : (Z.to_nat n <= 16)%nat) by lia.
  generalize dependent (Z.to_nat n). clear H. intros k Hk.
  do 17 (destruct k as [|k]; [vm_compute; auto|]).
  lia.
Qed.

Lemma consPop_ok (pop : parsedOpcode) (pops : list parsedOpcode) :
  consPop pop (pops, None) = (pop :: pops, None).
Proof. reflexivity. Qed.

Lemma parseScript_keys (keys : list (list byte)) (tail : list byte)
    (pops : list parsedOpcode) :
  Forall keyLenOk keys ->
  parseScript tail = (pops, None) ->
  parseScript (concat (map pushBytes keys) ++ tail) = (map keyPop keys ++ pops, None).
Proof.
  intros Hk Ht. induction Hk as [|key keys Hkey _ IH]; [exact Ht|].
  cbn [map concat]. rewrite <- app_assoc.
  rewrite parseScript_push by (destruct Hkey; lia).
  rewrite IH. reflexivity.
Qed.

Lemma pop_at_0 (pop : parsedOpcode) (pops : list parsedOpcode) : pop_at (pop :: pops) 0 = pop.
Proof. reflexivity. Qed.

Lemma isMultiSig_shape (popn popm popc : parsedOpcode) (keyPops : list parsedOpcode) :
  1 <= len keyPops ->
  isSmallInt (op popn) = true ->
  isSmallInt (op popm) = true ->
  value (op popc) = OP_CHECKMULTISIG ->
  asSmallInt (op popm) = len keyPops ->
  Forall (fun pop => data_len pop = 33 \/ data_len pop = 65) keyPops ->
  let pops := popn :: keyPops ++ [popm; popc] in
  isMultiSig pops = true
  /\ len pops = len keyPops + 3
  /\ pop_at pops (len pops - 2) = popm.
Proof.
  intros Hlen Hn Hm Hc Has Hkeys pops.
  assert (Hl : len pops = len keyPops + 3).
  { subst pops. rewrite len_cons, len_app. unfold len. simpl. lia. }
  assert (Hat : forall k, pop_at pops (len keyPops + 1 + Z.of_nat k) = nth k [popm; popc] popDefault).
  { intros k. unfold pop_at, pops.
    replace (Z.to_nat (len keyPops + 1 + Z.of_nat k)) with (S (List.length keyPops + k))
      by (unfold len; lia).
    cbn [nth]. rewrite app_nth2_plus. reflexivity. }
  assert (Hpm : pop_at pops (len pops - 2) = popm).
  { replace (len pops - 2) with (len keyPops + 1 + Z.of_nat 0) by lia. apply Hat. }
  assert (Hpc : pop_at pops (len pops - 1) = popc).
  { replace (len pops - 1) with (len keyPops + 1 + Z.of_nat 1) by lia. apply Hat. }
  split; [|split]; [|exact Hl|exact Hpm].
  unfold isMultiSig. fold pops.
  destruct (len pops <? 4) eqn:E; [apply Z.ltb_lt in E; lia|].
  rewrite Hpm, Hpc. subst pops. rewrite pop_at_0, Hn, Hm, Hc. cbn [negb].
  rewrite bool_decide_eq_true_2 by reflexivity. cbn [negb].
  rewrite Has.
  destruct (len (popn :: keyPops ++ [popm; popc]) - 2 - 1 =? len keyPops) eqn:E2;
    [|apply Z.eqb_neq in E2; lia].
  cbn [negb]. unfold slice.
  replace (Z.to_nat (len (popn :: keyPops ++ [popm; popc]) - 2 - 1)) with (List.length keyPops)
    by (unfold len in *; lia).
  change (Z.to_nat 1) with 1%nat. cbn [drop]. rewrite drop_0, take_app_length.
  apply forallb_forall. intros pop Hin.
  rewrite Forall_forall in Hkeys. apply list_elem_of_In in Hin.
  destruct (Hkeys pop Hin) as [-> | ->]; reflexivity.
Qed.


Lemma keyPop_data_len (key : list byte) :
  keyLenOk key -> data_len (keyPop key) = 33 \/ data_len (keyPop key) = 65.
Proof. intros H. exact H. Qed.

Lemma len_pushBytes_key (key : list byte) :
  keyLenOk key -> len (pushBytes key) = len key + 1.
Proof.
  intros H. rewrite pushBytes_direct by (destruct H; lia). rewrite len_cons. lia.
Qed.

Section MultiSig.

Variable maxScriptSize : Z.
Variable MaxScriptElementSize : Z.
Variable MaxDataCarrierSize : Z.
Context {AddressPubKey : Type}.
Variable ScriptAddress : AddressPubKey -> list byte.

Lemma foldl_AddData (pubkeys : list AddressPubKey) :
  Forall (fun key => keyLenOk (ScriptAddress key)) pubkeys ->
  65 <= MaxScriptElementSize ->
  forall b : ScriptBuilder,
    err b = None ->
    len (script b) + 66 * len pubkeys <= maxScriptSize ->
    foldl (fun b key => AddData maxScriptSize MaxScriptElementSize b (ScriptAddress key))
      b pubkeys
    = mkBuilder (script b ++ concat (map pushBytes (map ScriptAddress pubkeys))) None.
Proof.
  intros Hk He. induction Hk as [|key pubkeys Hkey _ IH]; intros b Hb Hs.
  - cbn. rewrite app_nil_r. destruct b as [sc e]. cbn in Hb. subst e. reflexivity.
  - rewrite len_cons in Hs. pose proof (len_nonneg pubkeys) as Hnn.
    pose proof (len_pushBytes_key _ Hkey) as Hp.
    cbn [foldl map concat].
    rewrite AddData_ok; [|exact Hb|destruct Hkey; lia|destruct Hkey; lia].
    rewrite IH; cbn [script err]; [|reflexivity|rewrite len_app; destruct Hkey; lia].
    rewrite <- app_assoc. reflexivity.
Qed.

(** C8 (as amended).  [MultiSigScript] fails with [ErrBadNumRequired] when
    more signatures are required than keys are given.  For 1 to 16 keys of
    33 or 65 bytes and a required number from 0 to the number of keys,
    within the size bounds of the builder, the built script classifies as
    [MultiSigTy] and [CalcMultiSigStats] returns the number of keys and the
    required number. *)
Theorem MultiSigScript_classify_stats
    (tooFew : list AddressPubKey) (tooMany : Z)
    (pubkeys : list AddressPubKey) (nrequired : Z) :
  len tooFew < tooMany ->
  1 <= len pubkeys <= 16 ->
  0 <= nrequired <= len pubkeys ->
  Forall (fun key => keyLenOk (ScriptAddress key)) pubkeys ->
  3 + 66 * len pubkeys <= maxScriptSize ->
  65 <= MaxScriptElementSize ->
  MultiSigScript maxScriptSize MaxScriptElementSize ScriptAddress tooFew tooMany
    = Err ErrBadNumRequired
  /\ exists script,
       MultiSigScript maxScriptSize MaxScriptElementSize ScriptAddress pubkeys nrequired
         = Ok script
       /\ GetScriptClass parseScript MaxDataCarrierSize script = MultiSigTy
       /\ CalcMultiSigStats parseScript script = Ok (len pubkeys, nrequired).
Proof.
  intros Hfew Hm Hn Hkeys Hsize Helem. split.
  { unfold MultiSigScript.
    destruct (len tooFew <? tooMany) eqn:E; [reflexivity|apply Z.ltb_ge in E; lia]. }
  set (keys := map ScriptAddress pubkeys).
  assert (Hkeys' : Forall keyLenOk keys).
  { subst keys. rewrite Forall_map. exact Hkeys. }
  assert (Hlk : len keys = len pubkeys).
  { subst keys. unfold len. rewrite length_map. reflexivity. }
  assert (Hpl : len (concat (map pushBytes keys)) <= 66 * len keys).
  { clear -Hkeys'. induction Hkeys' as [|k ks Hk _ IH].
    - unfold len. simpl. lia.
    - cbn [map concat]. rewrite len_app, len_cons, (len_pushBytes_key _ Hk).
      destruct Hk; lia. }
  exists ([smallIntOp nrequired] ++ concat (map pushBytes keys)
            ++ [smallIntOp (len pubkeys); OP_CHECKMULTISIG]).
  destruct (smallIntOp_facts nrequired ltac:(lia)) as (Hn1 & Hn2 & Hn3).
  destruct (smallIntOp_facts (len pubkeys) ltac:(lia)) as (Hm1 & Hm2 & Hm3).
  assert (Hparse : parseScript ([smallIntOp nrequired] ++ concat (map pushBytes keys)
                                  ++ [smallIntOp (len pubkeys); OP_CHECKMULTISIG])
                   = (mkPop (opcodeArray (smallIntOp nrequired)) None
                        :: map keyPop keys
                        ++ [mkPop (opcodeArray (smallIntOp (len pubkeys))) None;
                            mkPop (opcodeArray OP_CHECKMULTISIG) None], None)).
  { cbn [app]. rewrite parseScript_op by exact Hn1.
    rewrite (parseScript_keys keys _
               [mkPop (opcodeArray (smallIntOp (len pubkeys))) None;
                mkPop (opcodeArray OP_CHECKMULTISIG) None] Hkeys'); [reflexivity|].
    rewrite parseScript_op by exact Hm1.
    rewrite parseScript_op by reflexivity. reflexivity. }
  assert (Hshape := isMultiSig_shape
            (mkPop (opcodeArray (smallIntOp nrequired)) None)
            (mkPop (opcodeArray (smallIntOp (len pubkeys))) None)
            (mkPop (opcodeArray OP_CHECKMULTISIG) None)
            (map keyPop keys)).
  assert (Hlkp : len (map keyPop keys) = len pubkeys).
  { unfold len. rewrite length_map. exact Hlk. }
  cbn [op] in Hshape. rewrite Hlkp in Hshape.
  specialize (Hshape ltac:(lia) Hn2 Hm2 eq_refl Hm3).
  destruct Hshape as (Hmulti & Hlen & Hpm).
  { rewrite Forall_map. eapply Forall_impl; [exact Hkeys'|]. intros k Hk. exact Hk. }
  split; [|split].
  - unfold MultiSigScript.
    destruct (len pubkeys <? nrequired) eqn:E; [apply Z.ltb_lt in E; lia|].
    rewrite (AddInt64_small _ _ NewScriptBuilder nrequired);
      [|reflexivity|unfold len; simpl; lia|lia].
    cbn [script NewScriptBuilder app].
    rewrite foldl_AddData; [|exact Hkeys|exact Helem|reflexivity|cbn [script]; unfold len in *; simpl; lia].
    cbn [script]. fold keys.
    rewrite AddInt64_small;
      [|reflexivity|cbn [script]; rewrite len_app; unfold len in *; simpl; lia|lia].
    cbn [script].
    rewrite AddOp_ok;
      [|reflexivity|cbn [script]; rewrite !len_app; unfold len in *; simpl; lia].
    unfold Script. cbn [err script]. rewrite <- !app_assoc. reflexivity.
  - unfold GetScriptClass. rewrite Hparse. unfold typeOfScript. rewrite Hmulti. reflexivity.
  - unfold CalcMultiSigStats. rewrite Hparse.
    destruct (len _ <? 4) eqn:E; [apply Z.ltb_lt in E; lia|].
    rewrite Hpm, pop_at_0. cbn [op]. rewrite Hn3, Hm3. reflexivity.
Qed.

End MultiSig.


(** ** The scenarios of section 8 *)

Section Scenarios.
Import Vectors.

(** C10 on the scripts of S2, [OP_RETURN] alone and a push that runs past
    the end of the script, and on the 2-of-2 script of S1, whose opcodes
    pass the test for MultiSig first. *)
Lemma GetScriptClass_deterministic_S2 :
  GetScriptClass parseScript MaxDataCarrierSize [x6a]
    = GetScriptClass parseScript MaxDataCarrierSize [x6a]
  /\ GetScriptClass parseScript MaxDataCarrierSize [x01] = NonStandardTy
  /\ GetScriptClass parseScript MaxDataCarrierSize [x6a] = NullDataTy
  /\ typeOfScript MaxDataCarrierSize
       (fst (parseScript (x52 :: pushBytes pk1 ++ pushBytes pk2 ++ [x52; xae])))
     = MultiSigTy.
Proof.
  apply (GetScriptClass_deterministic parseScript MaxDataCarrierSize
           [x6a] [x6a] [x01] [x6a] (fst (parseScript [x6a]))
           (fst (parseScript (x52 :: pushBytes pk1 ++ pushBytes pk2 ++ [x52; xae])))).
  - reflexivity.
  - vm_compute. discriminate.
  - vm_compute. reflexivity.
Defined.

(** C6 on the script of S3, with a witness of one element and with none. *)
Lemma CalcScriptInfo_needs_witness_S3 :
  (exists lastElem si,
      index (E:=ScriptError) [[x51]] 0 = Ok [x51]
      /\ index (E:=ScriptError) [[x51]] (len [[x51]] - 1) = Ok lastElem
      /\ CalcScriptInfo parseScript MaxDataCarrierSize countNone countNone countStatic
           (OP_0 :: OP_DATA_32 :: hash11) [[x51]] = Ok si)
  /\ index (E:=ScriptError) (@nil (list byte)) (len (@nil (list byte)) - 1) = Panic
  /\ CalcScriptInfo parseScript MaxDataCarrierSize countNone countNone countStatic
       (OP_0 :: OP_DATA_32 :: hash11) [] = Panic.
Proof.
  apply (CalcScriptInfo_needs_witness parseScript MaxDataCarrierSize
           countNone countNone countStatic (OP_0 :: OP_DATA_32 :: hash11) [x51] []).
  vm_compute. reflexivity.
Defined.

(** C5 on a 1-of-1 multisig script whose key is 33 zero bytes. *)
Lemma ExtractPkScriptAddrs_invalid_key_panics_badKey :
  ExtractPkScriptAddrs parseScript MaxDataCarrierSize newAddressScriptHash
    newAddressScriptHash newAddressPubKey (fun key => key) (fun key => key)
    badKeyScript tt
  = Panic.
Proof.
  apply (ExtractPkScriptAddrs_invalid_key_panics parseScript MaxDataCarrierSize
           newAddressScriptHash newAddressScriptHash newAddressPubKey
           (fun key => key) (fun key => key)
           badKeyScript tt (fst (parseScript badKeyScript)) 0).
  - vm_compute. reflexivity.
  - vm_compute. reflexivity.
  - vm_compute. split; [discriminate|reflexivity].
  - vm_compute. reflexivity.
Defined.

(** C4 (as amended) on S3: the hash of 32 bytes 0x11. *)
Lemma payToWitnessScriptHash_classify_pushes_S3 :
  payToWitnessScriptHashScript maxScriptSize MaxScriptElementSize hash11
    = Ok (OP_0 :: OP_DATA_32 :: hash11)
  /\ GetScriptClass parseScript MaxDataCarrierSize (OP_0 :: OP_DATA_32 :: hash11)
     = WitnessV0ScriptHashTy
  /\ PushedData parseScript (OP_0 :: OP_DATA_32 :: hash11) = Ok [None; Some hash11].
Proof.
  apply (payToWitnessScriptHash_classify_pushes maxScriptSize MaxScriptElementSize
           MaxDataCarrierSize hash11).
  - reflexivity.
  - vm_compute. discriminate.
  - vm_compute. discriminate.
Defined.

(** C4 as stated fails on S3: the pushed data of the built script is not the
    one-element list of the hash. *)
Lemma PushedData_not_only_hash :
  ~ (exists script,
        payToWitnessScriptHashScript maxScriptSize MaxScriptElementSize hash11 = Ok script
        /\ GetScriptClass parseScript MaxDataCarrierSize script = WitnessV0ScriptHashTy
        /\ PushedData parseScript script = Ok [Some hash11]).
Proof.
  intros (script & Hb & _ & Hp). vm_compute in Hb. injection Hb as <-.
  vm_compute in Hp. discriminate.
Qed.

(** C8 (as amended) on S1: two keys, two signatures required; and one key
    with two required. *)
Lemma MultiSigScript_classify_stats_S1 :
  MultiSigScript maxScriptSize MaxScriptElementSize (fun key : list byte => key) [pk1] 2
    = Err ErrBadNumRequired
  /\ exists script,
       MultiSigScript maxScriptSize MaxScriptElementSize (fun key : list byte => key)
         [pk1; pk2] 2 = Ok script
       /\ GetScriptClass parseScript MaxDataCarrierSize script = MultiSigTy
       /\ CalcMultiSigStats parseScript script = Ok (len [pk1; pk2], 2).
Proof.
  apply (MultiSigScript_classify_stats maxScriptSize MaxScriptElementSize
           MaxDataCarrierSize (fun key : list byte => key) [pk1] 2 [pk1; pk2] 2).
  - vm_compute. reflexivity.
  - vm_compute. split; discriminate.
  - vm_compute. split; discriminate.
  - repeat constructor.
  - vm_compute. discriminate.
  - vm_compute. discriminate.
Defined.

(** C8 as stated fails for no keys and no required signature: the builder
    does not fail, and the built script [OP_0 OP_0 OP_CHECKMULTISIG] is not of
    class MultiSig. *)
Lemma MultiSigScript_no_keys_not_multisig :
  ~ (len (@nil (list byte)) < 0)
  /\ ~ (exists script,
          MultiSigScript maxScriptSize MaxScriptElementSize (fun key : list byte => key) [] 0
            = Ok script
          /\ GetScriptClass parseScript MaxDataCarrierSize script = MultiSigTy
          /\ CalcMultiSigStats parseScript script = Ok (len (@nil (list byte)), 0)).
Proof.
  split; [vm_compute; discriminate|].
  intros (script & Hb & Hc & _). vm_compute in Hb. injection Hb as <-.
  vm_compute in Hc. discriminate.
Qed.


End Scenarios.


(** *** Script hashes read back from a built script *)

Lemma Z_of_byte_of_Z_mod (z : Z) : Z_of_byte (byte_of_Z z) = z mod 256.
Proof.
  assert (E : byte_of_Z z = byte_of_Z (z mod 256)).
  { unfold byte_of_Z. rewrite Z.mod_mod by lia. reflexivity. }
  rewrite E. apply Z_of_byte_of_Z. apply Z.mod_pos_bound. lia.
Qed.

Lemma le_uint_le_bytes (n : nat) :
  forall z : Z, le_uint (le_bytes n z) = z mod 256 ^ Z.of_nat n.
Proof.
  induction n as [|n IH]; intros z.
  - cbn. rewrite Z.mod_1_r. reflexivity.
  - cbn [le_bytes le_uint foldr]. fold (le_uint (le_bytes n (z / 256))).
    rewrite IH, Z_of_byte_of_Z_mod, Nat2Z.inj_succ, Z.pow_succ_r by lia.
    symmetry. apply Z.rem_mul_r; [lia|]. apply Z.pow_pos_nonneg; lia.
Qed.

Lemma length_le_bytes (n : nat) : forall z : Z, List.length (le_bytes n z) = n.
Proof. induction n as [|n IH]; intros z; [reflexivity|]. cbn. rewrite IH. reflexivity. Qed.

Lemma Uint64_PutUint64 {E} (v : Z) : Uint64 (E:=E) (PutUint64 v) = Ok (uint64 v).
Proof.
  unfold Uint64, PutUint64, len. rewrite length_le_bytes.
  rewrite firstn_all2 by (rewrite length_le_bytes; lia).
  rewrite le_uint_le_bytes. reflexivity.
Qed.

Lemma copy20_exact (scripthash : list byte) :
  len scripthash = 20 -> copy20 scripthash = scripthash.
Proof.
  intros Hl. unfold copy20. rewrite firstn_all2 by (unfold len in Hl; lia).
  replace (20 - List.length scripthash)%nat with 0%nat by (unfold len in Hl; lia).
  apply app_nil_r.
Qed.

Lemma copy20_long (scripthash : list byte) :
  20 <= len scripthash -> copy20 scripthash = take 20 scripthash.
Proof.
  intros Hl. unfold copy20. rewrite length_take.
  replace (20 - 20 `min` List.length scripthash)%nat with 0%nat by (unfold len in Hl; lia).
  apply app_nil_r.
Qed.

Section PayToAddress.

Variable maxScriptSize : Z.
Variable MaxScriptElementSize : Z.
Variable MaxDataCarrierSize : Z.
Context {Params Address AddressPubKey PublicKey AddressWitnessScriptHash : Type}.
Variable NewAddressWitnessScriptHash : list byte -> Params -> option Address.
Variable NewAddressLocktimeScriptHash : list byte -> Params -> option Address.
Variable NewAddressPubKey : list byte -> Params -> option AddressPubKey.
Variable PubKey : AddressPubKey -> PublicKey.
Variable asAddress : AddressPubKey -> Address.
Variable WitnessVersion : AddressWitnessScriptHash -> Z.
Variable ScriptAddress : AddressWitnessScriptHash -> list byte.

(** The script [payToLocktimeScriptHashScript] builds from a 20-byte hash
    and eight bytes of lock time, and its parsed opcodes. *)
Lemma payToLocktimeScriptHashScript_built (scriptHash locktime : list byte) :
  len scriptHash = 20 ->
  len locktime = 8 ->
  34 <= maxScriptSize ->
  20 <= MaxScriptElementSize ->
  payToLocktimeScriptHashScript maxScriptSize MaxScriptElementSize scriptHash locktime
  = Ok (OP_DATA_8 :: locktime
        ++ OP_CHECKSEQUENCEVERIFY :: OP_DROP :: OP_HASH160 :: OP_DATA_20 :: scriptHash
        ++ [OP_EQUAL])
  /\ parseScript (OP_DATA_8 :: locktime
        ++ OP_CHECKSEQUENCEVERIFY :: OP_DROP :: OP_HASH160 :: OP_DATA_20 :: scriptHash
        ++ [OP_EQUAL])
     = ([mkPop (mkOpcode OP_DATA_8 9) (Some locktime);
         mkPop (mkOpcode OP_CHECKSEQUENCEVERIFY 1) None;
         mkPop (mkOpcode OP_DROP 1) None;
         mkPop (mkOpcode OP_HASH160 1) None;
         mkPop (mkOpcode OP_DATA_20 21) (Some scriptHash);
         mkPop (mkOpcode OP_EQUAL 1) None], None).
Proof.
  intros Hh Hl Hs He.
  assert (Hpl : pushBytes locktime = OP_DATA_8 :: locktime).
  { rewrite pushBytes_direct by lia. rewrite Hl. reflexivity. }
  assert (Hph : pushBytes scriptHash = OP_DATA_20 :: scriptHash).
  { rewrite pushBytes_direct by lia. rewrite Hh. reflexivity. }
  split.
  - unfold payToLocktimeScriptHashScript, NewScriptBuilder.
    assert (H0 : len (@nil byte) = 0) by reflexivity.
    rewrite (AddData_ok _ _ (mkBuilder [] None) locktime); cbn [script err app];
      [|reflexivity|rewrite Hpl, len_cons, Hl, H0; lia|lia].
    rewrite (AddOp_ok _ _ OP_CHECKSEQUENCEVERIFY); cbn [script err];
      [|reflexivity|rewrite Hpl, len_cons, Hl; lia].
    rewrite (AddOp_ok _ _ OP_DROP); cbn [script err];
      [|reflexivity|rewrite Hpl, len_app, !len_cons, Hl, H0; lia].
    rewrite (AddOp_ok _ _ OP_HASH160); cbn [script err];
      [|reflexivity|rewrite Hpl, !len_app, !len_cons, Hl, H0; lia].
    rewrite (AddData_ok _ _ _ scriptHash); cbn [script err];
      [|reflexivity|rewrite Hpl, Hph, !len_app, !len_cons, Hl, Hh, H0; lia|lia].
    rewrite (AddOp_ok _ _ OP_EQUAL); cbn [script err];
      [|reflexivity|rewrite Hpl, Hph, !len_app, !len_cons, Hl, Hh, H0; lia].
    unfold Script. cbn [err script]. rewrite Hpl, Hph.
    rewrite <- !app_assoc. reflexivity.
  - change (OP_DATA_8 :: locktime ++ ?rest) with ((OP_DATA_8 :: locktime) ++ rest).
    rewrite <- Hpl, parseScript_push by lia.
    rewrite !parseScript_op by reflexivity.
    change (OP_DATA_20 :: scriptHash ++ ?rest) with ((OP_DATA_20 :: scriptHash) ++ rest).
    rewrite <- Hph, parseScript_push by lia.
    rewrite parseScript_op by reflexivity.
    rewrite parseScript_nil, Hl, Hh. reflexivity.
Qed.

(** The same for [payToWitnessScriptHashScript] and a 32-byte hash. *)
Lemma payToWitnessScriptHashScript_built (scriptHash : list byte) :
  len scriptHash = 32 ->
  34 <= maxScriptSize ->
  32 <= MaxScriptElementSize ->
  payToWitnessScriptHashScript maxScriptSize MaxScriptElementSize scriptHash
  = Ok (OP_0 :: OP_DATA_32 :: scriptHash)
  /\ parseScript (OP_0 :: OP_DATA_32 :: scriptHash)
     = ([mkPop (mkOpcode OP_0 1) None;
         mkPop (mkOpcode OP_DATA_32 33) (Some scriptHash)], None).
Proof.
  intros Hl Hs He.
  assert (Hpush : pushBytes scriptHash = OP_DATA_32 :: scriptHash).
  { rewrite pushBytes_direct by lia. rewrite Hl. reflexivity. }
  split.
  - unfold payToWitnessScriptHashScript.
    rewrite AddOp_ok; [|reflexivity|unfold len; simpl; lia].
    rewrite AddData_ok; cbn [script err]; try reflexivity.
    + rewrite Hpush. reflexivity.
    + rewrite Hpush, len_app, !len_cons, Hl. unfold len. simpl. lia.
    + lia.
  - rewrite parseScript_op by reflexivity.
    rewrite <- Hpush, <- (app_nil_r (pushBytes scriptHash)).
    rewrite parseScript_push by lia. rewrite Hl. reflexivity.
Qed.

(** X12.  The lock time and the hash of a lock-time script come back out of
    it.  For a witness-script-hash address of version 10 with a 20-byte
    hash and every [int64] lock time (within the builder's bounds: 34 bytes
    of script, 20 of element), [PayToLockAddrScript] builds [0x08 <lock
    time, 8 bytes little-endian> OP_CHECKSEQUENCEVERIFY OP_DROP OP_HASH160
    0x14 <hash> OP_EQUAL]; [GetScriptInfo] classifies it
    [LocktimeScriptHashTy]; [GetParsedOpcode] on its opcodes returns the
    lock time as a [uint64] and the hash; and [ExtractPkScriptAddrs]
    returns that class, one required signature and the address made of the
    hash.  [PayToAddrScript] refuses the same address. *)
Theorem PayToLockAddrScript_round_trip
    (addr : AddressWitnessScriptHash) (locktime : Z) (chainParams : Params) :
  WitnessVersion addr = 10 ->
  len (ScriptAddress addr) = 20 ->
  34 <= maxScriptSize ->
  20 <= MaxScriptElementSize ->
  exists pkScript pops,
    pkScript = OP_DATA_8 :: le_bytes 8 (uint64 locktime)
               ++ OP_CHECKSEQUENCEVERIFY :: OP_DROP :: OP_HASH160 :: OP_DATA_20
                  :: ScriptAddress addr ++ [OP_EQUAL]
    /\ PayToLockAddrScript maxScriptSize MaxScriptElementSize WitnessVersion ScriptAddress
         (WitnessScriptHashAddress (Some addr)) locktime = Ok pkScript
    /\ GetScriptInfo parseScript MaxDataCarrierSize pkScript = (LocktimeScriptHashTy, pops)
    /\ GetParsedOpcode pops LocktimeScriptHashTy
       = Ok (locktime mod 18446744073709551616, ScriptAddress addr)
    /\ ExtractPkScriptAddrs parseScript MaxDataCarrierSize NewAddressWitnessScriptHash
         NewAddressLocktimeScriptHash NewAddressPubKey PubKey asAddress pkScript chainParams
       = Ok (LocktimeScriptHashTy,
             match NewAddressLocktimeScriptHash (ScriptAddress addr) chainParams with
             | Some a => [a]
             | None => []
             end, [], 1)
    /\ PayToAddrScript maxScriptSize MaxScriptElementSize WitnessVersion ScriptAddress
         (WitnessScriptHashAddress (Some addr)) = Err ErrUnsupportedAddress.
Proof.
  intros Hv Hh Hs He.
  assert (Hl : len (PutUint64 (uint64 locktime)) = 8).
  { unfold len, PutUint64. rewrite length_le_bytes. reflexivity. }
  pose proof (Uint64_PutUint64 (E:=HashTypeError) (uint64 locktime)) as Hu.
  unfold PayToLockAddrScript, PayToAddrScript. rewrite Hv. cbn [Z.eqb].
  change (le_bytes 8 (uint64 locktime)) with (PutUint64 (uint64 locktime)).
  remember (PutUint64 (uint64 locktime)) as lt eqn:Elt. clear Elt.
  destruct (payToLocktimeScriptHashScript_built (ScriptAddress addr) lt Hh Hl Hs He)
    as [Hbuild Hparse].
  eexists. eexists. split; [reflexivity|].
  split; [exact Hbuild|].
  split; [unfold GetScriptInfo; rewrite Hparse; reflexivity|].
  split; [|split; [|reflexivity]].
  - cbn [GetParsedOpcode]. rewrite index_first. cbn [mbind result_bind].
    change (index _ 4) with (Ok (E:=HashTypeError)
                               (mkPop (mkOpcode OP_DATA_20 21) (Some (ScriptAddress addr)))).
    cbn [mbind result_bind]. unfold data_bytes. cbn [data default from_option id].
    rewrite Hu. cbn [mbind result_bind].
    rewrite copy20_exact by exact Hh. unfold uint64.
    rewrite Z.mod_mod by lia. reflexivity.
  - unfold ExtractPkScriptAddrs. rewrite Hparse.
    change (typeOfScript MaxDataCarrierSize _) with LocktimeScriptHashTy.
    cbv iota.
    change (index _ 4) with (Ok (E:=ScriptError)
                               (mkPop (mkOpcode OP_DATA_20 21) (Some (ScriptAddress addr)))).
    cbn [mbind result_bind]. unfold data_bytes. cbn [data default from_option id].
    destruct (NewAddressLocktimeScriptHash _ _); reflexivity.
Qed.

(** X13.  A version-0 address pays to the witness-script-hash script, and
    [GetParsedOpcode] keeps only 20 bytes of its hash.  For a
    witness-script-hash address of version 0 with a 32-byte hash (within
    the builder's bounds), [PayToAddrScript] and [PayToLockAddrScript], for
    every lock time, build [OP_0 0x20 <hash>]; [GetScriptInfo] classifies it
    [WitnessV0ScriptHashTy]; [ExtractPkScriptAddrs] returns that class, one
    required signature and the address made of the 32-byte hash; and
    [GetParsedOpcode] returns height 0 and the first 20 bytes of the hash,
    its last 12 bytes being dropped by the copy into the 20-byte array. *)
Theorem PayToAddrScript_round_trip
    (addr : AddressWitnessScriptHash) (locktime : Z) (chainParams : Params) :
  WitnessVersion addr = 0 ->
  len (ScriptAddress addr) = 32 ->
  34 <= maxScriptSize ->
  32 <= MaxScriptElementSize ->
  exists pops,
    PayToAddrScript maxScriptSize MaxScriptElementSize WitnessVersion ScriptAddress
      (WitnessScriptHashAddress (Some addr)) = Ok (OP_0 :: OP_DATA_32 :: ScriptAddress addr)
    /\ PayToLockAddrScript maxScriptSize MaxScriptElementSize WitnessVersion ScriptAddress
         (WitnessScriptHashAddress (Some addr)) locktime
       = Ok (OP_0 :: OP_DATA_32 :: ScriptAddress addr)
    /\ GetScriptInfo parseScript MaxDataCarrierSize (OP_0 :: OP_DATA_32 :: ScriptAddress addr)
       = (WitnessV0ScriptHashTy, pops)
    /\ GetParsedOpcode pops WitnessV0ScriptHashTy = Ok (0, take 20 (ScriptAddress addr))
    /\ ExtractPkScriptAddrs parseScript MaxDataCarrierSize NewAddressWitnessScriptHash
         NewAddressLocktimeScriptHash NewAddressPubKey PubKey asAddress
         (OP_0 :: OP_DATA_32 :: ScriptAddress addr) chainParams
       = Ok (WitnessV0ScriptHashTy,
             match NewAddressWitnessScriptHash (ScriptAddress addr) chainParams with
             | Some a => [a]
             | None => []
             end, [], 1).
Proof.
  intros Hv Hh Hs He.
  destruct (payToWitnessScriptHashScript_built (ScriptAddress addr) Hh Hs He)
    as [Hbuild Hparse].
  eexists.
  split; [unfold PayToAddrScript; rewrite Hv; exact Hbuild|].
  split; [unfold PayToLockAddrScript; rewrite Hv; exact Hbuild|].
  split; [unfold GetScriptInfo; rewrite Hparse; reflexivity|].
  split.
  - cbn [GetParsedOpcode].
    change (index _ 1) with (Ok (E:=HashTypeError)
                               (mkPop (mkOpcode OP_DATA_32 33) (Some (ScriptAddress addr)))).
    cbn [mbind result_bind]. unfold data_bytes. cbn [data default from_option id].
    rewrite copy20_long by lia. reflexivity.
  - unfold ExtractPkScriptAddrs. rewrite Hparse.
    change (typeOfScript MaxDataCarrierSize _) with WitnessV0ScriptHashTy.
    cbv iota.
    change (index _ 1) with (Ok (E:=ScriptError)
                               (mkPop (mkOpcode OP_DATA_32 33) (Some (ScriptAddress addr)))).
    cbn [mbind result_bind]. unfold data_bytes. cbn [data default from_option id].
    destruct (NewAddressWitnessScriptHash _ _); reflexivity.
Qed.

End PayToAddress.

(** *** What the class of a script says about its numbers *)

Lemma asSmallInt_range (o : opcode) : isSmallInt o = true -> 0 <= asSmallInt o <= 16.
Proof.
  unfold isSmallInt, asSmallInt. destruct (bool_decide (value o = OP_0)); [lia|].
  cbn [orb]. intros Hr. apply andb_true_iff in Hr. destruct Hr as [H1 H2].
  apply Z.leb_le in H1, H2.
  change (Z_of_byte OP_1) with 81 in *. change (Z_of_byte OP_16) with 96 in *.
  rewrite Z.mod_small by lia. lia.
Qed.

Lemma isMultiSig_numSigs (pops : list parsedOpcode) :
  isMultiSig pops = true ->
  isSmallInt (op (pop_at pops 0)) = true
  /\ isSmallInt (op (pop_at pops (len pops - 2))) = true.
Proof.
  unfold isMultiSig. destruct (len pops <? 4); [discriminate|].
  destruct (isSmallInt (op (pop_at pops 0))); [|discriminate].
  destruct (isSmallInt (op (pop_at pops (len pops - 2)))); [|discriminate].
  auto.
Qed.

Section ClassNumbers.

Variable parseScript : list byte -> list parsedOpcode * option ScriptError.
Variable MaxDataCarrierSize : Z.
Variable GetWitnessSigOpCount : list byte -> list (list byte) -> Z.
Variable GetLocktimeScriptSigOpCount : list byte -> list (list byte) -> Z.
Variable getSigOpCount : list parsedOpcode -> bool -> Z.

Lemma expectedInputs_range (pops : list parsedOpcode) (n : Z) :
  expectedInputs pops (typeOfScript MaxDataCarrierSize pops) = Ok n ->
  n = -1 \/ 0 <= n <= 16.
Proof.
  destruct (typeOfScript MaxDataCarrierSize pops) eqn:E; cbn [expectedInputs];
    try (intros [= <-]; lia).
  apply typeOfScript_MultiSigTy, isMultiSig_numSigs in E. destruct E as [E _].
  destruct pops as [|pop0 rest]; [discriminate|].
  rewrite pop_at_0 in E. intros [= <-]. right. apply asSmallInt_range, E.
Qed.

(** X14.  A script that classifies as multi-signature has statistics, for
    every parser: if [GetScriptClass] returns [MultiSigTy], the script
    parses, [CalcMultiSigStats] succeeds, the number of public keys it
    returns is the number of opcodes less three and lies between 1 and 16,
    the number of required signatures lies between 0 and 16 (it is not
    compared with the number of keys), and [expectedInputs] of the class
    is that number of signatures. *)
Theorem MultiSigTy_has_stats (pkScript : list byte) :
  GetScriptClass parseScript MaxDataCarrierSize pkScript = MultiSigTy ->
  exists pops numPubKeys numSigs,
    parseScript pkScript = (pops, None)
    /\ CalcMultiSigStats parseScript pkScript = Ok (numPubKeys, numSigs)
    /\ numPubKeys = len pops - 3
    /\ 1 <= numPubKeys <= 16
    /\ 0 <= numSigs <= 16
    /\ expectedInputs pops MultiSigTy = Ok numSigs.
Proof.
  unfold GetScriptClass, CalcMultiSigStats.
  destruct (parseScript pkScript) as [pops [e|]]; [discriminate|].
  intros Hc. apply typeOfScript_MultiSigTy in Hc.
  destruct (isMultiSig_numPubKeys pops Hc) as [Hlen Hnum].
  destruct (isMultiSig_numSigs pops Hc) as [Hs Hk].
  apply asSmallInt_range in Hs, Hk.
  exists pops, (len pops - 3), (asSmallInt (op (pop_at pops 0))).
  split; [reflexivity|].
  destruct (len pops <? 4) eqn:E; [apply Z.ltb_lt in E; lia|].
  rewrite Hnum. split; [reflexivity|]. split; [reflexivity|].
  split; [lia|]. split; [exact Hs|].
  destruct pops as [|pop0 rest]; [unfold len in Hlen; simpl in Hlen; lia|].
  rewrite pop_at_0. reflexivity.
Qed.

(** X15.  Whenever [CalcScriptInfo] returns a [ScriptInfo], for every
    parser and every signature-operation counter: its class is the class
    [GetScriptClass] gives the public-key script; its expected inputs are
    -1 or lie between 0 and 17, and are never 0 for the two script-hash
    classes; and its number of inputs is not negative, and at least 1 for
    the two script-hash classes. *)
Theorem CalcScriptInfo_class_and_counts
    (pkScript : list byte) (witness : list (list byte)) (si : ScriptInfo) :
  CalcScriptInfo parseScript MaxDataCarrierSize GetWitnessSigOpCount
    GetLocktimeScriptSigOpCount getSigOpCount pkScript witness = Ok si ->
  PkScriptClass si = GetScriptClass parseScript MaxDataCarrierSize pkScript
  /\ (ExpectedInputs si = -1 \/ 0 <= ExpectedInputs si <= 17)
  /\ 0 <= NumInputs si
  /\ (PkScriptClass si = WitnessV0ScriptHashTy \/ PkScriptClass si = LocktimeScriptHashTy ->
      ExpectedInputs si <> 0 /\ 1 <= NumInputs si).
Proof.
  unfold CalcScriptInfo, GetScriptClass.
  destruct (parseScript pkScript) as [pkPops [e|]]; [discriminate|].
  destruct (expectedInputs pkPops (typeOfScript MaxDataCarrierSize pkPops))
    as [expected| |] eqn:Hexp; cbn [mbind result_bind]; try discriminate.
  destruct (index witness (len witness - 1)) as [witnessScript| |];
    cbn [mbind result_bind]; try discriminate.
  destruct (index witness 0) as [witnesssig| |]; cbn [mbind result_bind]; try discriminate.
  pose proof (expectedInputs_range _ _ Hexp) as Hr.
  pose proof (len_nonneg (fst (parseScript witnesssig))) as Hn1.
  pose proof (len_nonneg (fst (parseScript witnessScript))) as Hn2.
  destruct (typeOfScript MaxDataCarrierSize pkPops) eqn:Hclass;
    try (intros [= <-]; cbn [PkScriptClass ExpectedInputs NumInputs];
         split; [reflexivity|]; split; [lia|]; split; [lia|];
         intros [?|?]; discriminate).
  all: cbn [expectedInputs] in Hexp; injection Hexp as <-.
  all: destruct (expectedInputs (fst (parseScript witnessScript))
                   (typeOfScript MaxDataCarrierSize (fst (parseScript witnessScript))))
         as [shInputs| |] eqn:Hsh; cbn [mbind result_bind]; try discriminate.
  all: pose proof (expectedInputs_range _ _ Hsh) as Hr2.
  all: intros [= <-]; cbn [PkScriptClass ExpectedInputs NumInputs]; unfold addShInputs.
  all: destruct (shInputs =? -1) eqn:E1; [apply Z.eqb_eq in E1|apply Z.eqb_neq in E1].
  all: split; [reflexivity|]; split; [lia|]; split; [lia|]; intros _; lia.
Qed.

End ClassNumbers.

(** *** What [ExtractPkScriptAddrs] can return *)

Section ExtractResults.

Variable parseScript : list byte -> list parsedOpcode * option ScriptError.
Variable MaxDataCarrierSize : Z.
Context {Params Address AddressPubKey PublicKey : Type}.
Variable NewAddressWitnessScriptHash : list byte -> Params -> option Address.
Variable NewAddressLocktimeScriptHash : list byte -> Params -> option Address.
Variable NewAddressPubKey : list byte -> Params -> option AddressPubKey.
Variable PubKey : AddressPubKey -> PublicKey.
Variable asAddress : AddressPubKey -> Address.

Lemma extractPubKeys_Ok (pops : list parsedOpcode) (chainParams : Params) (n : nat) :
  forall (i : Z) addrs pks addrs' pks',
    extractPubKeys NewAddressPubKey PubKey asAddress pops chainParams n i addrs pks
    = Ok (addrs', pks') ->
    len addrs' = len addrs + Z.of_nat n /\ len pks' = len pks + Z.of_nat n.
Proof.
  induction n as [|n IH]; intros i addrs pks addrs' pks' Hrun.
  - cbn in Hrun. injection Hrun as <- <-. lia.
  - cbn [extractPubKeys] in Hrun.
    destruct (index pops (i + 1)) as [pop| |]; cbn in Hrun; try discriminate.
    destruct (NewAddressPubKey (data_bytes pop) chainParams) as [a|]; cbn in Hrun;
      [|discriminate].
    apply IH in Hrun. rewrite !len_app in Hrun. unfold len in *. cbn [List.length] in Hrun.
    lia.
Qed.

(** X16.  Whatever [ExtractPkScriptAddrs] returns, for every parser and
    all address constructors: the class is the class [GetScriptClass] gives
    the script; the required signatures lie between 0 and 16; for the two
    script-hash classes there is one required signature, no public key and
    at most one address; for a data-carrier or non-standard script there are
    no addresses, no keys and no required signatures; and for a
    multi-signature script the required signatures and the number of keys
    are those of [CalcMultiSigStats], with one address and one public key
    for every key of the script, none being left out. *)
Theorem ExtractPkScriptAddrs_results
    (pkScript : list byte) (chainParams : Params) (class : ScriptClass)
    (addrs : list Address) (pks : list PublicKey) (requiredSigs : Z) :
  ExtractPkScriptAddrs parseScript MaxDataCarrierSize NewAddressWitnessScriptHash
    NewAddressLocktimeScriptHash NewAddressPubKey PubKey asAddress pkScript chainParams
  = Ok (class, addrs, pks, requiredSigs) ->
  class = GetScriptClass parseScript MaxDataCarrierSize pkScript
  /\ 0 <= requiredSigs <= 16
  /\ match class with
     | WitnessV0ScriptHashTy | LocktimeScriptHashTy =>
         requiredSigs = 1 /\ pks = [] /\ len addrs <= 1
     | NullDataTy | NonStandardTy =>
         requiredSigs = 0 /\ pks = [] /\ addrs = []
     | MultiSigTy =>
         exists numPubKeys,
           CalcMultiSigStats parseScript pkScript = Ok (numPubKeys, requiredSigs)
           /\ len addrs = numPubKeys
           /\ len pks = numPubKeys
     end.
Proof.
  unfold ExtractPkScriptAddrs, GetScriptClass, CalcMultiSigStats.
  destruct (parseScript pkScript) as [pops [e|]]; [discriminate|].
  destruct (typeOfScript MaxDataCarrierSize pops) eqn:Hclass.
  - intros [= <- <- <- <-]. repeat split; lia.
  - apply typeOfScript_MultiSigTy in Hclass.
    destruct (isMultiSig_numPubKeys pops Hclass) as [Hlen Hnum].
    destruct (isMultiSig_numSigs pops Hclass) as [Hs _]. apply asSmallInt_range in Hs.
    rewrite !index_in_bounds by lia. cbn [mbind result_bind]. rewrite Hnum.
    destruct (extractPubKeys _ _ _ _ _ _ _ _ _) as [[addrs' pks']| |] eqn:Hrun;
      cbn [mbind result_bind]; try discriminate.
    intros [= <- <- <- <-]. apply extractPubKeys_Ok in Hrun.
    split; [reflexivity|]. split; [exact Hs|].
    exists (len pops - 3).
    destruct (len pops <? 4) eqn:E; [apply Z.ltb_lt in E; lia|].
    change (len []) with 0 in Hrun. split; [reflexivity|lia].
  - intros [= <- <- <- <-]. repeat split; lia.
  - destruct (index pops 1) as [pop| |]; cbn [mbind result_bind]; try discriminate.
    destruct (NewAddressWitnessScriptHash _ _); intros [= <- <- <- <-];
      repeat split; try lia; unfold len; cbn; lia.
  - destruct (index pops 4) as [pop| |]; cbn [mbind result_bind]; try discriminate.
    destruct (NewAddressLocktimeScriptHash _ _); intros [= <- <- <- <-];
      repeat split; try lia; unfold len; cbn; lia.
Qed.

End ExtractResults.

(** *** The round trips on concrete addresses *)

Section AddressScenarios.
Import Vectors.

(** X12 on a version-10 address of 20 bytes 0x22 and the lock time 500. *)
Lemma PayToLockAddrScript_round_trip_500 :
  exists pkScript pops,
    pkScript = OP_DATA_8 :: le_bytes 8 (uint64 500)
               ++ OP_CHECKSEQUENCEVERIFY :: OP_DROP :: OP_HASH160 :: OP_DATA_20
                  :: scriptAddress locktimeAddr ++ [OP_EQUAL]
    /\ PayToLockAddrScript maxScriptSize MaxScriptElementSize witnessVersion scriptAddress
         (WitnessScriptHashAddress (Some locktimeAddr)) 500 = Ok pkScript
    /\ GetScriptInfo parseScript MaxDataCarrierSize pkScript = (LocktimeScriptHashTy, pops)
    /\ GetParsedOpcode pops LocktimeScriptHashTy
       = Ok (500 mod 18446744073709551616, scriptAddress locktimeAddr)
    /\ ExtractPkScriptAddrs parseScript MaxDataCarrierSize newAddressScriptHash
         newAddressScriptHash newAddressPubKey (fun key => key) (fun key => key)
         pkScript tt
       = Ok (LocktimeScriptHashTy,
             match newAddressScriptHash (scriptAddress locktimeAddr) tt with
             | Some a => [a]
             | None => []
             end, [], 1)
    /\ PayToAddrScript maxScriptSize MaxScriptElementSize witnessVersion scriptAddress
         (WitnessScriptHashAddress (Some locktimeAddr)) = Err ErrUnsupportedAddress.
Proof.
  apply (PayToLockAddrScript_round_trip maxScriptSize MaxScriptElementSize MaxDataCarrierSize
           newAddressScriptHash newAddressScriptHash newAddressPubKey
           (fun key => key) (fun key => key) witnessVersion scriptAddress
           locktimeAddr 500 tt).
  - reflexivity.
  - reflexivity.
  - vm_compute. discriminate.
  - vm_compute. discriminate.
Defined.

(** X13 on the version-0 address of the hash of S3. *)
Lemma PayToAddrScript_round_trip_S3 :
  exists pops,
    PayToAddrScript maxScriptSize MaxScriptElementSize witnessVersion scriptAddress
      (WitnessScriptHashAddress (Some witnessAddr))
    = Ok (OP_0 :: OP_DATA_32 :: scriptAddress witnessAddr)
    /\ PayToLockAddrScript maxScriptSize MaxScriptElementSize witnessVersion scriptAddress
         (WitnessScriptHashAddress (Some witnessAddr)) 500
       = Ok (OP_0 :: OP_DATA_32 :: scriptAddress witnessAddr)
    /\ GetScriptInfo parseScript MaxDataCarrierSize
         (OP_0 :: OP_DATA_32 :: scriptAddress witnessAddr)
       = (WitnessV0ScriptHashTy, pops)
    /\ GetParsedOpcode pops WitnessV0ScriptHashTy
       = Ok (0, take 20 (scriptAddress witnessAddr))
    /\ ExtractPkScriptAddrs parseScript MaxDataCarrierSize newAddressScriptHash
         newAddressScriptHash newAddressPubKey (fun key => key) (fun key => key)
         (OP_0 :: OP_DATA_32 :: scriptAddress witnessAddr) tt
       = Ok (WitnessV0ScriptHashTy,
             match newAddressScriptHash (scriptAddress witnessAddr) tt with
             | Some a => [a]
             | None => []
             end, [], 1).
Proof.
  apply (PayToAddrScript_round_trip maxScriptSize MaxScriptElementSize MaxDataCarrierSize
           newAddressScriptHash newAddressScriptHash newAddressPubKey
           (fun key => key) (fun key => key) witnessVersion scriptAddress
           witnessAddr 500 tt).
  - reflexivity.
  - reflexivity.
  - vm_compute. discriminate.
  - vm_compute. discriminate.
Defined.

(** X14 on the 2-of-2 script of S1. *)
Lemma MultiSigTy_has_stats_S1 :
  exists pops numPubKeys numSigs,
    parseScript (x52 :: pushBytes pk1 ++ pushBytes pk2 ++ [x52; xae]) = (pops, None)
    /\ CalcMultiSigStats parseScript (x52 :: pushBytes pk1 ++ pushBytes pk2 ++ [x52; xae])
       = Ok (numPubKeys, numSigs)
    /\ numPubKeys = len pops - 3
    /\ 1 <= numPubKeys <= 16
    /\ 0 <= numSigs <= 16
    /\ expectedInputs pops MultiSigTy = Ok numSigs.
Proof.
  apply (MultiSigTy_has_stats parseScript MaxDataCarrierSize
           (x52 :: pushBytes pk1 ++ pushBytes pk2 ++ [x52; xae])).
  vm_compute. reflexivity.
Defined.

(** X15 on the script of S3 with a witness of one element. *)
Lemma CalcScriptInfo_class_and_counts_S3 :
  PkScriptClass (mkScriptInfo WitnessV0ScriptHashTy 2 (-1) 0)
  = GetScriptClass parseScript MaxDataCarrierSize (OP_0 :: OP_DATA_32 :: hash11)
  /\ (ExpectedInputs (mkScriptInfo WitnessV0ScriptHashTy 2 (-1) 0) = -1
      \/ 0 <= ExpectedInputs (mkScriptInfo WitnessV0ScriptHashTy 2 (-1) 0) <= 17)
  /\ 0 <= NumInputs (mkScriptInfo WitnessV0ScriptHashTy 2 (-1) 0)
  /\ (PkScriptClass (mkScriptInfo WitnessV0ScriptHashTy 2 (-1) 0) = WitnessV0ScriptHashTy
      \/ PkScriptClass (mkScriptInfo WitnessV0ScriptHashTy 2 (-1) 0) = LocktimeScriptHashTy ->
      ExpectedInputs (mkScriptInfo WitnessV0ScriptHashTy 2 (-1) 0) <> 0
      /\ 1 <= NumInputs (mkScriptInfo WitnessV0ScriptHashTy 2 (-1) 0)).
Proof.
  apply (CalcScriptInfo_class_and_counts parseScript MaxDataCarrierSize
           countNone countNone countStatic (OP_0 :: OP_DATA_32 :: hash11) [[x51]]).
  vm_compute. reflexivity.
Defined.

(** X16 on the 2-of-2 script of S1. *)
Lemma ExtractPkScriptAddrs_results_S1 :
  MultiSigTy = GetScriptClass parseScript MaxDataCarrierSize
                 (x52 :: pushBytes pk1 ++ pushBytes pk2 ++ [x52; xae])
  /\ 0 <= 2 <= 16
  /\ exists numPubKeys,
       CalcMultiSigStats parseScript (x52 :: pushBytes pk1 ++ pushBytes pk2 ++ [x52; xae])
       = Ok (numPubKeys, 2)
       /\ len [pk1; pk2] = numPubKeys
       /\ len [pk1; pk2] = numPubKeys.
Proof.
  apply (ExtractPkScriptAddrs_results parseScript MaxDataCarrierSize newAddressScriptHash
           newAddressScriptHash newAddressPubKey (fun key => key) (fun key => key)
           (x52 :: pushBytes pk1 ++ pushBytes pk2 ++ [x52; xae]) tt
           MultiSigTy [pk1; pk2] [pk1; pk2] 2).
  vm_compute. reflexivity.
Defined.

End AddressScenarios.

End TxscriptFacts.

(** * Properties of the ledger store *)

Module MemdbFacts.
Import Memdb.

Lemma int32_small (z : Z) : -2147483648 <= z < 2147483648 -> int32 z = z.
Proof. intros H. unfold int32. rewrite Z.mod_small by lia. lia. Qed.

Lemma len_snoc {A} (l : list A) (x : A) : len (l ++ [x]) = len l + 1.
Proof. unfold len. rewrite length_app. simpl. lia. Qed.

Lemma index_lookup {E A} (l : list A) (i : nat) (x : A) :
  l !! i = Some x -> index (E:=E) l (Z.of_nat i) = Ok x.
Proof.
  intros H. unfold index, len.
  pose proof (lookup_lt_Some _ _ _ H) as Hlt.
  destruct (Z.of_nat i <? 0) eqn:E1; [apply Z.ltb_lt in E1; lia|].
  destruct (Z.of_nat (List.length l) <=? Z.of_nat i) eqn:E2; [apply Z.leb_le in E2; lia|].
  simpl. rewrite Nat2Z.id, H. reflexivity.
Qed.

(** ** The store monad *)

Lemma bindM_Ok {S A B} (m : M S A) (k : A -> M S B) (s s' : S) (a : A) :
  m s = (Ok a, s') -> bindM m k s = k a s'.
Proof. intros H. unfold bindM. rewrite H. reflexivity. Qed.

Lemma bindM_inv_Ok {S A B} (m : M S A) (k : A -> M S B) (s s2 : S) (b : B) :
  bindM m k s = (Ok b, s2) ->
  exists a s1, m s = (Ok a, s1) /\ k a s1 = (Ok b, s2).
Proof.
  unfold bindM. destruct (m s) as [[a|e|] s1]; intros H; try discriminate.
  eauto.
Qed.

Lemma bindM_assoc {S A B C} (m : M S A) (k : A -> M S B) (k' : B -> M S C) (s : S) :
  bindM (bindM m k) k' s = bindM m (fun a => bindM (k a) k') s.
Proof. unfold bindM. destruct (m s) as [[a|e|] s1]; reflexivity. Qed.

Lemma bindM_cong {S A B} (m : M S A) (k k' : A -> M S B) (s : S) :
  (forall a s1, k a s1 = k' a s1) -> bindM m k s = bindM m k' s.
Proof. intros Hk. unfold bindM. destruct (m s) as [[a|e|] s1]; auto. Qed.

Lemma forM_app {S A} (xs ys : list A) (body : A -> M S unit) (s : S) :
  forM (xs ++ ys) body s = bindM (forM xs body) (fun _ => forM ys body) s.
Proof.
  revert s. induction xs as [|x xs IH]; intros s.
  - reflexivity.
  - cbn [app forM]. rewrite bindM_assoc. apply bindM_cong. intros _ s1. apply IH.
Qed.

Section Store.

Context {Hash : Type} `{Countable Hash}.
Variable zeroHash : Hash.
Variable TxHash : @MsgTx Hash -> Hash.
Variable BlockHash : @MsgBlock Hash -> Hash.

Implicit Types (t : gmap Hash (list tTxInsertData)) (d : tTxInsertData).

(** ** Reading a range of heights *)

Lemma fetchLoop_all (bs : list MsgBlock) (n : nat) :
  forall (i : nat) (hashList : list Hash),
    (n + i)%nat = List.length bs ->
    fetchLoop BlockHash n (Z.of_nat i) (len bs - 1) bs hashList
    = Ok (hashList ++ map BlockHash (drop i bs)).
Proof.
  induction n as [|n IH]; intros i hashList Hn.
  - simpl. rewrite drop_ge by lia. rewrite app_nil_r. reflexivity.
  - cbn [fetchLoop].
    destruct (len bs - 1 <? Z.of_nat i) eqn:E; [apply Z.ltb_lt in E; unfold len in E; lia|].
    destruct (lookup_lt_is_Some_2 bs i ltac:(lia)) as [b Hb].
    rewrite (index_lookup _ _ _ Hb). simpl.
    replace (Z.of_nat i + 1) with (Z.of_nat (S i)) by lia.
    rewrite IH by lia.
    rewrite (drop_S _ _ _ Hb). cbn [map]. rewrite <- app_assoc. reflexivity.
Qed.

(** C7 (as amended).  On an open store of fewer than 2^31 blocks,
    [FetchHeightRange] gives the same answer whatever end height it is
    given; it returns an error for a negative start and for a start beyond
    the block count, and otherwise the hashes of the blocks from the start
    height to the last one, in order. *)
Theorem FetchHeightRange_clamps_end
    (db : MemDb) (startHeight endHeight otherEnd : Z) :
  closed db = false ->
  len (blocks db) <= 2147483647 ->
  FetchHeightRange BlockHash startHeight endHeight db
    = FetchHeightRange BlockHash startHeight otherEnd db
  /\ FetchHeightRange BlockHash startHeight endHeight db
     = if startHeight <? 0 then Err ErrStartNegative
       else if len (blocks db) <? startHeight then Err ErrEndBelowStart
       else Ok (map BlockHash (drop (Z.to_nat startHeight) (blocks db))).
Proof.
  intros Hopen Hlen. split; [reflexivity|].
  unfold FetchHeightRange. rewrite Hopen.
  assert (0 <= len (blocks db)) by (unfold len; lia).
  rewrite !int32_small by lia.
  destruct (startHeight <? 0) eqn:E1; [reflexivity|].
  destruct (len (blocks db) <? startHeight) eqn:E2; [reflexivity|].
  apply Z.ltb_ge in E1, E2.
  replace startHeight with (Z.of_nat (Z.to_nat startHeight)) at 2 by lia.
  rewrite fetchLoop_all by (unfold len in *; lia).
  reflexivity.
Qed.


(** ** Spending and unspending *)

Lemma setSpent_Ok (v : bool) (l l' : list tTxInsertData) (index : Z) :
  setSpent v l index = Ok l' <->
  exists init d, l = init ++ [d] /\ 0 <= index < len (spentBuf d)
                 /\ l' = init ++ [withFlag v index d].
Proof.
  unfold setSpent. split.
  - destruct (last l) as [d|] eqn:Hl; [|discriminate].
    apply last_Some in Hl. destruct Hl as [init ->].
    destruct (index <? 0) eqn:E1; [discriminate|].
    destruct (len (spentBuf d) <=? index) eqn:E2; [discriminate|].
    cbn [orb]. intros [= <-]. exists init, d.
    apply Z.ltb_ge in E1. apply Z.leb_gt in E2.
    split; [reflexivity|]. split; [lia|].
    rewrite length_app. cbn [List.length].
    replace (Nat.pred (List.length init + 1)) with (List.length init + 0)%nat by lia.
    rewrite insert_app_r. reflexivity.
  - intros (init & d & -> & Hi & ->). rewrite last_snoc.
    destruct (index <? 0) eqn:E1; [apply Z.ltb_lt in E1; lia|].
    destruct (len (spentBuf d) <=? index) eqn:E2; [apply Z.leb_le in E2; lia|].
    cbn [orb]. rewrite length_app. cbn [List.length].
    replace (Nat.pred (List.length init + 1)) with (List.length init + 0)%nat by lia.
    rewrite insert_app_r. reflexivity.
Qed.

Lemma setSpent_not_Err (v : bool) (l : list tTxInsertData) (index : Z) (e : DbError) :
  setSpent v l index <> Err e.
Proof. unfold setSpent. repeat case_match; discriminate. Qed.

Lemma versions_insert t (h k : Hash) (l : list tTxInsertData) :
  versions (<[h := l]> t) k = if decide (h = k) then l else versions t k.
Proof. unfold versions. rewrite lookup_insert. destruct (decide (h = k)); reflexivity. Qed.

Lemma versions_delete t (h k : Hash) :
  versions (delete h t) k = if decide (h = k) then [] else versions t k.
Proof. unfold versions. rewrite lookup_delete. destruct (decide (h = k)); reflexivity. Qed.

Lemma versions_nonempty t (h : Hash) (init : list tTxInsertData) d :
  versions t h = init ++ [d] -> t !! h = Some (init ++ [d]).
Proof.
  unfold versions. destruct (t !! h) as [l|]; simpl; [congruence|].
  intros Hn. destruct init; discriminate.
Qed.

Lemma entryRel_refl (R : bool -> bool -> Prop) d :
  (forall b, R b b) -> entryRel R d d.
Proof.
  intros HR. repeat split. apply Forall_Forall2_diag, Forall_forall. auto.
Qed.

Lemma versionsRel_refl (R : bool -> bool -> Prop) (l : list tTxInsertData) :
  (forall b, R b b) -> Forall2 (entryRel R) l l.
Proof.
  intros HR. apply Forall_Forall2_diag, Forall_forall. intros d _.
  apply entryRel_refl, HR.
Qed.

Lemma txnsRel_refl (R : bool -> bool -> Prop) t : (forall b, R b b) -> txnsRel R t t.
Proof. intros HR h. apply versionsRel_refl, HR. Qed.

Lemma entryRel_trans (R1 R2 R3 : bool -> bool -> Prop) d1 d2 d3 :
  (forall a b c, R1 a b -> R2 b c -> R3 a c) ->
  entryRel R1 d1 d2 -> entryRel R2 d2 d3 -> entryRel R3 d1 d3.
Proof.
  intros HR (Ha & Hb & Hc) (Ha' & Hb' & Hc').
  repeat split; [congruence|congruence|].
  eapply Forall2_trans; [|exact Hc|exact Hc']. exact HR.
Qed.

Lemma txnsRel_trans (R1 R2 R3 : bool -> bool -> Prop) t1 t2 t3 :
  (forall a b c, R1 a b -> R2 b c -> R3 a c) ->
  txnsRel R1 t1 t2 -> txnsRel R2 t2 t3 -> txnsRel R3 t1 t3.
Proof.
  intros HR H12 H23 h.
  eapply Forall2_trans; [|exact (H12 h)|exact (H23 h)].
  intros a b c. apply entryRel_trans, HR.
Qed.

Lemma txnsCleared_trans t1 t2 t3 :
  txnsCleared t1 t2 -> txnsCleared t2 t3 -> txnsCleared t1 t3.
Proof. apply txnsRel_trans. unfold clearedFlag. auto. Qed.

Lemma txnsCleared_sameShape t1 t2 : txnsCleared t1 t2 -> sameShape t1 t2.
Proof.
  intros H12 h. eapply Forall2_impl; [exact (H12 h)|].
  intros d d' (Ha & Hb & Hc). repeat split; try assumption.
  eapply Forall2_impl; [exact Hc|]. intros; exact I.
Qed.

Lemma sameShape_trans t1 t2 t3 : sameShape t1 t2 -> sameShape t2 t3 -> sameShape t1 t3.
Proof. apply txnsRel_trans. intros; exact I. Qed.

Lemma flags_clear (fl : list bool) (i : nat) :
  Forall2 clearedFlag fl (<[i := false]> fl).
Proof.
  apply Forall2_same_length_lookup. split; [rewrite length_insert; reflexivity|].
  intros j x y Hx Hy. unfold clearedFlag. intros ->.
  destruct (decide (i = j)) as [->|Hne].
  - rewrite list_lookup_insert_eq in Hy by (eapply lookup_lt_Some; exact Hx). discriminate.
  - rewrite list_lookup_insert_ne in Hy by exact Hne. congruence.
Qed.

Lemma flags_meet (fl fl' c : list bool) (i : nat) :
  Forall2 clearedFlag (<[i := true]> fl) c ->
  Forall2 clearedFlag (<[i := false]> fl') c ->
  Forall2 clearedFlag fl c.
Proof.
  intros H1 H2.
  apply Forall2_same_length_lookup in H1. destruct H1 as [Hl1 H1].
  apply Forall2_same_length_lookup in H2. destruct H2 as [Hl2 H2].
  rewrite length_insert in Hl1, Hl2.
  apply Forall2_same_length_lookup. split; [exact Hl1|].
  intros j x y Hx Hy. unfold clearedFlag. intros ->.
  destruct (decide (i = j)) as [->|Hne].
  - assert (Hlt : (j < List.length fl')%nat).
    { rewrite Hl2. eapply lookup_lt_Some; exact Hy. }
    specialize (H2 j false true (list_lookup_insert_eq _ _ _ Hlt) Hy eq_refl). discriminate.
  - apply (H1 j x true); [|exact Hy|reflexivity].
    rewrite list_lookup_insert_ne by exact Hne. exact Hx.
Qed.


Lemma spendInput_Ok (txIn : TxInput) t t1 :
  spendInput txIn t = (Ok tt, t1) <->
  exists init d,
    versions t (OutHash (PreviousOutPoint txIn)) = init ++ [d]
    /\ 0 <= Index (PreviousOutPoint txIn) < len (spentBuf d)
    /\ t1 = <[OutHash (PreviousOutPoint txIn) :=
               init ++ [withFlag true (Index (PreviousOutPoint txIn)) d]]> t.
Proof.
  unfold spendInput. fold (versions t (OutHash (PreviousOutPoint txIn))).
  destruct (setSpent true _ _) as [l'| |] eqn:Hs.
  - apply setSpent_Ok in Hs. destruct Hs as (init & d & Hv & Hi & ->).
    split.
    + intros [= <-]. exists init, d. auto.
    + intros (init' & d' & Hv' & _ & ->). rewrite Hv in Hv'.
      apply app_inj_tail in Hv'. destruct Hv' as [-> ->]. reflexivity.
  - exfalso. exact (setSpent_not_Err _ _ _ _ Hs).
  - split; [discriminate|].
    intros (init & d & Hv & Hi & _).
    assert (Hok : setSpent true (versions t (OutHash (PreviousOutPoint txIn)))
                    (Index (PreviousOutPoint txIn))
                  = Ok (init ++ [withFlag true (Index (PreviousOutPoint txIn)) d])).
    { apply setSpent_Ok. eauto. }
    congruence.
Qed.

Lemma spendInput_not_Err (txIn : TxInput) t t1 (e : DbError) :
  spendInput txIn t <> (Err e, t1).
Proof.
  unfold spendInput. destruct (setSpent true _ _) eqn:Hs; try discriminate.
  exfalso. exact (setSpent_not_Err _ _ _ _ Hs).
Qed.

(** The range check of the first pass lets an index equal to the number of
    flags through, and the spend of the second pass panics on it. *)
Lemma checkInput_stored (db : MemDb) (txInFlight : gmap Hash Z) (i : Z) (tx : MsgTx)
    (txIn : TxInput) (init : list tTxInsertData) (d : tTxInsertData) :
  isCoinbaseInput zeroHash txIn = false ->
  isCoinBaseTx zeroHash tx = Ok false ->
  txInFlight !! OutHash (PreviousOutPoint txIn) = None ->
  txns db !! OutHash (PreviousOutPoint txIn) = Some (init ++ [d]) ->
  len (spentBuf d) < 4294967296 ->
  checkInput zeroHash db txInFlight i tx txIn
  = if len (spentBuf d) <? Index (PreviousOutPoint txIn) then Err ErrTxShaMissing
    else Ok tt.
Proof.
  intros Hin Htx Hfl Hst Hlen. unfold checkInput. rewrite Hin, Htx. cbn.
  rewrite Hfl, Hst, last_snoc. unfold uint32.
  rewrite Z.mod_small by (unfold len in *; lia). reflexivity.
Qed.

Lemma spendInput_past_end (txIn : TxInput) (t : gmap Hash (list tTxInsertData))
    (init : list tTxInsertData) (d : tTxInsertData) :
  versions t (OutHash (PreviousOutPoint txIn)) = init ++ [d] ->
  len (spentBuf d) <= Index (PreviousOutPoint txIn) ->
  spendInput txIn t = (Panic, t).
Proof.
  intros Hv Hi. unfold spendInput, setSpent.
  fold (versions t (OutHash (PreviousOutPoint txIn))). rewrite Hv, last_snoc.
  destruct (Index (PreviousOutPoint txIn) <? 0); [reflexivity|].
  destruct (len (spentBuf d) <=? Index (PreviousOutPoint txIn)) eqn:E;
    [reflexivity|apply Z.leb_gt in E; lia].
Qed.

Lemma versionsRel_snoc (R : bool -> bool -> Prop) (init : list tTxInsertData) d
    (l' : list tTxInsertData) :
  Forall2 (entryRel R) (init ++ [d]) l' ->
  exists init' d', l' = init' ++ [d'] /\ Forall2 (entryRel R) init init' /\ entryRel R d d'.
Proof.
  intros HF. apply Forall2_app_inv_l in HF.
  destruct HF as (init' & k & Hinit & Hk & ->).
  apply Forall2_cons_inv_l in Hk. destruct Hk as (d' & k' & Hd & Hk' & ->).
  apply Forall2_nil_inv_l in Hk'. subst k'. eauto.
Qed.

(** Undoing a spend on a map of the same shape succeeds, only clears a flag,
    and whatever lies below both the spent map and the unspent one lies below
    the map before the spend. *)
Lemma spend_unspend (txIn : TxInput) t t1 t' :
  spendInput txIn t = (Ok tt, t1) ->
  sameShape t t' ->
  exists u,
    unspendInput txIn t' = (Ok tt, u)
    /\ txnsCleared t' u
    /\ sameShape t t1
    /\ (forall c, txnsCleared t1 c -> txnsCleared u c -> txnsCleared t c).
Proof.
  intros Hs Hshape. apply spendInput_Ok in Hs.
  destruct Hs as (init & d & Hv & Hi & ->).
  set (h := OutHash (PreviousOutPoint txIn)) in *.
  set (index := Index (PreviousOutPoint txIn)) in *.
  pose proof (Hshape h) as Hh. rewrite Hv in Hh.
  apply versionsRel_snoc in Hh. destruct Hh as (init' & d' & Hv' & Hinit & Hd).
  assert (Hlen : len (spentBuf d') = len (spentBuf d)).
  { destruct Hd as (_ & _ & Hf). apply Forall2_length in Hf. unfold len. lia. }
  exists (<[h := init' ++ [withFlag false index d']]> t').
  split; [|split; [|split]].
  - unfold unspendInput. fold h index.
    rewrite (versions_nonempty _ _ _ _ Hv').
    assert (Hok : setSpent false (init' ++ [d']) index = Ok (init' ++ [withFlag false index d'])).
    { apply setSpent_Ok. exists init', d'. repeat split; lia. }
    rewrite Hok. reflexivity.
  - intros k. rewrite versions_insert. destruct (decide (h = k)) as [<-|Hne].
    + rewrite Hv'. apply Forall2_app.
      * apply versionsRel_refl. unfold clearedFlag. auto.
      * constructor; [|constructor]. repeat split. cbn [spentBuf withFlag]. apply flags_clear.
    + apply versionsRel_refl. unfold clearedFlag. auto.
  - intros k. rewrite versions_insert. destruct (decide (h = k)) as [<-|Hne].
    + rewrite Hv. apply Forall2_app.
      * apply versionsRel_refl. intros; exact I.
      * constructor; [|constructor]. repeat split. cbn [spentBuf withFlag].
        apply Forall2_same_length_lookup. split; [rewrite length_insert; reflexivity|].
        intros; exact I.
    + apply versionsRel_refl. intros; exact I.
  - intros c Hc1 Hcu k. specialize (Hc1 k). specialize (Hcu k).
    rewrite versions_insert in Hc1, Hcu. destruct (decide (h = k)) as [<-|Hne]; [|exact Hc1].
    rewrite Hv.
    apply versionsRel_snoc in Hc1. destruct Hc1 as (ci & cd & Hcv & Hci & Hcd).
    rewrite Hcv in Hcu |- *.
    apply versionsRel_snoc in Hcu. destruct Hcu as (ci' & cd' & Heq & _ & Hud).
    apply app_inj_tail in Heq. destruct Heq as [_ <-].
    apply Forall2_app; [exact Hci|]. constructor; [|constructor].
    destruct Hcd as (Ha & Hb & Hf). destruct Hud as (_ & _ & Hf').
    cbn [withFlag blockHeight offset spentBuf] in *.
    repeat split; [exact Ha|exact Hb|].
    eapply flags_meet; [exact Hf|exact Hf'].
Qed.

Lemma unspendInput_cleared (txIn : TxInput) t u :
  unspendInput txIn t = (Ok tt, u) -> txnsCleared t u.
Proof.
  unfold unspendInput.
  destruct (t !! OutHash (PreviousOutPoint txIn)) as [l|] eqn:Hl.
  - destruct (setSpent false l _) as [l'| |] eqn:Hs; try discriminate.
    intros [= <-]. apply setSpent_Ok in Hs. destruct Hs as (init & d & -> & Hi & ->).
    intros k. rewrite versions_insert. destruct (decide (_ = k)) as [<-|Hne].
    + unfold versions. rewrite Hl. cbn [default]. apply Forall2_app.
      * apply versionsRel_refl. unfold clearedFlag. auto.
      * constructor; [|constructor]. repeat split. cbn [spentBuf withFlag]. apply flags_clear.
    + apply versionsRel_refl. unfold clearedFlag. auto.
  - intros [= <-]. apply txnsRel_refl. unfold clearedFlag. auto.
Qed.


(** ** One transaction *)

Lemma isCoinBaseTx_IsCoinBaseTx (tx : MsgTx) (cb : bool) :
  isCoinBaseTx zeroHash tx = Ok cb -> IsCoinBaseTx zeroHash tx = cb.
Proof.
  unfold isCoinBaseTx, IsCoinBaseTx, isCoinbaseInput.
  destruct (TxIn tx) as [|txIn rest]; [discriminate|].
  destruct (Index (PreviousOutPoint txIn) =? MaxUint32);
    destruct (bool_decide (OutHash (PreviousOutPoint txIn) = zeroHash));
    cbn; congruence.
Qed.

Lemma isCoinBaseTx_not_Err (tx : MsgTx) (e : DbError) : isCoinBaseTx zeroHash tx <> Err e.
Proof. unfold isCoinBaseTx. repeat case_match; discriminate. Qed.

Lemma unspends_cleared (tx : MsgTx) (ins : list TxInput) :
  forall t u, forM ins (unspendBody zeroHash tx) t = (Ok tt, u) -> txnsCleared t u.
Proof.
  induction ins as [|x xs IH]; intros t u Hu.
  - injection Hu as <-. apply txnsRel_refl. unfold clearedFlag. auto.
  - cbn [forM] in Hu. apply bindM_inv_Ok in Hu. destruct Hu as ([] & t1 & Hx & Hxs).
    eapply txnsCleared_trans; [|exact (IH _ _ Hxs)].
    unfold unspendBody in Hx.
    destruct (isCoinbaseInput zeroHash x);
      [injection Hx as <-; apply txnsRel_refl; unfold clearedFlag; auto|].
    destruct (IsCoinBaseTx zeroHash tx);
      [injection Hx as <-; apply txnsRel_refl; unfold clearedFlag; auto|].
    exact (unspendInput_cleared _ _ _ Hx).
Qed.

Lemma unspends_coinbase (tx : MsgTx) (ins : list TxInput) t :
  IsCoinBaseTx zeroHash tx = true -> forM ins (unspendBody zeroHash tx) t = (Ok tt, t).
Proof.
  intros Hcb. induction ins as [|x xs IH]; [reflexivity|].
  cbn [forM]. unfold bindM, unspendBody at 1. rewrite Hcb.
  destruct (isCoinbaseInput zeroHash x); exact IH.
Qed.

Lemma spends_sameShape (tx : MsgTx) (ins : list TxInput) :
  forall t t1, forM ins (spendBody zeroHash tx) t = (Ok tt, t1) -> sameShape t t1.
Proof.
  induction ins as [|x xs IH]; intros t t1 Hs.
  - injection Hs as <-. apply txnsRel_refl. intros; exact I.
  - cbn [forM] in Hs. apply bindM_inv_Ok in Hs. destruct Hs as ([] & tx1 & Hx & Hxs).
    eapply sameShape_trans; [|exact (IH _ _ Hxs)].
    unfold spendBody in Hx.
    destruct (isCoinbaseInput zeroHash x);
      [injection Hx as <-; apply txnsRel_refl; intros; exact I|].
    apply bindM_inv_Ok in Hx. destruct Hx as (cb & t0 & Hcb & Hx).
    unfold failM in Hcb. injection Hcb as Hcb <-.
    destruct cb; [injection Hx as <-; apply txnsRel_refl; intros; exact I|].
    destruct (spend_unspend x t tx1 t Hx) as (_ & _ & _ & Hsh & _);
      [apply txnsRel_refl; intros; exact I|exact Hsh].
Qed.

Lemma spends_unspends (tx : MsgTx) (ins : list TxInput) :
  isCoinBaseTx zeroHash tx = Ok false ->
  forall t t1 t',
    forM ins (spendBody zeroHash tx) t = (Ok tt, t1) ->
    txnsCleared t1 t' ->
    exists u, forM ins (unspendBody zeroHash tx) t' = (Ok tt, u) /\ txnsCleared t u.
Proof.
  intros Hcb. pose proof (isCoinBaseTx_IsCoinBaseTx _ _ Hcb) as Hcb'.
  induction ins as [|x xs IH]; intros t t1 t' Hs Hc.
  - injection Hs as <-. exists t'. split; [reflexivity|exact Hc].
  - cbn [forM] in Hs |- *. apply bindM_inv_Ok in Hs. destruct Hs as ([] & tx1 & Hx & Hxs).
    unfold spendBody in Hx. unfold unspendBody at 1. rewrite Hcb'.
    destruct (isCoinbaseInput zeroHash x).
    + injection Hx as <-. unfold bindM at 1. cbn [retM]. apply (IH _ _ _ Hxs Hc).
    + unfold bindM at 1, failM in Hx. rewrite Hcb in Hx.
      assert (Hshape : sameShape t t').
      { destruct (spend_unspend x t tx1 t Hx) as (_ & _ & _ & Hsh & _);
          [apply txnsRel_refl; intros; exact I|].
        eapply sameShape_trans; [exact Hsh|].
        eapply sameShape_trans; [exact (spends_sameShape _ _ _ _ Hxs)|].
        apply txnsCleared_sameShape, Hc. }
      destruct (spend_unspend x t tx1 t' Hx Hshape) as (u1 & Hu1 & Hc1 & _ & Hmeet).
      destruct (IH tx1 t1 u1 Hxs (txnsCleared_trans _ _ _ Hc Hc1)) as (u & Hu & Hcu).
      exists u. split.
      * rewrite (bindM_Ok _ _ _ _ _ Hu1). exact Hu.
      * apply Hmeet; [exact Hcu|]. exact (unspends_cleared _ _ _ _ Hu).
Qed.

Lemma insertTx_removeTx (newHeight i : Z) (tx : MsgTx) t t1 t' :
  insertTx zeroHash TxHash newHeight i tx t = (Ok tt, t1) ->
  txnsCleared t1 t' ->
  exists u, removeTx zeroHash tx (TxHash tx) t' = (Ok tt, u) /\ txnsCleared t u.
Proof.
  intros Hins Hc. unfold insertTx in Hins.
  apply bindM_inv_Ok in Hins. destruct Hins as ([] & ta & Ha & Hins).
  injection Ha as <-.
  apply bindM_inv_Ok in Hins. destruct Hins as (cb & ta' & Hcb & Hins).
  unfold failM in Hcb. injection Hcb as Hcb <-.
  set (h := TxHash tx) in *.
  set (txD := mkTxD newHeight i (replicate (List.length (TxOut tx)) false)) in *.
  set (ta := <[h := default [] (t !! h) ++ [txD]]> t) in *.
  assert (Hun : exists u0, forM (TxIn tx) (unspendBody zeroHash tx) t' = (Ok tt, u0)
                           /\ txnsCleared ta u0).
  { destruct cb.
    - injection Hins as <-. exists t'. split; [|exact Hc].
      apply unspends_coinbase. exact (isCoinBaseTx_IsCoinBaseTx _ _ Hcb).
    - exact (spends_unspends tx (TxIn tx) Hcb ta t1 t' Hins Hc). }
  destruct Hun as (u0 & Hu0 & Hc0).
  pose proof (Hc0 h) as Hh. unfold ta in Hh at 1. rewrite versions_insert in Hh.
  destruct (decide (h = h)) as [_|]; [|congruence].
  apply versionsRel_snoc in Hh. destruct Hh as (init' & d' & Hv' & Hinit & _).
  pose proof (versions_nonempty _ _ _ _ Hv') as Hl.
  set (u := if len init' =? 0 then delete h (<[h := init']> u0) else <[h := init']> u0).
  exists u. split.
  - unfold removeTx.
    rewrite (bindM_Ok _ _ _ _ _ Hu0). fold (versions u0 h). rewrite Hv'.
    rewrite len_snoc.
    destruct (len init' + 1 - 1 <? 0) eqn:E; [apply Z.ltb_lt in E; unfold len in E; lia|].
    replace (Z.to_nat (len init' + 1 - 1)) with (List.length init') by (unfold len; lia).
    rewrite take_app_length. subst u. destruct (len init' =? 0); reflexivity.
  - intros k.
    assert (Hvu : versions u k = if decide (h = k) then init' else versions u0 k).
    { subst u. destruct (len init' =? 0) eqn:E.
      - rewrite versions_delete, versions_insert. destruct (decide (h = k)); [|reflexivity].
        apply Z.eqb_eq in E. destruct init'; [reflexivity|unfold len in E; simpl in E; lia].
      - apply versions_insert. }
    rewrite Hvu. destruct (decide (h = k)) as [<-|Hne]; [exact Hinit|].
    specialize (Hc0 k). unfold ta in Hc0 at 1. rewrite versions_insert in Hc0.
    destruct (decide (h = k)); [congruence|exact Hc0].
Qed.


(** ** One block *)

Lemma insertTxs_removeTxs (newHeight : Z) (transactions : list MsgTx) :
  forall (i : Z) t t1 t',
    insertTxs zeroHash TxHash newHeight i transactions t = (Ok tt, t1) ->
    txnsCleared t1 t' ->
    exists u,
      forM (reverse transactions) (fun tx => removeTx zeroHash tx (TxHash tx)) t' = (Ok tt, u)
      /\ txnsCleared t u.
Proof.
  induction transactions as [|tx rest IH]; intros i t t1 t' Hins Hc.
  - injection Hins as <-. exists t'. split; [reflexivity|exact Hc].
  - cbn [insertTxs] in Hins. apply bindM_inv_Ok in Hins.
    destruct Hins as ([] & tx1 & Htx & Hrest).
    destruct (IH _ _ _ _ Hrest Hc) as (u1 & Hu1 & Hc1).
    destruct (insertTx_removeTx _ _ _ _ _ _ Htx Hc1) as (u & Hu & Hcu).
    exists u. split; [|exact Hcu].
    rewrite reverse_cons, forM_app, (bindM_Ok _ _ _ _ _ Hu1).
    cbn [forM]. rewrite (bindM_Ok _ _ _ _ _ Hu). reflexivity.
Qed.

Lemma onTxns_Ok {A} (m : M (gmap Hash (list tTxInsertData)) A) (db db' : MemDb) (a : A) :
  onTxns m db = (Ok a, db') <->
  exists t', m (txns db) = (Ok a, t')
             /\ db' = mkMemDb (blocks db) (blocksBySha db) t' (closed db).
Proof.
  unfold onTxns. destruct (m (txns db)) as [r t']. split.
  - intros [= -> <-]. eauto.
  - intros (t'' & [= -> <-] & ->). reflexivity.
Qed.

Lemma InsertBlock_Ok (block : MsgBlock) (db db1 : MemDb) (newHeight : Z) :
  InsertBlock zeroHash TxHash BlockHash block db = (Ok newHeight, db1) ->
  closed db = false
  /\ newHeight = int32 (len (blocks db))
  /\ blocks db1 = blocks db ++ [block]
  /\ blocksBySha db1 = <[BlockHash block := newHeight]> (blocksBySha db)
  /\ closed db1 = false
  /\ insertTxs zeroHash TxHash newHeight 0 (Transactions block) (txns db) = (Ok tt, txns db1).
Proof.
  unfold InsertBlock. destruct (closed db) eqn:Hc; [discriminate|].
  destruct (negb _ && _); [discriminate|].
  destruct (validate _ _ _ _ _ _); try discriminate.
  intros Hrun. apply bindM_inv_Ok in Hrun. destruct Hrun as ([] & s1 & Hput & Hrun).
  injection Hput as <-.
  apply bindM_inv_Ok in Hrun. destruct Hrun as ([] & s2 & Hon & Hret).
  injection Hret as <- <-.
  apply onTxns_Ok in Hon. destruct Hon as (t' & Ht & ->).
  cbn [blocks blocksBySha txns closed] in *. destruct a. repeat split; auto.
Qed.

(** ** A sequence of blocks *)

Lemma insertAll_app (bs : list MsgBlock) (b : MsgBlock) :
  forall db dbn : MemDb,
    insertAll zeroHash TxHash BlockHash (bs ++ [b]) db = Some dbn <->
    exists dbm h, insertAll zeroHash TxHash BlockHash bs db = Some dbm
                  /\ InsertBlock zeroHash TxHash BlockHash b dbm = (Ok h, dbn).
Proof.
  induction bs as [|b0 bs IH]; intros db dbn.
  - cbn [app insertAll]. split.
    + destruct (InsertBlock zeroHash TxHash BlockHash b db) as [[h|e|] db'] eqn:Hb;
        try discriminate.
      intros [= <-]. eauto.
    + intros (dbm & h & [= <-] & ->). reflexivity.
  - cbn [app insertAll].
    destruct (InsertBlock zeroHash TxHash BlockHash b0 db) as [[h|e|] db'];
      try (split; [discriminate|intros (? & ? & ? & _); discriminate]).
    apply IH.
Qed.

Lemma insertAll_facts (bs : list MsgBlock) :
  forall (db dbn : MemDb) (g : Hash),
    insertAll zeroHash TxHash BlockHash bs db = Some dbn ->
    closed db = false ->
    Forall (fun b => BlockHash b <> g) bs ->
    blocks dbn = blocks db ++ bs
    /\ closed dbn = false
    /\ blocksBySha dbn !! g = blocksBySha db !! g.
Proof.
  induction bs as [|b bs IH]; intros db dbn g Hall Hopen Hg.
  - injection Hall as <-. rewrite app_nil_r. auto.
  - cbn [insertAll] in Hall.
    destruct (InsertBlock zeroHash TxHash BlockHash b db) as [[h|e|] db'] eqn:Hb;
      try discriminate.
    apply InsertBlock_Ok in Hb. destruct Hb as (_ & _ & Hbl & Hsha & Hop & _).
    apply Forall_cons in Hg. destruct Hg as [Hb Hg].
    destruct (IH _ _ g Hall Hop Hg) as (Hbl' & Hop' & Hsha').
    rewrite Hbl', Hbl, Hsha', Hsha, <- app_assoc, lookup_insert_ne by exact Hb. auto.
Qed.

Lemma dropLoop_unwinds (bs : list MsgBlock) :
  forall db0 dbn : MemDb,
    insertAll zeroHash TxHash BlockHash bs db0 = Some dbn ->
    closed db0 = false ->
    forall st : MemDb,
      blocks st = blocks db0 ++ bs ->
      txnsCleared (txns dbn) (txns st) ->
      exists st',
        dropLoop zeroHash TxHash (List.length bs) (len (blocks st) - 1) st = (Ok tt, st')
        /\ blocks st' = blocks db0
        /\ txnsCleared (txns db0) (txns st').
Proof.
  induction bs as [|b bs IH] using rev_ind; intros db0 dbn Hall Hopen st Hbl Hc.
  - injection Hall as <-. exists st. rewrite app_nil_r in Hbl. auto.
  - apply insertAll_app in Hall. destruct Hall as (dbm & h & Hall & Hb).
    apply InsertBlock_Ok in Hb. destruct Hb as (_ & _ & _ & _ & _ & Hins).
    destruct (insertTxs_removeTxs _ _ _ _ _ _ Hins Hc) as (u & Hu & Hcu).
    rewrite length_app. cbn [List.length]. rewrite Nat.add_1_r. cbn [dropLoop].
    assert (Hlen : len (blocks st) - 1 = Z.of_nat (List.length (blocks db0 ++ bs))).
    { rewrite Hbl, app_assoc, len_snoc. unfold len. lia. }
    assert (Hlk : blocks st !! List.length (blocks db0 ++ bs) = Some b).
    { rewrite Hbl, app_assoc. apply list_lookup_middle. reflexivity. }
    unfold bindM at 1. cbn [getM].
    unfold bindM at 1, failM. rewrite Hlen, (index_lookup _ _ _ Hlk).
    unfold bindM at 1.
    assert (Hon : onTxns (forM (reverse (Transactions b))
                            (fun tx => removeTx zeroHash tx (TxHash tx))) st
                  = (Ok tt, mkMemDb (blocks st) (blocksBySha st) u (closed st))).
    { apply onTxns_Ok. eauto. }
    rewrite Hon. unfold bindM at 1. cbn [getM]. unfold bindM at 1. cbn [putM].
    cbn [blocks blocksBySha txns closed].
    set (st2 := mkMemDb (take (Z.to_nat (Z.of_nat (List.length (blocks db0 ++ bs)))) (blocks st))
                  (blocksBySha st) u (closed st)).
    assert (Hbl2 : blocks st2 = blocks db0 ++ bs).
    { subst st2. cbn [blocks]. rewrite Nat2Z.id, Hbl, app_assoc. apply take_app_length. }
    destruct (IH db0 dbm Hall Hopen st2 Hbl2 Hcu) as (st' & Hst' & Hbl' & Hc').
    exists st'. split; [|auto].
    rewrite <- Hst'. f_equal. rewrite Hbl2. unfold len. lia.
Qed.


(** ** The duplicate check inside a block *)

(** The in-flight map holds, for the hash of the transaction at index [j], an
    index that is at least [j]: the test [inFlightIndex < i] of the duplicate
    check is never true, and only the check against the stored transactions
    is left. *)
Lemma buildInFlight_keeps (transactions : list MsgTx) :
  forall (i : Z) (txInFlight : gmap Hash Z) (h : Hash) (k : Z),
    txInFlight !! h = Some k ->
    exists k', buildInFlight TxHash i transactions txInFlight !! h = Some k'
               /\ (k' = k \/ i <= k').
Proof.
  induction transactions as [|tx rest IH]; intros i txInFlight h k Hk.
  - exists k. auto.
  - cbn [buildInFlight]. destruct (decide (TxHash tx = h)) as [<-|Hne].
    + destruct (IH (i + 1) (<[TxHash tx := i]> txInFlight) (TxHash tx) i) as (k' & Hk' & Hor);
        [apply lookup_insert_eq|].
      exists k'. split; [exact Hk'|]. right. lia.
    + destruct (IH (i + 1) (<[TxHash tx := i]> txInFlight) h k) as (k' & Hk' & Hor);
        [rewrite lookup_insert_ne by exact Hne; exact Hk|].
      exists k'. split; [exact Hk'|]. destruct Hor; [auto|right; lia].
Qed.

Lemma buildInFlight_last (transactions : list MsgTx) :
  forall (i : Z) (txInFlight : gmap Hash Z) (j : nat) (tx : MsgTx),
    transactions !! j = Some tx ->
    exists k, buildInFlight TxHash i transactions txInFlight !! TxHash tx = Some k
              /\ i + Z.of_nat j <= k.
Proof.
  induction transactions as [|tx0 rest IH]; intros i txInFlight j tx Hj; [discriminate|].
  cbn [buildInFlight]. destruct j as [|j].
  - injection Hj as ->.
    destruct (buildInFlight_keeps rest (i + 1) (<[TxHash tx := i]> txInFlight) (TxHash tx) i)
      as (k & Hk & Hor); [apply lookup_insert_eq|].
    exists k. split; [exact Hk|lia].
  - destruct (IH (i + 1) (<[TxHash tx0 := i]> txInFlight) j tx Hj) as (k & Hk & Hle).
    exists k. split; [exact Hk|lia].
Qed.

Lemma checkDuplicate_in_block_never_fires (db : MemDb) (transactions : list MsgTx)
    (j : nat) (tx : MsgTx) :
  transactions !! j = Some tx ->
  checkDuplicate TxHash db (buildInFlight TxHash 0 transactions ∅) (Z.of_nat j) tx
  = match txns db !! TxHash tx with
    | None => Ok tt
    | Some txns =>
        match last txns with
        | None => Panic
        | Some txD => if negb (isFullySpent txD) then Err ErrDuplicateSha else Ok tt
        end
    end.
Proof.
  intros Hj. unfold checkDuplicate.
  destruct (buildInFlight_last transactions 0 ∅ j tx Hj) as (k & Hk & Hle).
  rewrite Hk. destruct (k <? Z.of_nat j) eqn:E; [apply Z.ltb_lt in E; lia|].
  reflexivity.
Qed.

(** ** Errors leave the store as it was *)

Lemma forM_not_Err {S A} (body : A -> M S unit) (xs : list A) :
  (forall x s e s', body x s <> (Err e, s')) ->
  forall s e s', forM xs body s <> (Err e, s').
Proof.
  intros Hb. induction xs as [|x xs IH]; intros s e s'; [discriminate|].
  cbn [forM]. unfold bindM. destruct (body x s) as [[[]|e0|] s1] eqn:Hx.
  - apply IH.
  - exfalso. exact (Hb _ _ _ _ Hx).
  - discriminate.
Qed.

Lemma spendBody_not_Err (tx : MsgTx) (txIn : TxInput) t (e : DbError) t' :
  spendBody zeroHash tx txIn t <> (Err e, t').
Proof.
  unfold spendBody. destruct (isCoinbaseInput zeroHash txIn); [discriminate|].
  unfold bindM, failM. destruct (isCoinBaseTx zeroHash tx) as [[]|e0|] eqn:Hcb;
    try discriminate.
  - apply spendInput_not_Err.
  - exfalso. exact (isCoinBaseTx_not_Err _ _ Hcb).
Qed.

Lemma insertTxs_not_Err (newHeight : Z) (transactions : list MsgTx) :
  forall (i : Z) t (e : DbError) t',
    insertTxs zeroHash TxHash newHeight i transactions t <> (Err e, t').
Proof.
  induction transactions as [|tx rest IH]; intros i t e t'; [discriminate|].
  cbn [insertTxs]. unfold bindM at 1.
  destruct (insertTx zeroHash TxHash newHeight i tx t) as [[[]|e0|] t1] eqn:Htx.
  - apply IH.
  - exfalso. revert Htx. unfold insertTx, bindM, failM.
    destruct (isCoinBaseTx zeroHash tx) as [[]|e1|] eqn:Hcb; try discriminate.
    + apply forM_not_Err. intros x s e2 s'. apply spendBody_not_Err.
    + exfalso. exact (isCoinBaseTx_not_Err _ _ Hcb).
  - discriminate.
Qed.

Lemma InsertBlock_error_unchanged (block : MsgBlock) (db db' : MemDb) (e : DbError) :
  InsertBlock zeroHash TxHash BlockHash block db = (Err e, db') -> db' = db.
Proof.
  unfold InsertBlock. destruct (closed db); [congruence|].
  destruct (negb _ && _); [congruence|].
  destruct (validate _ _ _ _ _ _); [|congruence|discriminate].
  unfold bindM, putM, onTxns, retM. cbn [blocks blocksBySha txns closed].
  destruct (insertTxs _ _ _ _ _ _) as [[[]|e0|] t'] eqn:Hins; try discriminate.
  exfalso. exact (insertTxs_not_Err _ _ _ _ _ _ Hins).
Qed.

(** ** The hashes of the stored blocks stay known *)

Lemma InsertBlock_state (block : MsgBlock) (db : MemDb) :
  let db' := snd (InsertBlock zeroHash TxHash BlockHash block db) in
  (blocks db' = blocks db /\ blocksBySha db' = blocksBySha db)
  \/ (blocks db' = blocks db ++ [block]
      /\ blocksBySha db' = <[BlockHash block := int32 (len (blocks db))]> (blocksBySha db)).
Proof.
  unfold InsertBlock. destruct (closed db); [left; auto|].
  destruct (negb _ && _); [left; auto|].
  destruct (validate _ _ _ _ _ _); [|left; auto|left; auto].
  right. unfold bindM, putM, onTxns, retM. cbn [blocks blocksBySha txns closed].
  destruct (insertTxs _ _ _ _ _ _) as [[[]|e0|] t']; auto.
Qed.

Lemma dropLoop_S (n : nat) (i : Z) (db : MemDb) :
  dropLoop zeroHash TxHash (S n) i db
  = match index (blocks db) i with
    | Ok blk =>
        match forM (reverse (Transactions blk))
                (fun tx => removeTx zeroHash tx (TxHash tx)) (txns db) with
        | (Ok _, u) =>
            dropLoop zeroHash TxHash n (i - 1)
              (mkMemDb (take (Z.to_nat i) (blocks db)) (blocksBySha db) u (closed db))
        | (Err e, u) => (Err e, mkMemDb (blocks db) (blocksBySha db) u (closed db))
        | (Panic, u) => (Panic, mkMemDb (blocks db) (blocksBySha db) u (closed db))
        end
    | Err e => (Err e, db)
    | Panic => (Panic, db)
    end.
Proof.
  cbn [dropLoop]. unfold bindM, getM, failM, onTxns, putM.
  destruct (index (blocks db) i) as [blk|e|]; try reflexivity.
  destruct (forM _ _ (txns db)) as [[[]|e|] u]; reflexivity.
Qed.

Lemma dropLoop_state (n : nat) :
  forall (i : Z) (db : MemDb),
    blocksBySha (snd (dropLoop zeroHash TxHash n i db)) = blocksBySha db
    /\ exists k, blocks (snd (dropLoop zeroHash TxHash n i db)) = take k (blocks db).
Proof.
  induction n as [|n IH]; intros i db.
  - split; [reflexivity|]. exists (List.length (blocks db)). symmetry. apply firstn_all.
  - rewrite dropLoop_S.
    assert (Hsame : forall r u,
               blocksBySha (snd (r : result DbError unit,
                                 mkMemDb (blocks db) (blocksBySha db) u (closed db)))
               = blocksBySha db
               /\ exists k, blocks (snd (r, mkMemDb (blocks db) (blocksBySha db) u (closed db)))
                            = take k (blocks db)).
    { intros r u. split; [reflexivity|].
      exists (List.length (blocks db)). symmetry. apply firstn_all. }
    destruct (index (blocks db) i) as [blk|e|];
      [|destruct db; apply (Hsame (Err e))|destruct db; apply (Hsame Panic)].
    destruct (forM _ _ (txns db)) as [[[]|e|] u]; [|apply Hsame|apply Hsame].
    specialize (IH (i - 1) (mkMemDb (take (Z.to_nat i) (blocks db)) (blocksBySha db) u (closed db))).
    cbn [blocks blocksBySha] in IH. destruct IH as (Hs & k & Hk).
    split; [exact Hs|]. exists (Nat.min k (Z.to_nat i)). rewrite Hk. apply take_take.
Qed.

Lemma hashesKnown_InsertBlock (block : MsgBlock) (db : MemDb) :
  hashesKnown BlockHash db ->
  hashesKnown BlockHash (snd (InsertBlock zeroHash TxHash BlockHash block db)).
Proof.
  intros Hk. unfold hashesKnown in *.
  destruct (InsertBlock_state block db) as [[Hb Hs]|[Hb Hs]]; rewrite Hb, Hs.
  - exact Hk.
  - apply Forall_app. split.
    + eapply Forall_impl; [exact Hk|]. intros b Hb'. cbn beta.
      apply lookup_insert_is_Some. destruct (decide (BlockHash block = BlockHash b)); auto.
    + constructor; [|constructor]. rewrite lookup_insert_eq. eauto.
Qed.

Lemma hashesKnown_Drop (sha : Hash) (db : MemDb) :
  hashesKnown BlockHash db ->
  hashesKnown BlockHash (snd (DropAfterBlockBySha zeroHash TxHash sha db)).
Proof.
  intros Hk. unfold DropAfterBlockBySha.
  destruct (closed db); [exact Hk|].
  destruct (blocksBySha db !! sha) as [height|]; [|exact Hk].
  unfold hashesKnown in *.
  destruct (dropLoop_state (Z.to_nat (int32 (len (blocks db) - 1) - height))
              (int32 (len (blocks db) - 1)) db) as (Hs & k & Hb).
  rewrite Hs, Hb. apply Forall_take. exact Hk.
Qed.

Lemma hashesKnown_Close (db : MemDb) :
  hashesKnown BlockHash (snd (Close db)) \/ snd (Close db) = db.
Proof.
  unfold Close. destruct (closed db); [right; reflexivity|left; constructor].
Qed.

Lemma lengthIsSize_InsertBlock (block : MsgBlock) (db : MemDb) :
  blocksBySha db !! BlockHash block = None ->
  lengthIsSize db ->
  lengthIsSize (snd (InsertBlock zeroHash TxHash BlockHash block db)).
Proof.
  intros Hnew Hls. unfold lengthIsSize in *.
  destruct (InsertBlock_state block db) as [[Hb Hs]|[Hb Hs]]; rewrite Hb, Hs.
  - exact Hls.
  - rewrite length_app, map_size_insert_None by exact Hnew. cbn [List.length]. lia.
Qed.

Lemma lengthIsSize_Close (db : MemDb) :
  lengthIsSize db -> lengthIsSize (snd (Close (Hash:=Hash) db)).
Proof.
  intros Hls. unfold Close. destruct (closed db); [exact Hls|]. reflexivity.
Qed.

(** ** Reads of a block that was just inserted *)

Lemma closed_refuses (db : MemDb) (block : MsgBlock) (sha : Hash) (height startHeight endHeight : Z)
    (txShaList : list Hash) (includeSpent : bool) :
  closed db = true ->
  InsertBlock zeroHash TxHash BlockHash block db = (Err ErrDbClosed, db)
  /\ DropAfterBlockBySha zeroHash TxHash sha db = (Err ErrDbClosed, db)
  /\ Close db = (Err ErrDbClosed, db)
  /\ RollbackClose db = (Err ErrDbClosed, db)
  /\ Sync db = (Err ErrDbClosed, db)
  /\ ExistsSha sha db = Err ErrDbClosed
  /\ FetchBlockBySha sha db = Err (DbErr ErrDbClosed)
  /\ FetchBlockHeightBySha sha db = Err (DbErr ErrDbClosed)
  /\ FetchBlockHeaderBySha sha db = Err (DbErr ErrDbClosed)
  /\ FetchBlockShaByHeight BlockHash height db = Err (DbErr ErrDbClosed)
  /\ FetchHeightRange BlockHash startHeight endHeight db = Err ErrDbClosed
  /\ NewestSha zeroHash BlockHash db = Err ErrDbClosed
  /\ ExistsTxSha sha db = Err ErrDbClosed
  /\ FetchTxBySha BlockHash sha db = Err ErrDbClosed
  /\ fetchTxByShaList BlockHash txShaList includeSpent db
     = Ok (map (fun hash => mkReply hash None None 0 [] (Some ErrDbClosed)) txShaList).
Proof.
  intros Hc.
  unfold InsertBlock, DropAfterBlockBySha, RollbackClose, Close, Sync, ExistsSha,
    FetchBlockBySha, FetchBlockHeightBySha, FetchBlockHeaderBySha, FetchBlockShaByHeight,
    FetchHeightRange, NewestSha, ExistsTxSha, FetchTxBySha.
  rewrite Hc. repeat split.
  induction txShaList as [|hash rest IH]; [reflexivity|].
  cbn [fetchTxByShaList map]. unfold fetchOne at 1. rewrite Hc, IH. reflexivity.
Qed.

(** X1.  Whatever [Close] returned, the store it leaves behind is closed
    and empty, and every operation on it is refused: the five operations
    that change the store return [ErrDbClosed] and leave it as it is, the
    reads return [ErrDbClosed], and [fetchTxByShaList], which has no error
    result, returns one reply per requested hash, in order, each carrying
    [ErrDbClosed] and nothing else. *)
Theorem Close_refuses_everything (db : MemDb) (block : MsgBlock) (sha : Hash)
    (height startHeight endHeight : Z) (txShaList : list Hash) (includeSpent : bool) :
  let db' := snd (Close (Hash:=Hash) db) in
  (db' = db \/ db' = mkMemDb [] ∅ ∅ true)
  /\ InsertBlock zeroHash TxHash BlockHash block db' = (Err ErrDbClosed, db')
  /\ DropAfterBlockBySha zeroHash TxHash sha db' = (Err ErrDbClosed, db')
  /\ Close db' = (Err ErrDbClosed, db')
  /\ RollbackClose db' = (Err ErrDbClosed, db')
  /\ Sync db' = (Err ErrDbClosed, db')
  /\ ExistsSha sha db' = Err ErrDbClosed
  /\ FetchBlockBySha sha db' = Err (DbErr ErrDbClosed)
  /\ FetchBlockHeightBySha sha db' = Err (DbErr ErrDbClosed)
  /\ FetchBlockHeaderBySha sha db' = Err (DbErr ErrDbClosed)
  /\ FetchBlockShaByHeight BlockHash height db' = Err (DbErr ErrDbClosed)
  /\ FetchHeightRange BlockHash startHeight endHeight db' = Err ErrDbClosed
  /\ NewestSha zeroHash BlockHash db' = Err ErrDbClosed
  /\ ExistsTxSha sha db' = Err ErrDbClosed
  /\ FetchTxBySha BlockHash sha db' = Err ErrDbClosed
  /\ fetchTxByShaList BlockHash txShaList includeSpent db'
     = Ok (map (fun hash => mkReply hash None None 0 [] (Some ErrDbClosed)) txShaList).
Proof.
  intros db'.
  assert (Hc : closed db' = true /\ (db' = db \/ db' = mkMemDb [] ∅ ∅ true)).
  { subst db'. unfold Close. destruct (closed db) eqn:E; cbn [snd closed]; auto. }
  destruct Hc as [Hc Hor]. split; [exact Hor|]. apply closed_refuses, Hc.
Qed.

(** X2.  A block whose insert returned a height can be read back at once,
    on a chain below 2^31 blocks: the height is the number of blocks the
    store held, [NewestSha] returns the block's hash with that height,
    [FetchBlockShaByHeight] at that height returns the hash,
    [FetchBlockHeightBySha] and [ExistsSha] know the hash, and
    [FetchBlockBySha] and [FetchBlockHeaderBySha] return the block that was
    inserted, with that height, and its header. *)
Theorem InsertBlock_then_read (block : MsgBlock) (db db1 : MemDb) (newHeight : Z) :
  InsertBlock zeroHash TxHash BlockHash block db = (Ok newHeight, db1) ->
  len (blocks db) < 2147483647 ->
  newHeight = len (blocks db)
  /\ NewestSha zeroHash BlockHash db1 = Ok (BlockHash block, newHeight)
  /\ FetchBlockShaByHeight BlockHash newHeight db1 = Ok (BlockHash block)
  /\ FetchBlockHeightBySha (BlockHash block) db1 = Ok newHeight
  /\ ExistsSha (BlockHash block) db1 = Ok true
  /\ FetchBlockBySha (BlockHash block) db1 = Ok (block, newHeight)
  /\ FetchBlockHeaderBySha (BlockHash block) db1 = Ok (Header block).
Proof.
  intros Hins Hlen.
  apply InsertBlock_Ok in Hins. destruct Hins as (_ & Hh & Hbl & Hsha & Hop & _).
  assert (Hn : 0 <= len (blocks db)) by (unfold len; lia).
  rewrite int32_small in Hh by lia. subst newHeight.
  assert (Hlk : blocks db1 !! List.length (blocks db) = Some block).
  { rewrite Hbl. apply list_lookup_middle. reflexivity. }
  assert (Hix : forall E, index (E:=E) (blocks db1) (len (blocks db)) = Ok block).
  { intros E. apply (index_lookup _ _ _ Hlk). }
  assert (Hl1 : len (blocks db1) = len (blocks db) + 1) by (rewrite Hbl; apply len_snoc).
  unfold NewestSha, FetchBlockShaByHeight, FetchBlockHeightBySha, ExistsSha,
    FetchBlockBySha, FetchBlockHeaderBySha, blockAt.
  rewrite Hop, Hsha, lookup_insert_eq, Hl1.
  assert (Hl0 : len (blocks db) + 1 - 1 = len (blocks db)) by lia.
  rewrite !Hl0.
  rewrite !Hix, !(int32_small (len (blocks db))), (int32_small (len (blocks db) + 1)),
    Hl0, (int32_small (len (blocks db))) by lia.
  destruct (len (blocks db) + 1 =? 0) eqn:E0; [apply Z.eqb_eq in E0; lia|].
  destruct (len (blocks db) <? 0) eqn:E1; [apply Z.ltb_lt in E1; lia|].
  rewrite Z.ltb_irrefl.
  cbn. repeat split.
Qed.

(** ** What an insert that failed, or succeeded, says about the block *)

Lemma checkInput_errors (db : MemDb) (fl : gmap Hash Z) (i : Z) (tx : MsgTx) (txIn : TxInput)
    (e : DbError) :
  checkInput zeroHash db fl i tx txIn = Err e -> e = ErrTxShaMissing.
Proof.
  unfold checkInput. destruct (isCoinbaseInput zeroHash txIn); [discriminate|].
  destruct (isCoinBaseTx zeroHash tx) as [[]| |] eqn:Hcb; cbn; try discriminate.
  - destruct (fl !! _) as [k|].
    + destruct (i <=? k); [congruence|discriminate].
    + destruct (txns db !! _) as [l|]; [|congruence].
      destruct (last l); [|discriminate].
      destruct (_ <? _); [congruence|discriminate].
  - intros _. exfalso. exact (isCoinBaseTx_not_Err _ _ Hcb).
Qed.

Lemma checkInputs_errors (db : MemDb) (fl : gmap Hash Z) (i : Z) (tx : MsgTx)
    (ins : list TxInput) (e : DbError) :
  checkInputs zeroHash db fl i tx ins = Err e -> e = ErrTxShaMissing.
Proof.
  induction ins as [|x xs IH]; [discriminate|].
  cbn [checkInputs]. destruct (checkInput zeroHash db fl i tx x) as [[]|e0|] eqn:Hx; cbn.
  - exact IH.
  - intros [= <-]. exact (checkInput_errors _ _ _ _ _ _ Hx).
  - discriminate.
Qed.

Lemma checkDuplicate_errors (db : MemDb) (fl : gmap Hash Z) (i : Z) (tx : MsgTx) (e : DbError) :
  checkDuplicate TxHash db fl i tx = Err e -> e = ErrDuplicateSha.
Proof.
  unfold checkDuplicate.
  destruct (fl !! TxHash tx) as [k|]; [destruct (k <? i)|]; cbn; try congruence;
    (destruct (txns db !! TxHash tx) as [l|]; [|discriminate];
     destruct (last l) as [d|]; [|discriminate];
     destruct (negb (isFullySpent d)); [congruence|discriminate]).
Qed.

Lemma validate_errors (db : MemDb) (fl : gmap Hash Z) (transactions : list MsgTx) :
  forall (i : Z) (e : DbError),
    validate zeroHash TxHash db fl i transactions = Err e ->
    e = ErrTxShaMissing \/ e = ErrDuplicateSha.
Proof.
  induction transactions as [|tx rest IH]; intros i e; [discriminate|].
  cbn [validate].
  destruct (checkInputs zeroHash db fl i tx (TxIn tx)) as [[]|e0|] eqn:Hin; cbn;
    [|intros [= <-]; left; exact (checkInputs_errors _ _ _ _ _ _ Hin)|discriminate].
  destruct (checkDuplicate TxHash db fl i tx) as [[]|e0|] eqn:Hd; cbn;
    [|intros [= <-]; right; exact (checkDuplicate_errors _ _ _ _ _ Hd)|discriminate].
  apply IH.
Qed.

(** X3.  An insert that returns an error has changed nothing: the store is
    the one it was given, and the error is [ErrDbClosed] (exactly when the
    store is closed), [ErrPrevShaMissing] (only when the store holds blocks
    and the previous hash of the header is not a key of the blocks-by-hash
    map), [ErrTxShaMissing] or [ErrDuplicateSha]. *)
Theorem InsertBlock_error_is_atomic (block : MsgBlock) (db db' : MemDb) (e : DbError) :
  InsertBlock zeroHash TxHash BlockHash block db = (Err e, db') ->
  db' = db
  /\ (e = ErrDbClosed <-> closed db = true)
  /\ (e = ErrPrevShaMissing ->
      blocks db <> [] /\ blocksBySha db !! Previous (Header block) = None)
  /\ (e = ErrDbClosed \/ e = ErrPrevShaMissing \/ e = ErrTxShaMissing \/ e = ErrDuplicateSha).
Proof.
  intros Hins. split; [exact (InsertBlock_error_unchanged _ _ _ _ Hins)|].
  revert Hins. unfold InsertBlock. destruct (closed db) eqn:Hc.
  { intros [= <- _]. repeat split; auto; discriminate. }
  destruct (negb _ && _) eqn:Hp.
  { intros [= <- _]. apply andb_true_iff in Hp. destruct Hp as [Hp Hl].
    apply negb_true_iff, bool_decide_eq_false in Hp. apply Z.ltb_lt in Hl.
    repeat split; auto; try discriminate.
    - intros Hnil. rewrite Hnil in Hl. unfold len in Hl. simpl in Hl. lia.
    - apply eq_None_not_Some. exact Hp. }
  destruct (validate _ _ _ _ _ _) as [[]|e0|] eqn:Hv.
  - unfold bindM, putM, onTxns, retM. cbn [blocks blocksBySha txns closed].
    destruct (insertTxs _ _ _ _ _ _) as [[[]|e0|] t'] eqn:Hi; try discriminate.
    exfalso. exact (insertTxs_not_Err _ _ _ _ _ _ Hi).
  - intros [= <- _]. destruct (validate_errors _ _ _ _ _ Hv) as [->| ->];
      repeat split; auto; try discriminate.
  - discriminate.
Qed.

Lemma InsertBlock_validated (block : MsgBlock) (db db1 : MemDb) (newHeight : Z) :
  InsertBlock zeroHash TxHash BlockHash block db = (Ok newHeight, db1) ->
  validate zeroHash TxHash db (buildInFlight TxHash 0 (Transactions block) ∅) 0
    (Transactions block) = Ok tt.
Proof.
  unfold InsertBlock. destruct (closed db); [discriminate|].
  destruct (negb _ && _); [discriminate|].
  destruct (validate _ _ _ _ _ _) as [[]|e|]; [reflexivity|discriminate|discriminate].
Qed.

Lemma checkInputs_Ok (db : MemDb) (fl : gmap Hash Z) (i : Z) (tx : MsgTx) (ins : list TxInput) :
  checkInputs zeroHash db fl i tx ins = Ok tt ->
  forall txIn, txIn ∈ ins -> checkInput zeroHash db fl i tx txIn = Ok tt.
Proof.
  induction ins as [|x xs IH]; intros Hok txIn Hin.
  - apply elem_of_nil in Hin. contradiction.
  - cbn [checkInputs] in Hok.
    destruct (checkInput zeroHash db fl i tx x) as [[]|e|] eqn:Hx; try discriminate.
    apply elem_of_cons in Hin. destruct Hin as [->|Hin]; [exact Hx|].
    apply IH; [exact Hok|exact Hin].
Qed.

Lemma validate_Ok (db : MemDb) (fl : gmap Hash Z) (transactions : list MsgTx) :
  forall i : Z,
    validate zeroHash TxHash db fl i transactions = Ok tt ->
    forall (j : nat) (tx : MsgTx),
      transactions !! j = Some tx ->
      checkInputs zeroHash db fl (i + Z.of_nat j) tx (TxIn tx) = Ok tt
      /\ checkDuplicate TxHash db fl (i + Z.of_nat j) tx = Ok tt.
Proof.
  induction transactions as [|tx0 rest IH]; intros i Hv j tx Hj; [discriminate|].
  cbn [validate] in Hv.
  destruct (checkInputs zeroHash db fl i tx0 (TxIn tx0)) as [[]|e|] eqn:Hin; try discriminate.
  destruct (checkDuplicate TxHash db fl i tx0) as [[]|e|] eqn:Hd; try discriminate.
  cbn in Hv. destruct j as [|j].
  - injection Hj as <-. rewrite Z.add_0_r. auto.
  - replace (i + Z.of_nat (S j)) with (i + 1 + Z.of_nat j) by lia.
    exact (IH _ Hv j tx Hj).
Qed.

(** X4.  A block is accepted only when none of its transactions is still
    unspent in the store: if [InsertBlock] returns a height, then for every
    transaction of the block [ExistsTxSha] of its hash, asked of the store
    before the insert, returns false (the hash is unknown, or its latest
    version is fully spent). *)
Theorem InsertBlock_only_new_or_spent (block : MsgBlock) (db db1 : MemDb) (newHeight : Z)
    (tx : MsgTx) :
  InsertBlock zeroHash TxHash BlockHash block db = (Ok newHeight, db1) ->
  tx ∈ Transactions block ->
  ExistsTxSha (TxHash tx) db = Ok false.
Proof.
  intros Hins Hin. apply list_elem_of_lookup in Hin. destruct Hin as [j Hj].
  pose proof (InsertBlock_validated _ _ _ _ Hins) as Hv.
  destruct (validate_Ok _ _ _ _ Hv j tx Hj) as [_ Hd].
  rewrite Z.add_0_l, (checkDuplicate_in_block_never_fires _ _ _ _ Hj) in Hd.
  apply InsertBlock_Ok in Hins. destruct Hins as (Hop & _).
  unfold ExistsTxSha. rewrite Hop.
  destruct (txns db !! TxHash tx) as [l|]; [|reflexivity].
  destruct (last l) as [d|]; [|discriminate].
  destruct (isFullySpent d); [reflexivity|discriminate].
Qed.

(** ** The outputs an accepted block spends *)

Lemma len_nil_Z {A} : len (@nil A) = 0.
Proof. reflexivity. Qed.

Lemma insertTxs_app (newHeight : Z) (pre post : list MsgTx) :
  forall (i : Z) t,
    insertTxs zeroHash TxHash newHeight i (pre ++ post) t
    = bindM (insertTxs zeroHash TxHash newHeight i pre)
        (fun _ => insertTxs zeroHash TxHash newHeight (i + len pre) post) t.
Proof.
  induction pre as [|tx pre IH]; intros i t.
  - cbn [app insertTxs]. unfold bindM, retM. rewrite len_nil_Z, Z.add_0_r. reflexivity.
  - cbn [app insertTxs]. rewrite bindM_assoc. apply bindM_cong. intros _ s1.
    rewrite IH. replace (i + len (tx :: pre)) with (i + 1 + len pre); [reflexivity|].
    unfold len. cbn [List.length]. lia.
Qed.

Lemma spendInput_marks (txIn : TxInput) t t1 :
  spendInput txIn t = (Ok tt, t1) ->
  markedSpent t1 (OutHash (PreviousOutPoint txIn)) (Index (PreviousOutPoint txIn)).
Proof.
  intros Hs. apply spendInput_Ok in Hs. destruct Hs as (init & d & _ & Hi & ->).
  exists init, (withFlag true (Index (PreviousOutPoint txIn)) d).
  rewrite lookup_insert_eq. split; [reflexivity|]. split; [lia|].
  cbn [withFlag spentBuf]. apply list_lookup_insert_eq. unfold len in Hi. lia.
Qed.

Lemma spendInput_keeps_mark (txIn : TxInput) t t1 (h : Hash) (index : Z) :
  spendInput txIn t = (Ok tt, t1) -> markedSpent t h index -> markedSpent t1 h index.
Proof.
  intros Hs (init0 & d0 & Hh & Hi0 & Hf).
  apply spendInput_Ok in Hs. destruct Hs as (init & d & Hv & Hi & ->).
  destruct (decide (OutHash (PreviousOutPoint txIn) = h)) as [E|E].
  - unfold versions in Hv. rewrite E, Hh in Hv. cbn in Hv.
    apply app_inj_tail in Hv. destruct Hv as [<- <-].
    exists init0, (withFlag true (Index (PreviousOutPoint txIn)) d0).
    rewrite E, lookup_insert_eq. split; [reflexivity|]. split; [exact Hi0|].
    cbn [withFlag spentBuf]. rewrite list_lookup_insert.
    destruct (decide _); [reflexivity|exact Hf].
  - exists init0, d0. rewrite lookup_insert_ne by exact E. auto.
Qed.

Lemma spends_keep_mark (tx : MsgTx) (ins : list TxInput) (h : Hash) (index : Z) :
  forall t t1,
    forM ins (spendBody zeroHash tx) t = (Ok tt, t1) ->
    markedSpent t h index -> markedSpent t1 h index.
Proof.
  induction ins as [|x xs IH]; intros t t1 Hs Hm.
  - injection Hs as <-. exact Hm.
  - cbn [forM] in Hs. apply bindM_inv_Ok in Hs. destruct Hs as ([] & tx1 & Hx & Hxs).
    apply (IH _ _ Hxs). unfold spendBody in Hx.
    destruct (isCoinbaseInput zeroHash x); [injection Hx as <-; exact Hm|].
    apply bindM_inv_Ok in Hx. destruct Hx as (cb & t0 & Hcb & Hx).
    unfold failM in Hcb. injection Hcb as Hcb <-.
    destruct cb; [injection Hx as <-; exact Hm|].
    exact (spendInput_keeps_mark _ _ _ _ _ Hx Hm).
Qed.

Lemma insertTx_keeps_mark (newHeight i : Z) (tx : MsgTx) (h : Hash) (index : Z) t t1 :
  insertTx zeroHash TxHash newHeight i tx t = (Ok tt, t1) ->
  TxHash tx <> h ->
  markedSpent t h index -> markedSpent t1 h index.
Proof.
  intros Hi Hne (init & d & Hh & Hi0 & Hf). unfold insertTx in Hi.
  apply bindM_inv_Ok in Hi. destruct Hi as ([] & ta & Ha & Hi). injection Ha as <-.
  assert (Hm : markedSpent (<[TxHash tx := default [] (t !! TxHash tx)
                 ++ [mkTxD newHeight i (replicate (List.length (TxOut tx)) false)]]> t) h index).
  { exists init, d. rewrite lookup_insert_ne by exact Hne. auto. }
  apply bindM_inv_Ok in Hi. destruct Hi as (cb & t0 & Hcb & Hi).
  unfold failM in Hcb. injection Hcb as Hcb <-.
  destruct cb; [injection Hi as <-; exact Hm|].
  exact (spends_keep_mark _ _ _ _ _ _ Hi Hm).
Qed.

Lemma insertTxs_keep_mark (newHeight : Z) (transactions : list MsgTx) (h : Hash) (index : Z) :
  Forall (fun tx => TxHash tx <> h) transactions ->
  forall (i : Z) t t1,
    insertTxs zeroHash TxHash newHeight i transactions t = (Ok tt, t1) ->
    markedSpent t h index -> markedSpent t1 h index.
Proof.
  induction 1 as [|tx rest Hne _ IH]; intros i t t1 Hi Hm.
  - injection Hi as <-. exact Hm.
  - cbn [insertTxs] in Hi. apply bindM_inv_Ok in Hi. destruct Hi as ([] & ta & Ha & Hi).
    apply (IH _ _ _ Hi). exact (insertTx_keeps_mark _ _ _ _ _ _ _ Ha Hne Hm).
Qed.

(** X5.  Every output that an accepted block spends ends up marked spent:
    if [InsertBlock] returns a height, then for every transaction of the
    block whose first input is not the coinbase outpoint, and every input of
    it that is not a coinbase input, the store after the insert holds
    versions of the referenced hash, and in the latest of them the flag at
    the referenced index exists and is set. *)
Theorem InsertBlock_marks_inputs_spent (block : MsgBlock) (db db1 : MemDb) (newHeight : Z)
    (tx : MsgTx) (txIn : TxInput) :
  InsertBlock zeroHash TxHash BlockHash block db = (Ok newHeight, db1) ->
  tx ∈ Transactions block ->
  txIn ∈ TxIn tx ->
  isCoinBaseTx zeroHash tx = Ok false ->
  isCoinbaseInput zeroHash txIn = false ->
  markedSpent (txns db1) (OutHash (PreviousOutPoint txIn)) (Index (PreviousOutPoint txIn)).
Proof.
  intros Hins Htx Hin Hcb Hci.
  apply list_elem_of_lookup in Htx. destruct Htx as [j Hj].
  pose proof (InsertBlock_validated _ _ _ _ Hins) as Hv.
  destruct (validate_Ok _ _ _ _ Hv j tx Hj) as [Hchk _].
  pose proof (checkInputs_Ok _ _ _ _ _ Hchk txIn Hin) as Hc.
  set (h := OutHash (PreviousOutPoint txIn)) in *.
  assert (Hlater : Forall (fun tx' => TxHash tx' <> h) (drop (S j) (Transactions block))).
  { apply Forall_forall. intros tx' Hin' E.
    apply list_elem_of_lookup in Hin'. destruct Hin' as [j' Hj'].
    rewrite lookup_drop in Hj'.
    destruct (buildInFlight_last (Transactions block) 0 ∅ _ tx' Hj') as (k & Hk & Hle).
    unfold checkInput in Hc. rewrite Hci, Hcb in Hc. cbn in Hc.
    fold h in Hc. rewrite <- E, Hk in Hc.
    destruct (0 + Z.of_nat j <=? k) eqn:El; [discriminate|].
    apply Z.leb_gt in El. lia. }
  apply InsertBlock_Ok in Hins. destruct Hins as (_ & _ & _ & _ & _ & Hrun).
  rewrite <- (take_drop_middle _ _ _ Hj), insertTxs_app in Hrun.
  apply bindM_inv_Ok in Hrun. destruct Hrun as ([] & ta & _ & Hrun).
  cbn [insertTxs] in Hrun.
  apply bindM_inv_Ok in Hrun. destruct Hrun as ([] & tb & Htx & Hpost).
  apply (insertTxs_keep_mark _ _ _ _ Hlater _ _ _ Hpost).
  unfold insertTx in Htx.
  apply bindM_inv_Ok in Htx. destruct Htx as ([] & tc & _ & Htx).
  apply bindM_inv_Ok in Htx. destruct Htx as (cb & t0 & Hcb' & Htx).
  unfold failM in Hcb'. injection Hcb' as Hcb' <-.
  rewrite Hcb in Hcb'. injection Hcb' as <-.
  apply list_elem_of_lookup in Hin. destruct Hin as [k Hk].
  rewrite <- (take_drop_middle _ _ _ Hk), forM_app in Htx.
  apply bindM_inv_Ok in Htx. destruct Htx as ([] & td & _ & Htx).
  cbn [forM] in Htx.
  apply bindM_inv_Ok in Htx. destruct Htx as ([] & te & Hsp & Hrest).
  apply (spends_keep_mark _ _ _ _ _ _ Hrest).
  unfold spendBody in Hsp. rewrite Hci in Hsp.
  apply bindM_inv_Ok in Hsp. destruct Hsp as (cb & t0 & Hcb' & Hsp).
  unfold failM in Hcb'. injection Hcb' as Hcb' <-.
  rewrite Hcb in Hcb'. injection Hcb' as <-.
  exact (spendInput_marks _ _ _ Hsp).
Qed.

(** ** Rolling back to an earlier tip *)

Lemma dropLoop_closed (n : nat) :
  forall (i : Z) (db : MemDb), closed (snd (dropLoop zeroHash TxHash n i db)) = closed db.
Proof.
  induction n as [|n IH]; intros i db; [reflexivity|].
  rewrite dropLoop_S.
  destruct (index (blocks db) i) as [blk|e|]; [|reflexivity|reflexivity].
  destruct (forM _ _ (txns db)) as [[[]|e|] u]; [|reflexivity|reflexivity].
  rewrite IH. reflexivity.
Qed.

Lemma drop_after_inserts (bs : list MsgBlock) (db0 dbn : MemDb) (sha : Hash) :
  insertAll zeroHash TxHash BlockHash bs db0 = Some dbn ->
  closed db0 = false ->
  len (blocks db0) + len bs < 2147483648 ->
  blocksBySha db0 !! sha = Some (len (blocks db0) - 1) ->
  Forall (fun b => BlockHash b <> sha) bs ->
  exists st,
    DropAfterBlockBySha zeroHash TxHash sha dbn = (Ok tt, st)
    /\ blocks st = blocks db0
    /\ txnsCleared (txns db0) (txns st)
    /\ blocksBySha st = blocksBySha dbn
    /\ closed st = false.
Proof.
  intros Hall Hopen Hlen Hsha Hne.
  destruct (insertAll_facts bs db0 dbn sha Hall Hopen Hne) as (Hbn & Hopn & Hshan).
  rewrite Hsha in Hshan.
  assert (H0 : 0 <= len (blocks db0)) by (unfold len; lia).
  assert (H1 : 0 <= len bs) by (unfold len; lia).
  assert (Hl : len (blocks dbn) - 1 = len (blocks db0) + len bs - 1).
  { rewrite Hbn. unfold len. rewrite length_app. lia. }
  destruct (dropLoop_unwinds bs db0 dbn Hall Hopen dbn Hbn) as (st' & Hst' & Hb' & Hc').
  { apply txnsRel_refl. unfold clearedFlag. auto. }
  assert (Hrun : DropAfterBlockBySha zeroHash TxHash sha dbn = (Ok tt, st')).
  { unfold DropAfterBlockBySha. rewrite Hopn, Hshan, Hl, int32_small by lia.
    replace (Z.to_nat (len (blocks db0) + len bs - 1 - (len (blocks db0) - 1)))
      with (List.length bs) by (unfold len; lia).
    rewrite <- Hl. exact Hst'. }
  exists st'. split; [exact Hrun|]. split; [exact Hb'|]. split; [exact Hc'|].
  pose proof (dropLoop_state (List.length bs) (len (blocks dbn) - 1) dbn) as [Hs _].
  pose proof (dropLoop_closed (List.length bs) (len (blocks dbn) - 1) dbn) as Hcl.
  rewrite Hst' in Hs, Hcl. cbn [snd] in Hs, Hcl. rewrite Hcl. auto.
Qed.

Lemma insertAll_blocks (bs : list MsgBlock) :
  forall db0 dbn : MemDb,
    insertAll zeroHash TxHash BlockHash bs db0 = Some dbn ->
    closed db0 = false ->
    blocks dbn = blocks db0 ++ bs /\ closed dbn = false.
Proof.
  induction bs as [|x xs IH]; intros db0 dbn Hall Hopen.
  - injection Hall as <-. rewrite app_nil_r. auto.
  - cbn [insertAll] in Hall.
    destruct (InsertBlock zeroHash TxHash BlockHash x db0) as [[hx|e|] dbx] eqn:Hx;
      try discriminate.
    apply InsertBlock_Ok in Hx. destruct Hx as (_ & _ & Hbl & _ & Hop & _).
    destruct (IH dbx dbn Hall Hop) as [Hb Hc].
    rewrite Hb, Hbl, <- app_assoc. auto.
Qed.

Lemma insertAll_heights (bs : list MsgBlock) :
  forall (db0 dbn : MemDb) (b : MsgBlock),
    insertAll zeroHash TxHash BlockHash bs db0 = Some dbn ->
    closed db0 = false ->
    len (blocks db0) + len bs < 2147483648 ->
    b ∈ bs ->
    exists k, blocksBySha dbn !! BlockHash b = Some k
              /\ len (blocks db0) <= k < len (blocks db0) + len bs.
Proof.
  induction bs as [|b' bs IH] using rev_ind; intros db0 dbn b Hall Hopen Hlen Hin.
  - apply elem_of_nil in Hin. contradiction.
  - apply insertAll_app in Hall. destruct Hall as (dbm & h & Hall & Hb).
    destruct (insertAll_blocks bs db0 dbm Hall Hopen) as [Hbm _].
    apply InsertBlock_Ok in Hb. destruct Hb as (_ & Hh & _ & Hsha & _).
    assert (H0 : 0 <= len (blocks db0)) by (unfold len; lia).
    assert (H1 : 0 <= len bs) by (unfold len; lia).
    assert (H2 : len (bs ++ [b']) = len bs + 1) by apply len_snoc.
    assert (H3 : len (blocks db0 ++ bs) = len (blocks db0) + len bs).
    { unfold len. rewrite length_app. lia. }
    rewrite H2 in Hlen. rewrite H2.
    rewrite Hbm, H3, int32_small in Hh by lia.
    rewrite Hsha. destruct (decide (BlockHash b' = BlockHash b)) as [E|E].
    + exists h. rewrite E, lookup_insert_eq. split; [reflexivity|lia].
    + rewrite lookup_insert_ne by exact E.
      apply elem_of_app in Hin. destruct Hin as [Hin|Hin].
      * destruct (IH db0 dbm b Hall Hopen ltac:(lia) Hin) as (k & Hk & Hr).
        exists k. split; [exact Hk|lia].
      * apply list_elem_of_singleton in Hin. subst b. contradiction.
Qed.

(** X6.  [DropAfterBlockBySha] undoes any run of accepted inserts: for an
    open store whose tip has the hash [sha], and blocks inserted on top of
    it that each returned a height and differ from the tip in their hash (on
    a chain below 2^31 blocks), dropping after [sha] succeeds; the block
    vector is again the one before the inserts, so that [NewestSha] and
    [FetchHeightRange] answer as they did then; and the transaction map
    holds for every hash the versions it held then (same heights, offsets
    and flag counts), with no spent flag set that was not set then. *)
Theorem DropAfterBlockBySha_undoes_inserts
    (bs : list MsgBlock) (db0 dbn : MemDb) (sha : Hash) (startHeight endHeight : Z) :
  insertAll zeroHash TxHash BlockHash bs db0 = Some dbn ->
  closed db0 = false ->
  len (blocks db0) + len bs < 2147483648 ->
  blocksBySha db0 !! sha = Some (len (blocks db0) - 1) ->
  Forall (fun b => BlockHash b <> sha) bs ->
  exists st,
    DropAfterBlockBySha zeroHash TxHash sha dbn = (Ok tt, st)
    /\ blocks st = blocks db0
    /\ txnsCleared (txns db0) (txns st)
    /\ NewestSha zeroHash BlockHash st = NewestSha zeroHash BlockHash db0
    /\ FetchHeightRange BlockHash startHeight endHeight st
       = FetchHeightRange BlockHash startHeight endHeight db0.
Proof.
  intros Hall Hopen Hlen Hsha Hne.
  destruct (drop_after_inserts bs db0 dbn sha Hall Hopen Hlen Hsha Hne)
    as (st & Hrun & Hbl & Hc & _ & Hcl).
  exists st. split; [exact Hrun|]. split; [exact Hbl|]. split; [exact Hc|].
  unfold NewestSha, FetchHeightRange. rewrite Hbl, Hcl, Hopen. split; reflexivity.
Qed.

(** X7.  The hash of a dropped block stays known and no longer leads to a
    block.  After the rollback of X6, for every block [b] that was dropped,
    [ExistsSha] of its hash still returns true and [FetchBlockHeightBySha]
    still returns a height, which lies beyond the block vector:
    [FetchBlockShaByHeight] refuses that height, and [FetchBlockBySha] and
    [FetchBlockHeaderBySha] of the hash index the block vector out of range
    and panic. *)
Theorem reads_of_dropped_block (bs : list MsgBlock) (db0 dbn st : MemDb) (sha : Hash)
    (b : MsgBlock) :
  insertAll zeroHash TxHash BlockHash bs db0 = Some dbn ->
  closed db0 = false ->
  len (blocks db0) + len bs < 2147483648 ->
  blocksBySha db0 !! sha = Some (len (blocks db0) - 1) ->
  Forall (fun b => BlockHash b <> sha) bs ->
  DropAfterBlockBySha zeroHash TxHash sha dbn = (Ok tt, st) ->
  b ∈ bs ->
  ExistsSha (BlockHash b) st = Ok true
  /\ (exists k, len (blocks st) <= k
                /\ FetchBlockHeightBySha (BlockHash b) st = Ok k
                /\ FetchBlockShaByHeight BlockHash k st = Err ErrHeightNotInRange)
  /\ FetchBlockBySha (BlockHash b) st = Panic
  /\ FetchBlockHeaderBySha (BlockHash b) st = Panic.
Proof.
  intros Hall Hopen Hlen Hsha Hne Hdrop Hin.
  destruct (drop_after_inserts bs db0 dbn sha Hall Hopen Hlen Hsha Hne)
    as (st' & Hrun & Hbl & _ & Hmap & Hcl).
  rewrite Hdrop in Hrun. injection Hrun as <-.
  destruct (insertAll_heights bs db0 dbn b Hall Hopen Hlen Hin) as (k & Hk & Hr).
  assert (H0 : 0 <= len (blocks db0)) by (unfold len; lia).
  assert (H1 : 0 <= len bs) by (unfold len; lia).
  unfold ExistsSha, FetchBlockHeightBySha, FetchBlockShaByHeight, FetchBlockBySha,
    FetchBlockHeaderBySha, blockAt, index.
  rewrite Hcl, Hmap, Hk, Hbl, (int32_small (len (blocks db0))) by lia.
  rewrite int32_small by lia.
  assert (E1 : (len (blocks db0) - 1 <? k) = true) by (apply Z.ltb_lt; lia).
  assert (E2 : (len (blocks db0) <=? k) = true) by (apply Z.leb_le; lia).
  rewrite E2, orb_true_r. cbn.
  split; [reflexivity|]. split; [|auto].
  exists k. rewrite E1, orb_true_r. repeat split. lia.
Qed.

(** ** Transactions of a store built by inserts *)

Lemma entryOk_snoc (bs : list MsgBlock) (b : MsgBlock) (h : Hash) d :
  entryOk TxHash bs h d -> entryOk TxHash (bs ++ [b]) h d.
Proof.
  intros (Hh & Ho & blk & tx & Hb & Ht & E). split; [exact Hh|]. split; [exact Ho|].
  exists blk, tx. split; [|auto]. apply lookup_app_l_Some. exact Hb.
Qed.

Lemma mapOk_snoc (bs : list MsgBlock) (b : MsgBlock) t :
  mapOk TxHash bs t -> mapOk TxHash (bs ++ [b]) t.
Proof.
  intros Hm h l Hl. destruct (Hm h l Hl) as [Hne Hall]. split; [exact Hne|].
  eapply Forall_impl; [exact Hall|]. intros d. apply entryOk_snoc.
Qed.

Lemma spendInput_mapOk (bs : list MsgBlock) (txIn : TxInput) t t1 :
  spendInput txIn t = (Ok tt, t1) -> mapOk TxHash bs t -> mapOk TxHash bs t1.
Proof.
  intros Hs Hm. apply spendInput_Ok in Hs. destruct Hs as (init & d & Hv & _ & ->).
  intros h l Hl. destruct (decide (OutHash (PreviousOutPoint txIn) = h)) as [E|E].
  - rewrite E, lookup_insert_eq in Hl. injection Hl as <-.
    split; [intros Hnil; apply app_eq_nil in Hnil; destruct Hnil; discriminate|].
    unfold versions in Hv. rewrite E in Hv.
    destruct (t !! h) as [l0|] eqn:Hh; cbn in Hv;
      [|symmetry in Hv; apply app_eq_nil in Hv; destruct Hv; discriminate].
    subst l0. destruct (Hm h _ Hh) as [_ Hall].
    apply Forall_app in Hall. destruct Hall as [Hinit Hd].
    apply Forall_app. split; [exact Hinit|].
    constructor; [|constructor]. apply Forall_cons in Hd. destruct Hd as [Hd _]. exact Hd.
  - rewrite lookup_insert_ne in Hl by exact E. exact (Hm h l Hl).
Qed.

Lemma spends_mapOk (bs : list MsgBlock) (tx : MsgTx) (ins : list TxInput) :
  forall t t1,
    forM ins (spendBody zeroHash tx) t = (Ok tt, t1) ->
    mapOk TxHash bs t -> mapOk TxHash bs t1.
Proof.
  induction ins as [|x xs IH]; intros t t1 Hs Hm.
  - injection Hs as <-. exact Hm.
  - cbn [forM] in Hs. apply bindM_inv_Ok in Hs. destruct Hs as ([] & tx1 & Hx & Hxs).
    apply (IH _ _ Hxs). unfold spendBody in Hx.
    destruct (isCoinbaseInput zeroHash x); [injection Hx as <-; exact Hm|].
    apply bindM_inv_Ok in Hx. destruct Hx as (cb & t0 & Hcb & Hx).
    unfold failM in Hcb. injection Hcb as Hcb <-.
    destruct cb; [injection Hx as <-; exact Hm|].
    exact (spendInput_mapOk _ _ _ _ Hx Hm).
Qed.

Lemma insertTx_mapOk (bs : list MsgBlock) (newHeight i : Z) (tx : MsgTx) t t1 :
  insertTx zeroHash TxHash newHeight i tx t = (Ok tt, t1) ->
  (forall fl, entryOk TxHash bs (TxHash tx) (mkTxD newHeight i fl)) ->
  mapOk TxHash bs t -> mapOk TxHash bs t1.
Proof.
  intros Hi Hnew Hm. unfold insertTx in Hi.
  apply bindM_inv_Ok in Hi. destruct Hi as ([] & ta & Ha & Hi). injection Ha as <-.
  assert (Hm' : mapOk TxHash bs (<[TxHash tx := default [] (t !! TxHash tx)
                 ++ [mkTxD newHeight i (replicate (List.length (TxOut tx)) false)]]> t)).
  { intros h l Hl. destruct (decide (TxHash tx = h)) as [E|E].
    - rewrite E, lookup_insert_eq in Hl. injection Hl as <-.
      split; [intros Hnil; apply app_eq_nil in Hnil; destruct Hnil; discriminate|].
      apply Forall_app. split.
      + destruct (t !! h) as [l0|] eqn:Hh; cbn; [exact (proj2 (Hm h l0 Hh))|constructor].
      + constructor; [|constructor]. rewrite <- E. apply Hnew.
    - rewrite lookup_insert_ne in Hl by exact E. exact (Hm h l Hl). }
  apply bindM_inv_Ok in Hi. destruct Hi as (cb & t0 & Hcb & Hi).
  unfold failM in Hcb. injection Hcb as Hcb <-.
  destruct cb; [injection Hi as <-; exact Hm'|].
  exact (spends_mapOk _ _ _ _ _ Hi Hm').
Qed.

Lemma insertTxs_mapOk (bs : list MsgBlock) (blk : MsgBlock) (newHeight : Z) :
  0 <= newHeight ->
  bs !! Z.to_nat newHeight = Some blk ->
  forall (rest : list MsgTx) (i : Z) t t1,
    0 <= i ->
    (forall (j : nat) tx, rest !! j = Some tx ->
                          Transactions blk !! (Z.to_nat i + j)%nat = Some tx) ->
    insertTxs zeroHash TxHash newHeight i rest t = (Ok tt, t1) ->
    mapOk TxHash bs t -> mapOk TxHash bs t1.
Proof.
  intros Hh Hblk. induction rest as [|tx rest IH]; intros i t t1 Hi Hat Hrun Hm.
  - injection Hrun as <-. exact Hm.
  - cbn [insertTxs] in Hrun. apply bindM_inv_Ok in Hrun.
    destruct Hrun as ([] & ta & Ha & Hrun).
    apply (IH (i + 1) ta t1); [lia| |exact Hrun|].
    + intros j tx' Hj. replace (Z.to_nat (i + 1) + j)%nat with (Z.to_nat i + S j)%nat by lia.
      apply Hat. exact Hj.
    + apply (insertTx_mapOk _ _ _ _ _ _ Ha); [|exact Hm].
      intros fl. split; [exact Hh|]. split; [exact Hi|].
      exists blk, tx. split; [exact Hblk|]. split; [|reflexivity].
      cbn [offset]. specialize (Hat 0%nat tx eq_refl).
      rewrite Nat.add_0_r in Hat. exact Hat.
Qed.

Lemma InsertBlock_wellStored (block : MsgBlock) (db db1 : MemDb) (newHeight : Z) :
  InsertBlock zeroHash TxHash BlockHash block db = (Ok newHeight, db1) ->
  len (blocks db) < 2147483648 ->
  wellStored TxHash db -> wellStored TxHash db1.
Proof.
  intros Hins Hlen Hw. apply InsertBlock_Ok in Hins.
  destruct Hins as (_ & Hh & Hbl & _ & _ & Hrun).
  assert (H0 : 0 <= len (blocks db)) by (unfold len; lia).
  rewrite int32_small in Hh by lia. subst newHeight.
  unfold wellStored. rewrite Hbl.
  apply (insertTxs_mapOk (blocks db ++ [block]) block (len (blocks db)) H0) with
    (rest := Transactions block) (i := 0) (t := txns db); [| | |exact Hrun|].
  - unfold len. rewrite Nat2Z.id. apply list_lookup_middle. reflexivity.
  - lia.
  - intros j tx Hj. exact Hj.
  - apply mapOk_snoc. exact Hw.
Qed.

Lemma insertAll_wellStored (bs : list MsgBlock) :
  forall db0 dbn : MemDb,
    insertAll zeroHash TxHash BlockHash bs db0 = Some dbn ->
    closed db0 = false ->
    len (blocks db0) + len bs <= 2147483648 ->
    wellStored TxHash db0 ->
    wellStored TxHash dbn /\ closed dbn = false.
Proof.
  induction bs as [|x xs IH]; intros db0 dbn Hall Hopen Hlen Hw.
  - injection Hall as <-. auto.
  - cbn [insertAll] in Hall.
    destruct (InsertBlock zeroHash TxHash BlockHash x db0) as [[hx|e|] dbx] eqn:Hx;
      try discriminate.
    assert (Hl : len (x :: xs) = len xs + 1) by (unfold len; cbn [List.length]; lia).
    assert (H1 : 0 <= len xs) by (unfold len; lia).
    pose proof (InsertBlock_wellStored _ _ _ _ Hx ltac:(lia) Hw) as Hwx.
    apply InsertBlock_Ok in Hx. destruct Hx as (_ & _ & Hbl & _ & Hop & _).
    apply (IH dbx dbn Hall Hop); [|exact Hwx].
    rewrite Hbl, len_snoc. lia.
Qed.

Lemma wellStored_new : wellStored TxHash (newMemDb (Hash:=Hash)).
Proof. intros h l Hl. cbn in Hl. rewrite lookup_empty in Hl. discriminate. Qed.

Lemma replyFor_entryOk (db : MemDb) (h : Hash) d :
  entryOk TxHash (blocks db) h d ->
  exists blk tx,
    blocks db !! Z.to_nat (blockHeight d) = Some blk
    /\ Transactions blk !! Z.to_nat (offset d) = Some tx
    /\ TxHash tx = h
    /\ replyFor BlockHash db h d
       = Ok (mkReply h (Some tx) (Some (BlockHash blk)) (blockHeight d) (spentBuf d) None).
Proof.
  intros (Hh & Ho & blk & tx & Hb & Ht & E). exists blk, tx.
  split; [exact Hb|]. split; [exact Ht|]. split; [exact E|].
  unfold replyFor.
  rewrite <- (Z2Nat.id (blockHeight d)) at 1 by exact Hh.
  rewrite (index_lookup _ _ _ Hb). cbn.
  rewrite <- (Z2Nat.id (offset d)) at 1 by exact Ho.
  rewrite (index_lookup _ _ _ Ht). reflexivity.
Qed.

(** X8.  On a store built from a fresh one by inserts that each returned a
    height (fewer than 2^31 blocks), [FetchTxBySha] never panics: for a hash
    that is no key of the transaction map it returns [ErrTxShaMissing], and
    otherwise the hash has at least one version and the result has one reply
    per version, oldest first, each without error, with the requested hash,
    the height and the spent flags of the version, the hash of the block
    stored at that height, and a transaction of that block whose hash is the
    requested one. *)
Theorem FetchTxBySha_after_inserts (bs : list MsgBlock) (db : MemDb) (txHash : Hash) :
  insertAll zeroHash TxHash BlockHash bs newMemDb = Some db ->
  len bs < 2147483648 ->
  match txns db !! txHash with
  | None => FetchTxBySha BlockHash txHash db = Err ErrTxShaMissing
  | Some versions =>
      versions <> []
      /\ exists replies,
           FetchTxBySha BlockHash txHash db = Ok replies
           /\ Forall2 (fun d reply =>
                         Sha reply = txHash
                         /\ ReplyErr reply = None
                         /\ Height reply = blockHeight d
                         /\ TxSpent reply = spentBuf d
                         /\ exists blk tx,
                              blocks db !! Z.to_nat (blockHeight d) = Some blk
                              /\ BlkSha reply = Some (BlockHash blk)
                              /\ tx ∈ Transactions blk
                              /\ Tx reply = Some tx
                              /\ TxHash tx = txHash)
                versions replies
  end.
Proof.
  intros Hall Hlen.
  destruct (insertAll_wellStored bs newMemDb db Hall eq_refl) as [Hw Hop].
  { cbn [blocks newMemDb]. rewrite len_nil_Z. lia. }
  exact wellStored_new.
  unfold FetchTxBySha. rewrite Hop.
  destruct (txns db !! txHash) as [l|] eqn:Hl; [|reflexivity].
  destruct (Hw txHash l Hl) as [Hne Hok]. split; [exact Hne|].
  clear Hl Hne. induction Hok as [|d l Hd _ IH].
  - exists []. split; [reflexivity|constructor].
  - destruct IH as (replies & Hr & Hall2).
    destruct (replyFor_entryOk db txHash d Hd) as (blk & tx & Hb & Ht & E & Hreply).
    exists (mkReply txHash (Some tx) (Some (BlockHash blk)) (blockHeight d) (spentBuf d) None
              :: replies).
    cbn [repliesFor]. rewrite Hreply, Hr. split; [reflexivity|].
    constructor; [|exact Hall2]. cbn. repeat split.
    exists blk, tx. repeat split; auto. apply (list_elem_of_lookup_2 _ _ _ Ht).
Qed.

(** X9.  On such a store the list fetches never panic either, and they
    agree with the other reads: [fetchTxByShaList] returns one reply per
    requested hash, in order and with that hash, whose error is either none
    or [ErrTxShaMissing]; a reply without error carries the hash of a block
    and a transaction with the requested hash.  [FetchTxByShaList] gives a
    reply without error exactly for the hashes that are keys of the
    transaction map, [FetchUnSpentTxByShaList] exactly for the hashes for
    which [ExistsTxSha] returns true. *)
Theorem fetchTxByShaList_after_inserts (bs : list MsgBlock) (db : MemDb)
    (txShaList : list Hash) (includeSpent : bool) :
  insertAll zeroHash TxHash BlockHash bs newMemDb = Some db ->
  len bs < 2147483648 ->
  exists replies,
    fetchTxByShaList BlockHash txShaList includeSpent db = Ok replies
    /\ Forall2 (fun hash reply =>
                  Sha reply = hash
                  /\ (ReplyErr reply = None \/ ReplyErr reply = Some ErrTxShaMissing)
                  /\ replyOk TxHash reply
                  /\ (ReplyErr reply = None <->
                      if includeSpent then is_Some (txns db !! hash)
                      else ExistsTxSha hash db = Ok true))
         txShaList replies.
Proof.
  intros Hall Hlen.
  destruct (insertAll_wellStored bs newMemDb db Hall eq_refl) as [Hw Hop].
  { cbn [blocks newMemDb]. rewrite len_nil_Z. lia. }
  exact wellStored_new.
  induction txShaList as [|hash rest IH].
  - exists []. split; [reflexivity|constructor].
  - destruct IH as (replies & Hr & Hall2).
    assert (Hone : exists reply,
               fetchOne BlockHash db includeSpent hash = Ok reply
               /\ Sha reply = hash
               /\ (ReplyErr reply = None \/ ReplyErr reply = Some ErrTxShaMissing)
               /\ replyOk TxHash reply
               /\ (ReplyErr reply = None <->
                   if includeSpent then is_Some (txns db !! hash)
                   else ExistsTxSha hash db = Ok true)).
    { unfold fetchOne, ExistsTxSha. rewrite Hop.
      destruct (txns db !! hash) as [l|] eqn:Hl.
      - destruct (Hw hash l Hl) as [Hne Hok].
        destruct (last l) as [d|] eqn:Hlast; [|apply last_None in Hlast; contradiction].
        assert (Hd : entryOk TxHash (blocks db) hash d).
        { apply last_Some in Hlast. destruct Hlast as [init ->].
          apply Forall_app in Hok. destruct Hok as [_ Hok].
          apply Forall_cons in Hok. exact (proj1 Hok). }
        destruct (replyFor_entryOk db hash d Hd) as (blk & tx & _ & _ & E & Hreply).
        destruct includeSpent; cbn [negb andb].
        + eexists. split; [exact Hreply|]. cbn. repeat split; eauto.
        + destruct (isFullySpent d).
          * eexists. split; [reflexivity|]. cbn.
            repeat split; auto; try discriminate.
          * eexists. split; [exact Hreply|]. cbn. repeat split; eauto.
      - eexists. split; [reflexivity|]. cbn.
        repeat split; auto; try discriminate. destruct includeSpent; [intros [? ?]|intros ?]; discriminate. }
    destruct Hone as (reply & Hone & Hprops).
    exists (reply :: replies). cbn [fetchTxByShaList]. rewrite Hone, Hr.
    split; [reflexivity|]. constructor; [exact Hprops|exact Hall2].
Qed.

(** ** Reads by height and by hash *)

(** X10.  The three reads by height agree on every open store below 2^31
    blocks: [FetchHeightRange] from height 0 returns the hashes of all
    blocks in order; [FetchBlockShaByHeight] returns the entry of that list
    at the given height, and refuses every height outside it; and
    [NewestSha] returns its last entry with the height of that entry, or
    the zero hash and -1 when the list is empty. *)
Theorem reads_by_height_agree (db : MemDb) (endHeight height : Z) :
  closed db = false ->
  len (blocks db) < 2147483648 ->
  FetchHeightRange BlockHash 0 endHeight db = Ok (map BlockHash (blocks db))
  /\ FetchBlockShaByHeight BlockHash height db
     = (if height <? 0 then Err ErrHeightNotInRange
        else match map BlockHash (blocks db) !! Z.to_nat height with
             | Some sha => Ok sha
             | None => Err ErrHeightNotInRange
             end)
  /\ NewestSha zeroHash BlockHash db
     = Ok (default zeroHash (last (map BlockHash (blocks db))), len (blocks db) - 1).
Proof.
  intros Hopen Hlen.
  assert (H0 : 0 <= len (blocks db)) by (unfold len; lia).
  split; [|split].
  - unfold FetchHeightRange. rewrite Hopen, !int32_small by lia.
    destruct (len (blocks db) <? 0) eqn:E; [apply Z.ltb_lt in E; lia|]. cbn [Z.ltb Z.compare].
    change 0 with (Z.of_nat 0) at 2.
    rewrite fetchLoop_all by (unfold len; lia). rewrite drop_0. reflexivity.
  - unfold FetchBlockShaByHeight, blockAt.
    rewrite Hopen, (int32_small (len (blocks db))) by lia. rewrite int32_small by lia.
    destruct (height <? 0) eqn:E1; [reflexivity|]. apply Z.ltb_ge in E1. cbn [orb].
    rewrite list_lookup_fmap.
    destruct (len (blocks db) - 1 <? height) eqn:E2.
    + apply Z.ltb_lt in E2. rewrite lookup_ge_None_2 by (unfold len in E2; lia). reflexivity.
    + apply Z.ltb_ge in E2.
      destruct (lookup_lt_is_Some_2 (blocks db) (Z.to_nat height)) as [b Hb];
        [unfold len in E2; lia|].
      rewrite Hb. cbn. rewrite <- (Z2Nat.id height) at 1 by lia.
      rewrite (index_lookup _ _ _ Hb). reflexivity.
  - unfold NewestSha. rewrite Hopen, fmap_last.
    destruct (len (blocks db) =? 0) eqn:E.
    + apply Z.eqb_eq in E. destruct (blocks db); [|unfold len in E; simpl in E; lia].
      reflexivity.
    + apply Z.eqb_neq in E. rewrite last_lookup.
      destruct (lookup_lt_is_Some_2 (blocks db) (Nat.pred (List.length (blocks db))))
        as [b Hb]; [unfold len in E; lia|].
      rewrite Hb. cbn.
      replace (len (blocks db) - 1) with (Z.of_nat (Nat.pred (List.length (blocks db))))
        by (unfold len in *; lia).
      rewrite (index_lookup _ _ _ Hb). cbn. rewrite int32_small by (unfold len in *; lia).
      reflexivity.
Qed.

Lemma insertAll_index (bs : list MsgBlock) :
  forall (db0 dbn : MemDb) (i : nat) (b : MsgBlock),
    insertAll zeroHash TxHash BlockHash bs db0 = Some dbn ->
    closed db0 = false ->
    len (blocks db0) + len bs < 2147483648 ->
    NoDup (map BlockHash bs) ->
    bs !! i = Some b ->
    blocksBySha dbn !! BlockHash b = Some (len (blocks db0) + Z.of_nat i).
Proof.
  induction bs as [|b' bs IH] using rev_ind; intros db0 dbn i b Hall Hopen Hlen Hnd Hi;
    [discriminate|].
  apply insertAll_app in Hall. destruct Hall as (dbm & h & Hall & Hb).
  destruct (insertAll_blocks bs db0 dbm Hall Hopen) as [Hbm _].
  apply InsertBlock_Ok in Hb. destruct Hb as (_ & Hh & _ & Hsha & _).
  assert (H0 : 0 <= len (blocks db0)) by (unfold len; lia).
  assert (H1 : 0 <= len bs) by (unfold len; lia).
  assert (H2 : len (bs ++ [b']) = len bs + 1) by apply len_snoc.
  assert (H3 : len (blocks db0 ++ bs) = len (blocks db0) + len bs).
  { unfold len. rewrite length_app. lia. }
  rewrite H2 in Hlen. rewrite Hbm, H3, int32_small in Hh by lia.
  rewrite map_app in Hnd. apply NoDup_app in Hnd. destruct Hnd as (Hnd & Hfresh & _).
  rewrite Hsha. destruct (decide (i < List.length bs)%nat) as [Hlt|Hge].
  - rewrite lookup_app_l in Hi by exact Hlt.
    assert (Hne : BlockHash b' <> BlockHash b).
    { intros E. apply (Hfresh (BlockHash b)).
      - apply list_elem_of_fmap. exists b. split; [reflexivity|].
        apply (list_elem_of_lookup_2 _ _ _ Hi).
      - cbn [map]. rewrite E. apply list_elem_of_here. }
    rewrite lookup_insert_ne by exact Hne.
    apply (IH db0 dbm i b Hall Hopen ltac:(lia) Hnd Hi).
  - pose proof (lookup_lt_Some _ _ _ Hi) as Hb. rewrite length_app in Hb. cbn in Hb.
    assert (i = List.length bs) by lia. subst i.
    rewrite list_lookup_middle in Hi by reflexivity. injection Hi as <-.
    rewrite lookup_insert_eq. f_equal. unfold len in *. lia.
Qed.

(** X11.  On a chain of blocks with pairwise distinct hashes, built from a
    fresh store by inserts that each returned a height (fewer than 2^31
    blocks), reads by hash and by height are inverse to each other for
    every block, not only the newest: for the block at position [i],
    [FetchBlockBySha] of its hash returns that block with height [i],
    [FetchBlockHeaderBySha] its header, [FetchBlockHeightBySha] the height
    [i], [ExistsSha] true, and [FetchBlockShaByHeight] at [i] its hash. *)
Theorem stored_blocks_read_back (bs : list MsgBlock) (db : MemDb) (i : nat) (b : MsgBlock) :
  insertAll zeroHash TxHash BlockHash bs newMemDb = Some db ->
  len bs < 2147483648 ->
  NoDup (map BlockHash bs) ->
  bs !! i = Some b ->
  FetchBlockBySha (BlockHash b) db = Ok (b, Z.of_nat i)
  /\ FetchBlockHeaderBySha (BlockHash b) db = Ok (Header b)
  /\ FetchBlockHeightBySha (BlockHash b) db = Ok (Z.of_nat i)
  /\ ExistsSha (BlockHash b) db = Ok true
  /\ FetchBlockShaByHeight BlockHash (Z.of_nat i) db = Ok (BlockHash b).
Proof.
  intros Hall Hlen Hnd Hi.
  destruct (insertAll_blocks bs newMemDb db Hall eq_refl) as [Hbl Hop].
  cbn [blocks newMemDb app] in Hbl.
  pose proof (insertAll_index bs newMemDb db i b Hall eq_refl) as Hix.
  cbn [blocks newMemDb] in Hix. rewrite len_nil_Z in Hix.
  specialize (Hix ltac:(lia) Hnd Hi). rewrite Z.add_0_l in Hix.
  pose proof (lookup_lt_Some _ _ _ Hi) as Hlt.
  assert (Hread : forall E, index (E:=E) (blocks db) (Z.of_nat i) = Ok b).
  { intros E. apply index_lookup. rewrite Hbl. exact Hi. }
  unfold FetchBlockBySha, FetchBlockHeaderBySha, FetchBlockHeightBySha, ExistsSha,
    FetchBlockShaByHeight, blockAt.
  assert (H0 : 0 <= len bs) by (unfold len; lia).
  rewrite Hop, Hix, !Hread, Hbl, (int32_small (len bs)) by lia.
  rewrite int32_small by lia.
  destruct (Z.of_nat i <? 0) eqn:E1; [apply Z.ltb_lt in E1; lia|].
  destruct (len bs - 1 <? Z.of_nat i) eqn:E2; [apply Z.ltb_lt in E2; unfold len in E2; lia|].
  cbn. repeat split.
Qed.

(** ** Rolling back restores the flags that no later block had found set *)

Lemma flags_set (fl : list bool) (i : nat) : Forall2 keptFlag fl (<[i := true]> fl).
Proof.
  apply Forall2_same_length_lookup. split; [rewrite length_insert; reflexivity|].
  intros j x y Hx Hy. unfold keptFlag. intros ->.
  destruct (decide (i = j)) as [->|Hne].
  - rewrite list_lookup_insert_eq in Hy by (eapply lookup_lt_Some; exact Hx). congruence.
  - rewrite list_lookup_insert_ne in Hy by exact Hne. congruence.
Qed.

Lemma flags_kept_clear (a fl : list bool) (i : nat) :
  Forall2 keptFlag a fl -> a !! i = Some false -> Forall2 keptFlag a (<[i := false]> fl).
Proof.
  intros HF Ha. apply Forall2_same_length_lookup in HF. destruct HF as [Hl HF].
  apply Forall2_same_length_lookup. split; [rewrite length_insert; exact Hl|].
  intros j x y Hx Hy. unfold keptFlag. intros ->.
  destruct (decide (i = j)) as [->|Hne]; [congruence|].
  rewrite list_lookup_insert_ne in Hy by exact Hne.
  exact (HF j true y Hx Hy eq_refl).
Qed.

Lemma txnsKept_refl t : txnsKept t t.
Proof. apply txnsRel_refl. unfold keptFlag. auto. Qed.

Lemma txnsKept_trans t1 t2 t3 : txnsKept t1 t2 -> txnsKept t2 t3 -> txnsKept t1 t3.
Proof. apply txnsRel_trans. unfold keptFlag. auto. Qed.

Lemma spendInput_kept (txIn : TxInput) t t1 :
  spendInput txIn t = (Ok tt, t1) -> txnsKept t t1.
Proof.
  intros Hs. apply spendInput_Ok in Hs. destruct Hs as (init & d & Hv & _ & ->).
  intros k. rewrite versions_insert. destruct (decide (_ = k)) as [<-|Hne].
  - rewrite Hv. apply Forall2_app.
    + apply versionsRel_refl. unfold keptFlag. auto.
    + constructor; [|constructor]. repeat split. cbn [spentBuf withFlag]. apply flags_set.
  - apply versionsRel_refl. unfold keptFlag. auto.
Qed.

Lemma spends_kept (tx : MsgTx) (ins : list TxInput) :
  forall t t1, forM ins (spendBody zeroHash tx) t = (Ok tt, t1) -> txnsKept t t1.
Proof.
  induction ins as [|x xs IH]; intros t t1 Hs.
  - injection Hs as <-. apply txnsKept_refl.
  - cbn [forM] in Hs. apply bindM_inv_Ok in Hs. destruct Hs as ([] & tx1 & Hx & Hxs).
    eapply txnsKept_trans; [|exact (IH _ _ Hxs)].
    unfold spendBody in Hx.
    destruct (isCoinbaseInput zeroHash x); [injection Hx as <-; apply txnsKept_refl|].
    apply bindM_inv_Ok in Hx. destruct Hx as (cb & t0 & Hcb & Hx).
    unfold failM in Hcb. injection Hcb as Hcb <-.
    destruct cb; [injection Hx as <-; apply txnsKept_refl|].
    exact (spendInput_kept _ _ _ Hx).
Qed.

Lemma versionsRel_snoc_r (R : bool -> bool -> Prop) (l : list tTxInsertData)
    (init' : list tTxInsertData) d' :
  Forall2 (entryRel R) l (init' ++ [d']) ->
  exists init d, l = init ++ [d] /\ Forall2 (entryRel R) init init' /\ entryRel R d d'.
Proof.
  intros HF. apply Forall2_app_inv_r in HF.
  destruct HF as (init & k & Hinit & Hk & ->).
  apply Forall2_cons_inv_r in Hk. destruct Hk as (d & k' & Hd & Hk' & ->).
  apply Forall2_nil_inv_r in Hk'. subst k'. eauto.
Qed.

(** Undoing a spend keeps every flag of a map [a] below, if the flag the
    input refers to is not set in [a]. *)
Lemma unspendInput_kept (a : gmap Hash (list tTxInsertData)) (txIn : TxInput) t u :
  txnsKept a t ->
  flagOf a txIn = Some false ->
  unspendInput txIn t = (Ok tt, u) ->
  txnsKept a u.
Proof.
  intros Hk Hflag. unfold unspendInput.
  set (h := OutHash (PreviousOutPoint txIn)) in *.
  set (index := Index (PreviousOutPoint txIn)) in *.
  destruct (t !! h) as [l|] eqn:Hl; [|intros [= <-]; exact Hk].
  destruct (setSpent false l index) as [l'| |] eqn:Hs; try discriminate.
  intros [= <-]. apply setSpent_Ok in Hs. destruct Hs as (init & d & -> & Hi & ->).
  intros k. rewrite versions_insert. destruct (decide (h = k)) as [<-|Hne]; [|apply Hk].
  specialize (Hk h). unfold versions at 2 in Hk. rewrite Hl in Hk. cbn [default] in Hk.
  change (from_option id [] (Some (init ++ [d]))) with (init ++ [d]) in Hk.
  apply versionsRel_snoc_r in Hk. destruct Hk as (inita & da & Hva & Hinit & Hd).
  unfold flagOf in Hflag. fold h index in Hflag. rewrite Hva, last_snoc in Hflag.
  cbn in Hflag. rewrite Hva. apply Forall2_app; [exact Hinit|].
  constructor; [|constructor]. destruct Hd as (Hh & Ho & Hf).
  repeat split; [exact Hh|exact Ho|]. cbn [spentBuf withFlag].
  apply flags_kept_clear; [exact Hf|exact Hflag].
Qed.

Lemma unspends_kept (a : gmap Hash (list tTxInsertData)) (tx : MsgTx) (ins : list TxInput) :
  (forall txIn, txIn ∈ ins -> isCoinbaseInput zeroHash txIn = false ->
                IsCoinBaseTx zeroHash tx = false -> flagOf a txIn = Some false) ->
  forall t u,
    txnsKept a t ->
    forM ins (unspendBody zeroHash tx) t = (Ok tt, u) ->
    txnsKept a u.
Proof.
  induction ins as [|x xs IH]; intros Hfresh t u Hk Hu.
  - injection Hu as <-. exact Hk.
  - cbn [forM] in Hu. apply bindM_inv_Ok in Hu. destruct Hu as ([] & t1 & Hx & Hxs).
    apply (IH (fun y Hy => Hfresh y (list_elem_of_further _ _ _ Hy)) t1 u); [|exact Hxs].
    unfold unspendBody in Hx.
    destruct (isCoinbaseInput zeroHash x) eqn:Hci; [injection Hx as <-; exact Hk|].
    destruct (IsCoinBaseTx zeroHash tx) eqn:Hcb; [injection Hx as <-; exact Hk|].
    apply (unspendInput_kept a x t t1 Hk); [|exact Hx].
    apply Hfresh; [apply list_elem_of_here|exact Hci|reflexivity].
Qed.

Lemma spendsUnspent_inputs (tx : MsgTx) (a : gmap Hash (list tTxInsertData)) :
  spendsUnspent zeroHash tx a = true ->
  isCoinBaseTx zeroHash tx = Ok false ->
  forall txIn, txIn ∈ TxIn tx -> isCoinbaseInput zeroHash txIn = false ->
               flagOf a txIn = Some false.
Proof.
  unfold spendsUnspent. intros Hs Hcb. rewrite Hcb in Hs.
  intros txIn Hin Hci. rewrite forallb_forall in Hs.
  specialize (Hs txIn (proj1 (list_elem_of_In _ _) Hin)). rewrite Hci in Hs. cbn [orb] in Hs.
  apply bool_decide_eq_true in Hs. exact Hs.
Qed.

Lemma insertTx_removeTx_kept (newHeight i : Z) (tx : MsgTx) t t1 t' u :
  insertTx zeroHash TxHash newHeight i tx t = (Ok tt, t1) ->
  spendsUnspent zeroHash tx
    (<[TxHash tx := default [] (t !! TxHash tx)
         ++ [mkTxD newHeight i (replicate (List.length (TxOut tx)) false)]]> t) = true ->
  txnsKept t1 t' ->
  removeTx zeroHash tx (TxHash tx) t' = (Ok tt, u) ->
  txnsKept t u.
Proof.
  intros Hins Hfresh Hk Hrem. unfold insertTx in Hins.
  apply bindM_inv_Ok in Hins. destruct Hins as ([] & ta & Ha & Hins).
  injection Ha as <-.
  apply bindM_inv_Ok in Hins. destruct Hins as (cb & ta' & Hcb & Hins).
  unfold failM in Hcb. injection Hcb as Hcb <-.
  set (h := TxHash tx) in *.
  set (txD := mkTxD newHeight i (replicate (List.length (TxOut tx)) false)) in *.
  set (ta := <[h := default [] (t !! h) ++ [txD]]> t) in *.
  assert (Hk1 : txnsKept ta t1).
  { destruct cb; [injection Hins as <-; apply txnsKept_refl|].
    exact (spends_kept _ _ _ _ Hins). }
  pose proof (txnsKept_trans _ _ _ Hk1 Hk) as Hk'.
  unfold removeTx in Hrem. apply bindM_inv_Ok in Hrem.
  destruct Hrem as ([] & u0 & Hu0 & Hrem).
  assert (Hk0 : txnsKept ta u0).
  { apply (unspends_kept ta tx (TxIn tx)) with (t := t'); [|exact Hk'|exact Hu0].
    intros txIn Hin Hci Hcbtx. destruct cb.
    - rewrite (isCoinBaseTx_IsCoinBaseTx _ _ Hcb) in Hcbtx. discriminate.
    - exact (spendsUnspent_inputs tx ta Hfresh Hcb txIn Hin Hci). }
  fold (versions u0 h) in Hrem.
  pose proof (Hk0 h) as Hh. unfold ta in Hh at 1. rewrite versions_insert in Hh.
  destruct (decide (h = h)) as [_|]; [|congruence].
  apply versionsRel_snoc in Hh. destruct Hh as (init' & d' & Hv' & Hinit & _).
  rewrite Hv', len_snoc in Hrem.
  destruct (len init' + 1 - 1 <? 0) eqn:E; [discriminate|].
  replace (Z.to_nat (len init' + 1 - 1)) with (List.length init') in Hrem
    by (unfold len; lia).
  rewrite take_app_length in Hrem.
  assert (Hvu : forall k, versions u k = if decide (h = k) then init' else versions u0 k).
  { intros k. destruct (len init' =? 0) eqn:E0; injection Hrem as <-.
    - rewrite versions_delete, versions_insert. destruct (decide (h = k)); [|reflexivity].
      apply Z.eqb_eq in E0. destruct init'; [reflexivity|unfold len in E0; simpl in E0; lia].
    - apply versions_insert. }
  intros k. rewrite Hvu. destruct (decide (h = k)) as [<-|Hne]; [exact Hinit|].
  specialize (Hk0 k). unfold ta in Hk0 at 1. rewrite versions_insert in Hk0.
  destruct (decide (h = k)); [congruence|exact Hk0].
Qed.

Lemma insertTxs_removeTxs_kept (newHeight : Z) (transactions : list MsgTx) :
  forall (i : Z) t t1 t' u,
    insertTxs zeroHash TxHash newHeight i transactions t = (Ok tt, t1) ->
    noRespendTxs zeroHash TxHash newHeight i transactions t = true ->
    txnsKept t1 t' ->
    forM (reverse transactions) (fun tx => removeTx zeroHash tx (TxHash tx)) t' = (Ok tt, u) ->
    txnsKept t u.
Proof.
  induction transactions as [|tx rest IH]; intros i t t1 t' u Hins Hfresh Hk Hrem.
  - injection Hins as <-. injection Hrem as <-. exact Hk.
  - cbn [insertTxs] in Hins. apply bindM_inv_Ok in Hins.
    destruct Hins as ([] & tx1 & Htx & Hrest).
    cbn [noRespendTxs] in Hfresh. rewrite Htx in Hfresh.
    apply andb_true_iff in Hfresh. destruct Hfresh as [Hf1 Hf2].
    rewrite reverse_cons, forM_app in Hrem. apply bindM_inv_Ok in Hrem.
    destruct Hrem as ([] & u1 & Hu1 & Hrem). cbn [forM] in Hrem.
    apply bindM_inv_Ok in Hrem. destruct Hrem as ([] & u2 & Hu2 & Hret).
    injection Hret as <-.
    pose proof (IH _ _ _ _ _ Hrest Hf2 Hk Hu1) as Hk1.
    exact (insertTx_removeTx_kept _ _ _ _ _ _ _ Htx Hf1 Hk1 Hu2).
Qed.

Lemma noRespend_app (bs : list MsgBlock) (b : MsgBlock) :
  forall db dbm : MemDb,
    insertAll zeroHash TxHash BlockHash bs db = Some dbm ->
    noRespend zeroHash TxHash BlockHash (bs ++ [b]) db = true ->
    noRespend zeroHash TxHash BlockHash bs db = true
    /\ noRespendTxs zeroHash TxHash (int32 (len (blocks dbm))) 0 (Transactions b) (txns dbm)
       = true.
Proof.
  induction bs as [|b0 bs IH]; intros db dbm Hall Hfresh.
  - injection Hall as <-. cbn [app noRespend] in Hfresh.
    apply andb_true_iff in Hfresh. destruct Hfresh as [Hf _]. auto.
  - cbn [app noRespend insertAll] in *.
    apply andb_true_iff in Hfresh. destruct Hfresh as [Hf Hrest]. rewrite Hf.
    destruct (InsertBlock zeroHash TxHash BlockHash b0 db) as [[h|e|] db'];
      try discriminate.
    exact (IH _ _ Hall Hrest).
Qed.

Lemma dropLoop_kept (bs : list MsgBlock) :
  forall db0 dbn : MemDb,
    insertAll zeroHash TxHash BlockHash bs db0 = Some dbn ->
    closed db0 = false ->
    noRespend zeroHash TxHash BlockHash bs db0 = true ->
    forall st st' : MemDb,
      blocks st = blocks db0 ++ bs ->
      txnsKept (txns dbn) (txns st) ->
      dropLoop zeroHash TxHash (List.length bs) (len (blocks st) - 1) st = (Ok tt, st') ->
      txnsKept (txns db0) (txns st').
Proof.
  induction bs as [|b bs IH] using rev_ind; intros db0 dbn Hall Hopen Hfresh st st' Hbl Hk Hrun.
  - injection Hall as <-. injection Hrun as <-. exact Hk.
  - pose proof Hall as Hall'. apply insertAll_app in Hall'.
    destruct Hall' as (dbm & h & Hallm & Hb).
    destruct (noRespend_app bs b db0 dbm Hallm Hfresh) as [Hfm Hfb].
    apply InsertBlock_Ok in Hb. destruct Hb as (_ & Hh & _ & _ & _ & Hins). subst h.
    rewrite length_app in Hrun. cbn [List.length] in Hrun. rewrite Nat.add_1_r in Hrun.
    rewrite dropLoop_S in Hrun.
    assert (Hlen : len (blocks st) - 1 = Z.of_nat (List.length (blocks db0 ++ bs))).
    { rewrite Hbl, app_assoc, len_snoc. unfold len. lia. }
    assert (Hlk : blocks st !! List.length (blocks db0 ++ bs) = Some b).
    { rewrite Hbl, app_assoc. apply list_lookup_middle. reflexivity. }
    rewrite Hlen, (index_lookup _ _ _ Hlk) in Hrun.
    destruct (forM (reverse (Transactions b))
                (fun tx => removeTx zeroHash tx (TxHash tx)) (txns st))
      as [[[]|e|] u] eqn:Hrem; try discriminate.
    pose proof (insertTxs_removeTxs_kept _ _ _ _ _ _ _ Hins Hfb Hk Hrem) as Hku.
    set (st2 := mkMemDb (take (Z.to_nat (Z.of_nat (List.length (blocks db0 ++ bs)))) (blocks st))
                  (blocksBySha st) u (closed st)) in Hrun.
    assert (Hbl2 : blocks st2 = blocks db0 ++ bs).
    { subst st2. cbn [blocks]. rewrite Nat2Z.id, Hbl, app_assoc. apply take_app_length. }
    apply (IH db0 dbm Hallm Hopen Hfm st2 st' Hbl2 Hku).
    rewrite <- Hrun. f_equal. rewrite Hbl2. unfold len. lia.
Qed.

(** ** Keys of the transaction map keep a version *)

Lemma wellStored_noEmptyKey (db : MemDb) : wellStored TxHash db -> noEmptyKey (txns db).
Proof. intros Hw h l Hl. exact (proj1 (Hw h l Hl)). Qed.

Lemma unspendInput_noEmptyKey (txIn : TxInput) t u :
  noEmptyKey t -> unspendInput txIn t = (Ok tt, u) -> noEmptyKey u.
Proof.
  intros Hn. unfold unspendInput.
  destruct (t !! OutHash (PreviousOutPoint txIn)) as [l|] eqn:Hl; [|intros [= <-]; exact Hn].
  destruct (setSpent false l _) as [l'| |] eqn:Hs; try discriminate.
  intros [= <-]. apply setSpent_Ok in Hs. destruct Hs as (init & d & -> & _ & ->).
  intros k v Hv. destruct (decide (OutHash (PreviousOutPoint txIn) = k)) as [<-|Hne].
  - rewrite lookup_insert_eq in Hv. injection Hv as <-.
    intros Hnil. apply (f_equal (@List.length _)) in Hnil.
    rewrite length_app in Hnil. cbn [List.length] in Hnil. lia.
  - rewrite lookup_insert_ne in Hv by exact Hne. exact (Hn k v Hv).
Qed.

Lemma unspends_noEmptyKey (tx : MsgTx) (ins : list TxInput) :
  forall t u, noEmptyKey t -> forM ins (unspendBody zeroHash tx) t = (Ok tt, u) -> noEmptyKey u.
Proof.
  induction ins as [|x xs IH]; intros t u Hn Hu.
  - injection Hu as <-. exact Hn.
  - cbn [forM] in Hu. apply bindM_inv_Ok in Hu. destruct Hu as ([] & t1 & Hx & Hxs).
    apply (IH t1 u); [|exact Hxs]. unfold unspendBody in Hx.
    destruct (isCoinbaseInput zeroHash x); [injection Hx as <-; exact Hn|].
    destruct (IsCoinBaseTx zeroHash tx); [injection Hx as <-; exact Hn|].
    exact (unspendInput_noEmptyKey x t t1 Hn Hx).
Qed.

Lemma removeTx_noEmptyKey (tx : MsgTx) (h : Hash) t u :
  noEmptyKey t -> removeTx zeroHash tx h t = (Ok tt, u) -> noEmptyKey u.
Proof.
  intros Hn Hrem. unfold removeTx in Hrem. apply bindM_inv_Ok in Hrem.
  destruct Hrem as ([] & u0 & Hu0 & Hrem).
  pose proof (unspends_noEmptyKey tx (TxIn tx) t u0 Hn Hu0) as Hn0.
  destruct (len (default [] (u0 !! h)) - 1 <? 0); [discriminate|].
  destruct (len (take _ _) =? 0) eqn:E; injection Hrem as <-; intros k v Hv.
  - destruct (decide (h = k)) as [<-|Hne].
    + rewrite lookup_delete_eq in Hv. discriminate.
    + rewrite lookup_delete_ne, lookup_insert_ne in Hv by exact Hne. exact (Hn0 k v Hv).
  - destruct (decide (h = k)) as [<-|Hne].
    + rewrite lookup_insert_eq in Hv. injection Hv as <-.
      intros Hnil. rewrite Hnil in E. discriminate.
    + rewrite lookup_insert_ne in Hv by exact Hne. exact (Hn0 k v Hv).
Qed.

Lemma removeTxs_noEmptyKey (transactions : list MsgTx) :
  forall t u,
    noEmptyKey t ->
    forM transactions (fun tx => removeTx zeroHash tx (TxHash tx)) t = (Ok tt, u) ->
    noEmptyKey u.
Proof.
  induction transactions as [|tx rest IH]; intros t u Hn Hu.
  - injection Hu as <-. exact Hn.
  - cbn [forM] in Hu. apply bindM_inv_Ok in Hu. destruct Hu as ([] & t1 & Hx & Hxs).
    exact (IH t1 u (removeTx_noEmptyKey tx (TxHash tx) t t1 Hn Hx) Hxs).
Qed.

Lemma dropLoop_noEmptyKey (n : nat) :
  forall (i : Z) (db st : MemDb),
    noEmptyKey (txns db) ->
    dropLoop zeroHash TxHash n i db = (Ok tt, st) ->
    noEmptyKey (txns st).
Proof.
  induction n as [|n IH]; intros i db st Hn Hrun.
  - injection Hrun as <-. exact Hn.
  - rewrite dropLoop_S in Hrun.
    destruct (index (blocks db) i) as [blk|e|]; try discriminate.
    destruct (forM _ _ (txns db)) as [[[]|e|] u] eqn:Hrem; try discriminate.
    apply (IH _ _ st) in Hrun; [exact Hrun|].
    exact (removeTxs_noEmptyKey _ _ _ Hn Hrem).
Qed.

(** ** Flags neither set nor cleared *)

Lemma Forall2_both_eq {A} (R R' : A -> A -> Prop) (l l' : list A) :
  (forall x y, R x y -> R' x y -> x = y) ->
  Forall2 R l l' -> Forall2 R' l l' -> l = l'.
Proof.
  intros Heq HR. induction HR as [|x y l l' Hxy _ IH]; intros HR'; [reflexivity|].
  apply Forall2_cons_1 in HR'. destruct HR' as [Hxy' HR'].
  rewrite (Heq x y Hxy Hxy'), (IH HR'). reflexivity.
Qed.

Lemma cleared_kept_flags (fl fl' : list bool) :
  Forall2 clearedFlag fl fl' -> Forall2 keptFlag fl fl' -> fl = fl'.
Proof.
  apply Forall2_both_eq. unfold clearedFlag, keptFlag.
  intros [] []; intuition congruence.
Qed.

Lemma cleared_kept_versions (t u : gmap Hash (list tTxInsertData)) :
  txnsCleared t u -> txnsKept t u -> forall k, versions t k = versions u k.
Proof.
  intros Hc Hk k. refine (Forall2_both_eq _ _ _ _ _ (Hc k) (Hk k)).
  intros [bh off fl] [bh' off' fl'] (Hh & Ho & Hf) (_ & _ & Hf').
  cbn [blockHeight offset spentBuf] in *. subst bh' off'. f_equal.
  exact (cleared_kept_flags fl fl' Hf Hf').
Qed.

Lemma versions_eq_map (t u : gmap Hash (list tTxInsertData)) :
  noEmptyKey t -> noEmptyKey u -> (forall k, versions t k = versions u k) -> t = u.
Proof.
  intros Ht Hu Hv. apply map_eq. intros k. specialize (Hv k). unfold versions in Hv.
  destruct (t !! k) as [l|] eqn:Hl; destruct (u !! k) as [l'|] eqn:Hl';
    cbn [default from_option id] in Hv.
  - congruence.
  - subst l. destruct (Ht k [] Hl eq_refl).
  - subst l'. destruct (Hu k [] Hl' eq_refl).
  - reflexivity.
Qed.

(** ** Insert and roll back *)

(** C1 (as amended).  After a fresh store has taken a genesis block and then
    any sequence of blocks, each insert returning a height, dropping
    everything after the genesis block succeeds and leaves the genesis block
    alone in the block vector; the transaction map then holds, for every
    hash, the versions it held right after the genesis insert, with the same
    heights, offsets and flag counts, and with no spent flag set that was
    not set then; and when no input of the later blocks refers to an output
    that is already marked spent at the time its transaction is recorded,
    the transaction map is the very map of the store after the genesis
    insert.  The later blocks are taken to differ from the genesis block in
    their hash, and the chain to stay below 2^31 blocks.  Beside that, on
    every store, [InsertBlock], [DropAfterBlockBySha] and [Close] keep the
    hash of every block of the vector a key of the blocks-by-hash map; and
    [InsertBlock] of a block whose hash is not yet a key, and [Close], keep
    the vector as long as that map is large. *)
Theorem drop_to_genesis :
  (forall (G : MsgBlock) (bs : list MsgBlock) (h : Z) (db1 dbn : MemDb),
      InsertBlock zeroHash TxHash BlockHash G newMemDb = (Ok h, db1) ->
      insertAll zeroHash TxHash BlockHash bs db1 = Some dbn ->
      Forall (fun b => BlockHash b <> BlockHash G) bs ->
      len bs + 1 < 2147483648 ->
      exists db',
        DropAfterBlockBySha zeroHash TxHash (BlockHash G) dbn = (Ok tt, db')
        /\ blocks db' = [G]
        /\ txnsCleared (txns db1) (txns db')
        /\ (noRespend zeroHash TxHash BlockHash bs db1 = true -> txns db' = txns db1))
  /\ (forall (db : MemDb) (b : MsgBlock) (sha : Hash),
         hashesKnown BlockHash db ->
         hashesKnown BlockHash (snd (InsertBlock zeroHash TxHash BlockHash b db))
         /\ hashesKnown BlockHash (snd (DropAfterBlockBySha zeroHash TxHash sha db))
         /\ hashesKnown BlockHash (snd (Close db)))
  /\ (forall (db : MemDb) (b : MsgBlock),
         lengthIsSize db ->
         blocksBySha db !! BlockHash b = None ->
         lengthIsSize (snd (InsertBlock zeroHash TxHash BlockHash b db)))
  /\ (forall db : MemDb, lengthIsSize db -> lengthIsSize (snd (Close (Hash:=Hash) db))).
Proof.
  split; [|split; [|split]].
  - intros G bs h db1 dbn HG Hall Hne Hlen.
    pose proof (InsertBlock_wellStored _ _ _ _ HG eq_refl wellStored_new) as Hw1.
    apply InsertBlock_Ok in HG. destruct HG as (_ & Hh & Hbl & Hsha & Hop & _).
    cbn [blocks blocksBySha newMemDb app] in Hh, Hbl, Hsha.
    change (int32 (len [])) with 0 in Hh. subst h.
    destruct (insertAll_facts bs db1 dbn (BlockHash G) Hall Hop Hne) as (Hbn & Hopn & Hshan).
    rewrite Hsha, lookup_insert_eq in Hshan.
    assert (H0 : 0 <= len bs) by (unfold len; lia).
    assert (Hl1 : len (blocks db1) = 1) by (rewrite Hbl; reflexivity).
    destruct (insertAll_wellStored bs db1 dbn Hall Hop ltac:(lia) Hw1) as [Hwn _].
    unfold DropAfterBlockBySha. rewrite Hopn, Hshan.
    assert (Hl : len (blocks dbn) - 1 = len bs).
    { rewrite Hbn, Hbl. unfold len. cbn [app List.length]. lia. }
    rewrite Hl, int32_small by lia.
    replace (Z.to_nat (len bs - 0)) with (List.length bs) by (unfold len; lia).
    rewrite <- Hl.
    destruct (dropLoop_unwinds bs db1 dbn Hall Hop dbn Hbn) as (st' & Hst' & Hb' & Hc').
    { apply txnsRel_refl. unfold clearedFlag. auto. }
    exists st'. rewrite Hb', Hbl. split; [exact Hst'|]. split; [reflexivity|].
    split; [exact Hc'|]. intros Hfresh. symmetry. apply versions_eq_map.
    + exact (wellStored_noEmptyKey db1 Hw1).
    + exact (dropLoop_noEmptyKey _ _ _ _ (wellStored_noEmptyKey dbn Hwn) Hst').
    + apply cleared_kept_versions; [exact Hc'|].
      exact (dropLoop_kept bs db1 dbn Hall Hop Hfresh dbn st' Hbn
               (txnsKept_refl _) Hst').
  - intros db b sha Hk. split; [|split].
    + apply hashesKnown_InsertBlock, Hk.
    + apply hashesKnown_Drop, Hk.
    + destruct (hashesKnown_Close db) as [Hc|Hc]; [exact Hc|rewrite Hc; exact Hk].
  - intros db b Hls Hnew. exact (lengthIsSize_InsertBlock b db Hnew Hls).
  - intros db Hls. exact (lengthIsSize_Close db Hls).
Qed.

End Store.


(** ** The scenarios of section 8 *)

Section Scenarios.
Import Vectors.

(** S4, for C1: [G], [B1] and [B2] are inserted and everything after [G] is
    dropped; no input of [B1] and [B2] refers to a spent output, and the
    transaction map is again the one of the store that holds [G] alone.  The
    store left by the drop still has three hashes for its one block: every
    operation on it keeps the hash of that block known. *)
Lemma drop_to_genesis_S4 :
  (exists db',
      DropAfterBlockBySha 0 txHash (blockHash G) dbB2 = (Ok tt, db')
      /\ blocks db' = [G]
      /\ txnsCleared (txns dbG) (txns db')
      /\ txns db' = txns dbG)
  /\ (hashesKnown blockHash
        (snd (InsertBlock 0 txHash blockHash B1
                (snd (DropAfterBlockBySha 0 txHash (blockHash G) dbB2))))
      /\ hashesKnown blockHash
           (snd (DropAfterBlockBySha 0 txHash 1
                   (snd (DropAfterBlockBySha 0 txHash (blockHash G) dbB2))))
      /\ hashesKnown blockHash
           (snd (Close (snd (DropAfterBlockBySha 0 txHash (blockHash G) dbB2)))))
  /\ lengthIsSize (snd (InsertBlock 0 txHash blockHash B1 dbG))
  /\ lengthIsSize (snd (Close dbG)).
Proof.
  destruct (drop_to_genesis 0 txHash blockHash) as (Hroll & Hkeep & Hins & Hclose).
  split; [|split; [|split]].
  - destruct (Hroll G [B1; B2] 0 dbG dbB2) as (db' & Hdrop & Hblocks & Hcleared & Hsame).
    + vm_compute. reflexivity.
    + vm_compute. reflexivity.
    + repeat constructor; vm_compute; discriminate.
    + vm_compute. reflexivity.
    + exists db'. split; [exact Hdrop|]. split; [exact Hblocks|].
      split; [exact Hcleared|]. apply Hsame. vm_compute. reflexivity.
  - apply Hkeep. repeat constructor. vm_compute. eexists. reflexivity.
  - apply Hins; vm_compute; reflexivity.
  - apply Hclose. vm_compute. reflexivity.
Defined.

(** C1 as stated fails on S4: after the drop the store is not a fresh one,
    the genesis block is still in the vector, the blocks-by-hash map still
    holds the three hashes, and the vector is shorter than the map is
    large. *)
Lemma drop_keeps_genesis_and_hashes :
  fst (DropAfterBlockBySha 0 txHash (blockHash G) dbB2) = Ok tt
  /\ snd (DropAfterBlockBySha 0 txHash (blockHash G) dbB2) <> newMemDb
  /\ blocks (snd (DropAfterBlockBySha 0 txHash (blockHash G) dbB2)) = [G]
  /\ map_to_list (blocksBySha (snd (DropAfterBlockBySha 0 txHash (blockHash G) dbB2)))
     = [(3, 2); (2, 1); (1, 0)]
  /\ List.length (blocks (snd (DropAfterBlockBySha 0 txHash (blockHash G) dbB2)))
     <> size (blocksBySha (snd (DropAfterBlockBySha 0 txHash (blockHash G) dbB2))).
Proof.
  split; [vm_compute; reflexivity|]. split; [|split; [|split]].
  - intros Heq. apply (f_equal blocks) in Heq. vm_compute in Heq. discriminate.
  - vm_compute. reflexivity.
  - vm_compute. reflexivity.
  - vm_compute. discriminate.
Qed.

(** C2 (where the code departs from the claim).  Transaction 100 is stored
    with one output.  A block whose transaction spends output 1 of it passes
    the first pass of [InsertBlock], which should have returned
    [ErrTxShaMissing], and the second pass panics on the index. *)
Theorem InsertBlock_index_past_end_panics :
  versions (txns dbG) 100 = [mkTxD 0 0 [false]]
  /\ validate 0 txHash dbG (buildInFlight txHash 0 (Transactions Bpast) ∅) 0
       (Transactions Bpast) = Ok tt
  /\ fst (InsertBlock 0 txHash blockHash Bpast dbG) = Panic.
Proof. vm_compute. auto. Qed.

(** C3 (where the code departs from the claim).  S5: a block with a
    coinbase and the same transaction twice is inserted at height 1 instead
    of being refused with [ErrDuplicateSha], and the newest block changes. *)
Theorem InsertBlock_duplicate_tx_accepted :
  fst (InsertBlock 0 txHash blockHash Bdup dbG) = Ok 1
  /\ blocks (snd (InsertBlock 0 txHash blockHash Bdup dbG)) = [G; Bdup]
  /\ NewestSha 0 blockHash dbG = Ok (1, 0)
  /\ NewestSha 0 blockHash (snd (InsertBlock 0 txHash blockHash Bdup dbG)) = Ok (4, 1).
Proof. vm_compute. auto. Qed.

(** Why the flags after a rollback are only below those of the genesis
    store: output 0 of 100 is spent inside the genesis block and again by
    the next block; the rollback of that block clears the flag. *)
Lemma drop_clears_flag_spent_twice :
  versions (txns (insert Gspent newMemDb)) 100 = [mkTxD 0 0 [true]]
  /\ fst (InsertBlock 0 txHash blockHash Bagain (insert Gspent newMemDb)) = Ok 1
  /\ versions
       (txns (snd (DropAfterBlockBySha 0 txHash (blockHash Gspent)
                     (insert Bagain (insert Gspent newMemDb))))) 100
     = [mkTxD 0 0 [false]].
Proof. vm_compute. auto. Qed.

(** There the block [Bagain] spends an output that is marked spent, and
    the transaction map after the rollback is not the map of the genesis
    store. *)
Lemma spent_twice_is_not_restored :
  noRespend 0 txHash blockHash [Bagain] (insert Gspent newMemDb) = false
  /\ txns (snd (DropAfterBlockBySha 0 txHash (blockHash Gspent)
                  (insert Bagain (insert Gspent newMemDb))))
     <> txns (insert Gspent newMemDb).
Proof.
  split; [vm_compute; reflexivity|].
  intros Heq. apply (f_equal (fun t => versions t 100)) in Heq.
  vm_compute in Heq. discriminate.
Qed.

(** C7 (as amended) on the store of S4, from height 1. *)
Lemma FetchHeightRange_clamps_end_S4 :
  FetchHeightRange blockHash 1 0 dbB2 = FetchHeightRange blockHash 1 7 dbB2
  /\ FetchHeightRange blockHash 1 0 dbB2
     = if 1 <? 0 then Err ErrStartNegative
       else if len (blocks dbB2) <? 1 then Err ErrEndBelowStart
       else Ok (map blockHash (drop (Z.to_nat 1) (blocks dbB2))).
Proof.
  apply (FetchHeightRange_clamps_end blockHash dbB2 1 0 7).
  - vm_compute. reflexivity.
  - vm_compute. discriminate.
Defined.

(** C7 as stated fails on a fresh store: a start of 1, which is not
    negative, gets an error and no list of hashes. *)
Lemma FetchHeightRange_start_past_tip :
  ~ (exists hashes, FetchHeightRange blockHash 1 5 (@newMemDb Z _ _) = Ok hashes).
Proof. intros (hashes & Hf). vm_compute in Hf. discriminate. Qed.


(** X2 on S4: reading [B1] back after its insert on top of the genesis
    block. *)
Lemma InsertBlock_then_read_S4 :
  1 = len (blocks dbG)
  /\ NewestSha 0 blockHash dbB1 = Ok (blockHash B1, 1)
  /\ FetchBlockShaByHeight blockHash 1 dbB1 = Ok (blockHash B1)
  /\ FetchBlockHeightBySha (blockHash B1) dbB1 = Ok 1
  /\ ExistsSha (blockHash B1) dbB1 = Ok true
  /\ FetchBlockBySha (blockHash B1) dbB1 = Ok (B1, 1)
  /\ FetchBlockHeaderBySha (blockHash B1) dbB1 = Ok (Header B1).
Proof.
  apply (InsertBlock_then_read 0 txHash blockHash B1 dbG dbB1 1).
  - vm_compute. reflexivity.
  - vm_compute. reflexivity.
Defined.

(** X3 on S4: [B1] a second time, on top of itself, is refused because its
    coinbase 101 is stored and unspent, and the store stays as it is. *)
Lemma InsertBlock_error_is_atomic_S4 :
  dbB1 = dbB1
  /\ (ErrDuplicateSha = ErrDbClosed <-> closed dbB1 = true)
  /\ (ErrDuplicateSha = ErrPrevShaMissing ->
      blocks dbB1 <> [] /\ blocksBySha dbB1 !! Previous (Header B1) = None)
  /\ (ErrDuplicateSha = ErrDbClosed \/ ErrDuplicateSha = ErrPrevShaMissing
      \/ ErrDuplicateSha = ErrTxShaMissing \/ ErrDuplicateSha = ErrDuplicateSha).
Proof.
  apply (InsertBlock_error_is_atomic 0 txHash blockHash B1 dbB1 dbB1 ErrDuplicateSha).
  vm_compute. reflexivity.
Defined.

(** X4 on S4: before [B1] was inserted its transaction 102 was unknown. *)
Lemma InsertBlock_only_new_or_spent_S4 : ExistsTxSha (txHash T1) dbG = Ok false.
Proof.
  apply (InsertBlock_only_new_or_spent 0 txHash blockHash B1 dbG dbB1 1 T1).
  - vm_compute. reflexivity.
  - apply (list_elem_of_lookup_2 _ 1%nat). reflexivity.
Defined.

(** X5 on S4: after [B1], output 0 of transaction 100 is marked spent. *)
Lemma InsertBlock_marks_inputs_spent_S4 : markedSpent (txns dbB1) 100 0.
Proof.
  apply (InsertBlock_marks_inputs_spent 0 txHash blockHash B1 dbG dbB1 1 T1 (spend 100 0)).
  - vm_compute. reflexivity.
  - apply (list_elem_of_lookup_2 _ 1%nat). reflexivity.
  - apply (list_elem_of_lookup_2 _ 0%nat). reflexivity.
  - vm_compute. reflexivity.
  - vm_compute. reflexivity.
Defined.

(** X6 on S4: dropping [B1] and [B2] again. *)
Lemma DropAfterBlockBySha_undoes_inserts_S4 :
  exists st,
    DropAfterBlockBySha 0 txHash (blockHash G) dbB2 = (Ok tt, st)
    /\ blocks st = blocks dbG
    /\ txnsCleared (txns dbG) (txns st)
    /\ NewestSha 0 blockHash st = NewestSha 0 blockHash dbG
    /\ FetchHeightRange blockHash 0 0 st = FetchHeightRange blockHash 0 0 dbG.
Proof.
  apply (DropAfterBlockBySha_undoes_inserts 0 txHash blockHash [B1; B2] dbG dbB2
           (blockHash G) 0 0).
  - vm_compute. reflexivity.
  - vm_compute. reflexivity.
  - vm_compute. reflexivity.
  - vm_compute. reflexivity.
  - repeat constructor; vm_compute; discriminate.
Defined.

(** X7 on S4: after that rollback the hash of [B2] is still known, with
    height 2, and reading the block by it panics. *)
Lemma reads_of_dropped_block_S4 :
  ExistsSha (blockHash B2) (snd (DropAfterBlockBySha 0 txHash (blockHash G) dbB2)) = Ok true
  /\ (exists k,
         len (blocks (snd (DropAfterBlockBySha 0 txHash (blockHash G) dbB2))) <= k
         /\ FetchBlockHeightBySha (blockHash B2)
              (snd (DropAfterBlockBySha 0 txHash (blockHash G) dbB2)) = Ok k
         /\ FetchBlockShaByHeight blockHash k
              (snd (DropAfterBlockBySha 0 txHash (blockHash G) dbB2))
            = Err ErrHeightNotInRange)
  /\ FetchBlockBySha (blockHash B2) (snd (DropAfterBlockBySha 0 txHash (blockHash G) dbB2))
     = Panic
  /\ FetchBlockHeaderBySha (blockHash B2)
       (snd (DropAfterBlockBySha 0 txHash (blockHash G) dbB2)) = Panic.
Proof.
  apply (reads_of_dropped_block 0 txHash blockHash [B1; B2] dbG dbB2
           (snd (DropAfterBlockBySha 0 txHash (blockHash G) dbB2)) (blockHash G) B2).
  - vm_compute. reflexivity.
  - vm_compute. reflexivity.
  - vm_compute. reflexivity.
  - vm_compute. reflexivity.
  - repeat constructor; vm_compute; discriminate.
  - vm_compute. reflexivity.
  - apply (list_elem_of_lookup_2 _ 1%nat). reflexivity.
Defined.

(** X8 on S4: the versions of transaction 102 in the store of three
    blocks. *)
Lemma FetchTxBySha_after_inserts_S4 :
  match txns dbB2 !! 102 with
  | None => FetchTxBySha blockHash 102 dbB2 = Err ErrTxShaMissing
  | Some versions =>
      versions <> []
      /\ exists replies,
           FetchTxBySha blockHash 102 dbB2 = Ok replies
           /\ Forall2 (fun d reply =>
                         Sha reply = 102
                         /\ ReplyErr reply = None
                         /\ Height reply = blockHeight d
                         /\ TxSpent reply = spentBuf d
                         /\ exists blk tx,
                              blocks dbB2 !! Z.to_nat (blockHeight d) = Some blk
                              /\ BlkSha reply = Some (blockHash blk)
                              /\ tx ∈ Transactions blk
                              /\ Tx reply = Some tx
                              /\ txHash tx = 102)
                versions replies
  end.
Proof.
  apply (FetchTxBySha_after_inserts 0 txHash blockHash [G; B1; B2] dbB2 102).
  - vm_compute. reflexivity.
  - vm_compute. reflexivity.
Defined.

(** X9 on S4: the unspent fetch of 100 (spent by 102), 103 and the unknown
    hash 7. *)
Lemma fetchTxByShaList_after_inserts_S4 :
  exists replies,
    fetchTxByShaList blockHash [100; 103; 7] false dbB2 = Ok replies
    /\ Forall2 (fun hash reply =>
                  Sha reply = hash
                  /\ (ReplyErr reply = None \/ ReplyErr reply = Some ErrTxShaMissing)
                  /\ replyOk txHash reply
                  /\ (ReplyErr reply = None <->
                      if false then is_Some (txns dbB2 !! hash)
                      else ExistsTxSha hash dbB2 = Ok true))
         [100; 103; 7] replies.
Proof.
  apply (fetchTxByShaList_after_inserts 0 txHash blockHash [G; B1; B2] dbB2 [100; 103; 7] false).
  - vm_compute. reflexivity.
  - vm_compute. reflexivity.
Defined.

(** X10 on the store of S4, at height 1. *)
Lemma reads_by_height_agree_S4 :
  FetchHeightRange blockHash 0 9 dbB2 = Ok (map blockHash (blocks dbB2))
  /\ FetchBlockShaByHeight blockHash 1 dbB2
     = (if 1 <? 0 then Err ErrHeightNotInRange
        else match map blockHash (blocks dbB2) !! Z.to_nat 1 with
             | Some sha => Ok sha
             | None => Err ErrHeightNotInRange
             end)
  /\ NewestSha 0 blockHash dbB2
     = Ok (default 0 (last (map blockHash (blocks dbB2))), len (blocks dbB2) - 1).
Proof.
  apply (reads_by_height_agree 0 blockHash dbB2 9 1).
  - vm_compute. reflexivity.
  - vm_compute. reflexivity.
Defined.

(** X11 on S4: block [B1], at position 1 of the chain. *)
Lemma stored_blocks_read_back_S4 :
  FetchBlockBySha (blockHash B1) dbB2 = Ok (B1, Z.of_nat 1)
  /\ FetchBlockHeaderBySha (blockHash B1) dbB2 = Ok (Header B1)
  /\ FetchBlockHeightBySha (blockHash B1) dbB2 = Ok (Z.of_nat 1)
  /\ ExistsSha (blockHash B1) dbB2 = Ok true
  /\ FetchBlockShaByHeight blockHash (Z.of_nat 1) dbB2 = Ok (blockHash B1).
Proof.
  apply (stored_blocks_read_back 0 txHash blockHash [G; B1; B2] dbB2 1 B1).
  - vm_compute. reflexivity.
  - vm_compute. reflexivity.
  - apply (bool_decide_unpack (NoDup (map blockHash [G; B1; B2]))). vm_compute. exact I.
  - reflexivity.
Defined.

End Scenarios.

End MemdbFacts.

(** * Properties of the peer set *)

Module NetsyncFacts.
Import Netsync.

Section Peers.

Context {DynamicBanScore : Type}.
Variable Increase : DynamicBanScore -> Z -> Z -> Z * DynamicBanScore.

(** C9.  [peer.addBanScore] returns true exactly when the score after the
    increase exceeds [defaultBanThreshold]; and when it does, the peer set
    calls [AddBannedPeer] with the address of the peer, removes the peer from
    its map and stops it; when it does not, the peer stays, with its score
    increased, and the transport is not called. *)
Theorem addBanScore_bans_above_threshold
    (ps : peerSet) (peerID : string) (p : peer) (persistent transient : Z)
    (reason : string) :
  peers ps !! peerID = Some p ->
  (fst (addBanScore Increase p persistent transient reason) = true
   <-> defaultBanThreshold < fst (Increase (banScore p) persistent transient))
  /\ peerSet_addBanScore Increase ps peerID persistent transient reason
     = if fst (addBanScore Increase p persistent transient reason)
       then mkPeerSet (delete peerID (peers ps))
              (transport ps ++ [AddBannedPeer (Addr (base p)); StopPeerGracefully peerID])
       else mkPeerSet
              (<[peerID := snd (addBanScore Increase p persistent transient reason)]> (peers ps))
              (transport ps).
Proof.
  intros Hp. unfold peerSet_addBanScore, addBanScore. rewrite Hp.
  destruct (Increase (banScore p) persistent transient) as [score bs]. cbn [fst].
  destruct (defaultBanThreshold <? score) eqn:E; cbn [fst snd negb].
  - apply Z.ltb_lt in E. split; [tauto|].
    unfold removePeer. cbn [peers transport base].
    rewrite delete_insert_eq, <- app_assoc. reflexivity.
  - apply Z.ltb_ge in E. split; [|reflexivity]. split; [discriminate|lia].
Qed.

End Peers.

(** C9 on S6: peer "P" at score 60 gets 50 more. *)
Lemma addBanScore_bans_above_threshold_S6 :
  fst (addBanScore Vectors.increase Vectors.peerP 50 0 "r2") = true
  /\ peerSet_addBanScore Vectors.increase Vectors.setP "P" 50 0 "r2"
     = mkPeerSet (delete "P" (peers Vectors.setP))
         [AddBannedPeer "10.0.0.1:43480"; StopPeerGracefully "P"].
Proof.
  destruct (addBanScore_bans_above_threshold Vectors.increase Vectors.setP "P"
              Vectors.peerP 50 0 "r2" eq_refl) as [Hiff Hset].
  split.
  - apply Hiff. vm_compute. reflexivity.
  - rewrite Hset. reflexivity.
Defined.



(** ** Known hashes, filters, sends and the best peer *)

Local Set Warnings "-clear-no-such-hyp".

(** Goals about finite sets: the variables the goal does not mention are
    dropped before the solver runs. *)
Ltac drop_unused :=
  repeat match goal with
         | x : ?T |- _ => lazymatch type of T with Prop => fail | _ => clear x end
         end.
Ltac solve_sets := drop_unused; set_solver.

Section PeerOps.

Context {DynamicBanScore Hash Tx Msg World : Type}.
Variable zeroBanScore : DynamicBanScore.
Variable HashString : Hash -> string.
Variable TxHashString : Tx -> string.
Variable IsEnable : Z -> Z -> bool.
Variable SFFullNode : Z.
Variable maxFilterAddressCount : Z.
Variable maxFilterAddressSize : Z.
Variable EncodeToString : list byte -> string.
Variable NewTransactionMessage : Tx -> option Msg.
Variable TrySend : BasePeer -> Msg -> World -> bool * World.
Variable Pop : gset string -> option string.

Implicit Types (p : @peer DynamicBanScore) (s : gset string).

Lemma size_add_one (x : string) s : (size ({[x]} ∪ s) <= 1 + size s)%nat.
Proof using Type.
  rewrite size_union_alt, size_singleton.
  assert (Hs : s ∖ {[x]} ⊆ s) by solve_sets. apply subseteq_size in Hs. lia.
Qed.

Section Marking.

(** What [Pop] of the set package promises: the item it returns was in the
    set, and it returns none only on the empty set. *)
Hypothesis Pop_elem : forall s item, Pop s = Some item -> item ∈ s.
Hypothesis Pop_empty : forall s, Pop s = None -> s = ∅.

Lemma popLoop_spec (max : Z) :
  0 < max ->
  forall (n : nat) s,
    (size s <= n)%nat ->
    exists s',
      popLoop Pop n max s = Some s'
      /\ s' ⊆ s
      /\ Z.of_nat (size s') < max
      /\ (Z.of_nat (size s) < max -> s' = s).
Proof using Pop_elem Pop_empty.
  intros Hmax. induction n as [|n IH]; intros s Hn.
  - assert (Hs : size s = 0%nat) by lia.
    cbn [popLoop]. rewrite Hs.
    destruct (Z.of_nat 0 <? max) eqn:E; [|apply Z.ltb_ge in E; lia].
    exists s. rewrite Hs. repeat split; auto; lia.
  - cbn [popLoop]. destruct (Z.of_nat (size s) <? max) eqn:E.
    + apply Z.ltb_lt in E. exists s. repeat split; auto; lia.
    + apply Z.ltb_ge in E. destruct (Pop s) as [item|] eqn:HP.
      * apply Pop_elem in HP.
        assert (Hsz : size (s ∖ {[item]}) = (size s - 1)%nat).
        { rewrite size_difference by solve_sets. rewrite size_singleton. reflexivity. }
        destruct (IH (s ∖ {[item]})) as (s' & Hrun & Hsub' & Hlt & _); [lia|].
        exists s'. split; [exact Hrun|]. split; [solve_sets|]. split; [exact Hlt|lia].
      * apply Pop_empty in HP. subst s. rewrite size_empty in E. lia.
Qed.

(** X17.  Marking keeps a known set within its cap, whatever item [Pop]
    chooses to evict.  For every peer and hash, [markBlock] returns; the
    hash is then known; the set of known blocks has at most
    [maxKnownBlocks] = 1024 entries, whatever its size was; it holds
    nothing beside the hash and what it held; when it was below the cap
    nothing is evicted; and no other field of the peer changes.  The same
    holds for [markTransaction], the known transactions and
    [maxKnownTxs] = 32768. *)
Theorem mark_keeps_cap p (hash : Hash) :
  (exists p',
      markBlock HashString Pop p hash = Some p'
      /\ HashString hash ∈ knownBlocks p'
      /\ Z.of_nat (size (knownBlocks p')) <= maxKnownBlocks
      /\ knownBlocks p' ⊆ {[HashString hash]} ∪ knownBlocks p
      /\ (Z.of_nat (size (knownBlocks p)) < maxKnownBlocks ->
          knownBlocks p' = {[HashString hash]} ∪ knownBlocks p)
      /\ p' = withKnownBlocks p (knownBlocks p'))
  /\ (exists p',
         markTransaction HashString Pop p hash = Some p'
         /\ HashString hash ∈ knownTxs p'
         /\ Z.of_nat (size (knownTxs p')) <= maxKnownTxs
         /\ knownTxs p' ⊆ {[HashString hash]} ∪ knownTxs p
         /\ (Z.of_nat (size (knownTxs p)) < maxKnownTxs ->
             knownTxs p' = {[HashString hash]} ∪ knownTxs p)
         /\ p' = withKnownTxs p (knownTxs p')).
Proof using Pop_elem Pop_empty.
  split.
  - destruct (popLoop_spec maxKnownBlocks ltac:(reflexivity) (size (knownBlocks p))
                (knownBlocks p) ltac:(lia)) as (s' & Hrun & Hsub & Hlt & Hsame).
    unfold markBlock. rewrite Hrun. cbn. eexists. split; [reflexivity|].
    cbn [knownBlocks withKnownBlocks]. split; [solve_sets|].
    split; [pose proof (size_add_one (HashString hash) s'); lia|].
    split; [solve_sets|]. split; [|reflexivity].
    intros Hb. rewrite (Hsame Hb). reflexivity.
  - destruct (popLoop_spec maxKnownTxs ltac:(reflexivity) (size (knownTxs p))
                (knownTxs p) ltac:(lia)) as (s' & Hrun & Hsub & Hlt & Hsame).
    unfold markTransaction. rewrite Hrun. cbn. eexists. split; [reflexivity|].
    cbn [knownTxs withKnownTxs]. split; [solve_sets|].
    split; [pose proof (size_add_one (HashString hash) s'); lia|].
    split; [solve_sets|]. split; [|reflexivity].
    intros Hb. rewrite (Hsame Hb). reflexivity.
Qed.

End Marking.

(** *** Filter addresses *)

Lemma addFilterAddress_fields p (address : list byte) :
  addFilterAddress maxFilterAddressCount maxFilterAddressSize EncodeToString p address
  = withFilterAdds p
      (filterAdds (addFilterAddress maxFilterAddressCount maxFilterAddressSize
                     EncodeToString p address)).
Proof.
  unfold addFilterAddress. destruct (_ <=? _); [destruct p; reflexivity|].
  destruct (_ <? _); [destruct p; reflexivity|]. reflexivity.
Qed.

Lemma foldl_addFilterAddress (addresses : list (list byte)) :
  forall p p',
    p' = foldl (addFilterAddress maxFilterAddressCount maxFilterAddressSize
                  EncodeToString) p addresses ->
    (forall x, x ∈ filterAdds p' ->
               x ∈ filterAdds p
               \/ exists address, address ∈ addresses
                                  /\ len address <= maxFilterAddressSize
                                  /\ x = EncodeToString address)
    /\ (Z.of_nat (size (filterAdds p)) <= Z.max 0 maxFilterAddressCount ->
        Z.of_nat (size (filterAdds p')) <= Z.max 0 maxFilterAddressCount)
    /\ (Z.of_nat (size (filterAdds p)) + len addresses <= maxFilterAddressCount ->
        forall address, address ∈ addresses ->
                        len address <= maxFilterAddressSize ->
                        EncodeToString address ∈ filterAdds p')
    /\ filterAdds p ⊆ filterAdds p'
    /\ p' = withFilterAdds p (filterAdds p').
Proof using Type.
  induction addresses as [|a rest IH]; intros p p' Hp'.
  - cbn in Hp'. subst p'. split; [auto|]. split; [auto|]. split.
    { intros _ address Hin. apply elem_of_nil in Hin. contradiction. }
    split; [reflexivity|]. destruct p; reflexivity.
  - cbn [foldl] in Hp'.
    set (q := addFilterAddress maxFilterAddressCount maxFilterAddressSize EncodeToString p a)
      in *.
    destruct (IH q p' Hp') as (Hfrom & Hsize & Hall & Hsub & Hfields).
    assert (Hq : filterAdds q = filterAdds p
                 \/ (Z.of_nat (size (filterAdds p)) < maxFilterAddressCount
                     /\ len a <= maxFilterAddressSize
                     /\ filterAdds q = {[EncodeToString a]} ∪ filterAdds p)).
    { subst q. unfold addFilterAddress.
      destruct (maxFilterAddressCount <=? _) eqn:E1; [left; reflexivity|].
      destruct (maxFilterAddressSize <? len a) eqn:E2; [left; reflexivity|].
      apply Z.leb_gt in E1. apply Z.ltb_ge in E2. right. cbn. auto. }
    assert (Hlen : len (a :: rest) = 1 + len rest) by (unfold len; cbn [List.length]; lia).
    split; [|split; [|split; [|split]]].
    + intros x Hx. destruct (Hfrom x Hx) as [Hin|(address & Hin & Hl & ->)].
      * destruct Hq as [Hq|(_ & Hl & Hq)]; rewrite Hq in Hin; [left; exact Hin|].
        apply elem_of_union in Hin. destruct Hin as [Hin|Hin]; [|left; exact Hin].
        apply elem_of_singleton in Hin. subst x. right. exists a.
        split; [apply list_elem_of_here|auto].
      * right. exists address. split; [apply list_elem_of_further; exact Hin|auto].
    + intros Hp. apply Hsize. destruct Hq as [Hq|(Hlt & _ & Hq)]; rewrite Hq; [exact Hp|].
      pose proof (size_add_one (EncodeToString a) (filterAdds p)). lia.
    + intros Hroom address Hin Hl. rewrite Hlen in Hroom.
      assert (0 <= len rest) by (unfold len; lia).
      assert (Hqa : filterAdds q = {[EncodeToString a]} ∪ filterAdds p
                    \/ len a > maxFilterAddressSize).
      { subst q. unfold addFilterAddress.
        destruct (maxFilterAddressCount <=? _) eqn:E1; [apply Z.leb_le in E1; lia|].
        destruct (maxFilterAddressSize <? len a) eqn:E2;
          [apply Z.ltb_lt in E2; right; lia|left; reflexivity]. }
      apply elem_of_cons in Hin. destruct Hin as [->|Hin].
      * destruct Hqa as [Hqa|Hbig]; [|lia]. apply Hsub. rewrite Hqa. solve_sets.
      * apply Hall; [|exact Hin|exact Hl].
        destruct Hq as [Hq|(_ & _ & Hq)]; rewrite Hq; [lia|].
        pose proof (size_add_one (EncodeToString a) (filterAdds p)). lia.
    + destruct Hq as [Hq|(_ & _ & Hq)]; rewrite Hq in Hsub; solve_sets.
    + rewrite Hfields. subst q. rewrite addFilterAddress_fields. reflexivity.
Qed.

(** X18.  After [addFilterAddresses] the filter stands for the latest
    batch alone, within both limits.  Every entry of the new filter is the
    hex string of an address of the batch that is no longer than
    [maxFilterAddressSize] (nothing of the old filter stays); the filter
    has at most [maxFilterAddressCount] entries (none if that limit is not
    positive); if the batch has no more addresses than
    [maxFilterAddressCount], every address of it within the size limit is in
    the filter; and no other field of the peer changes. *)
Theorem addFilterAddresses_latest_batch p (addresses : list (list byte)) :
  let p' := addFilterAddresses maxFilterAddressCount maxFilterAddressSize EncodeToString
              p addresses in
  (forall x, x ∈ filterAdds p' ->
             exists address, address ∈ addresses
                             /\ len address <= maxFilterAddressSize
                             /\ x = EncodeToString address)
  /\ Z.of_nat (size (filterAdds p')) <= Z.max 0 maxFilterAddressCount
  /\ (len addresses <= maxFilterAddressCount ->
      forall address, address ∈ addresses ->
                      len address <= maxFilterAddressSize ->
                      EncodeToString address ∈ filterAdds p')
  /\ p' = withFilterAdds p (filterAdds p').
Proof using Type.
  intros p'. subst p'. unfold addFilterAddresses.
  set (q := if negb (bool_decide (filterAdds p = ∅)) then withFilterAdds p ∅ else p).
  assert (Hq : filterAdds q = ∅ /\ q = withFilterAdds p (filterAdds q)).
  { subst q. destruct (bool_decide (filterAdds p = ∅)) eqn:E; cbn [negb].
    - apply bool_decide_eq_true in E. split; [exact E|]. destruct p; reflexivity.
    - split; reflexivity. }
  destruct Hq as [Hempty Hqf].
  destruct (foldl_addFilterAddress addresses q _ eq_refl)
    as (Hfrom & Hsize & Hall & _ & Hfields).
  rewrite Hempty, size_empty in Hsize, Hall.
  split; [|split; [|split]].
  - intros x Hx. destruct (Hfrom x Hx) as [Hin|Hin]; [|exact Hin].
    rewrite Hempty in Hin. solve_sets.
  - apply Hsize. lia.
  - intros Hlen. apply Hall. lia.
  - rewrite Hfields, Hqf. reflexivity.
Qed.

(** *** Sending transactions *)

(** X19.  A peer without the full-node service is never sent a
    transaction by [sendTransactions]: [isRelatedTx] answers false for
    every transaction, so for an SPV peer the call skips the whole list,
    builds no message, does not touch the connection, leaves the peer as it
    is and reports success. *)
Theorem sendTransactions_skips_SPV (txs : list Tx) p (w : World) :
  isSPVNode IsEnable SFFullNode p = true ->
  sendTransactions TxHashString IsEnable SFFullNode NewTransactionMessage TrySend txs p w
  = (Ok true, p, w).
Proof.
  intros Hspv. induction txs as [|tx rest IH]; [reflexivity|].
  cbn [sendTransactions]. rewrite Hspv. unfold isRelatedTx. cbn [negb andb]. exact IH.
Qed.

(** X20.  To a full node [sendTransactions] accounts for every
    transaction it reports as sent: if the call returns true, the peer
    afterwards knows the hashes it knew and the hashes of all transactions
    of the list, and nothing else, and no other field changed; whatever the
    call returns, the known set only grows, by hashes of the list, with no
    cap applied. *)
Theorem sendTransactions_full_node
    (txs : list Tx) p p' (w w' : World) (r : result SendError bool) :
  sendTransactions TxHashString IsEnable SFFullNode NewTransactionMessage TrySend txs p w
  = (r, p', w') ->
  isSPVNode IsEnable SFFullNode p = false ->
  knownTxs p ⊆ knownTxs p'
  /\ knownTxs p' ⊆ knownTxs p ∪ list_to_set (TxHashString <$> txs)
  /\ p' = withKnownTxs p (knownTxs p')
  /\ (r = Ok true -> knownTxs p' = knownTxs p ∪ list_to_set (TxHashString <$> txs)).
Proof using Type.
  revert p w. induction txs as [|tx rest IH]; intros p w Hrun Hfull.
  - injection Hrun as <- <- <-. cbn. split; [solve_sets|]. split; [solve_sets|].
    split; [destruct p; reflexivity|]. intros _. solve_sets.
  - cbn [sendTransactions] in Hrun. rewrite Hfull in Hrun. cbn [andb] in Hrun.
    cbn [fmap list_fmap list_to_set].
    destruct (NewTransactionMessage tx) as [msg|].
    2:{ injection Hrun as <- <- <-. split; [solve_sets|]. split; [solve_sets|].
        split; [destruct p; reflexivity|]. discriminate. }
    destruct (bool_decide (TxHashString tx ∈ knownTxs p)) eqn:Hk.
    + apply bool_decide_eq_true in Hk.
      destruct (IH p w Hrun Hfull) as (H1 & H2 & H3 & H4).
      split; [exact H1|]. split; [solve_sets|]. split; [exact H3|].
      intros Hr. rewrite (H4 Hr). solve_sets.
    + destruct (TrySend (base p) msg w) as [ok w1]. destruct ok; cbn [negb] in Hrun.
      * destruct (IH _ _ Hrun Hfull) as (H1 & H2 & H3 & H4).
        cbn [knownTxs withKnownTxs] in H1, H2, H4.
        split; [solve_sets|]. split; [solve_sets|]. split; [rewrite H3; reflexivity|].
        intros Hr. rewrite (H4 Hr). solve_sets.
      * injection Hrun as <- <- <-. split; [solve_sets|]. split; [solve_sets|].
        split; [destruct p; reflexivity|]. discriminate.
Qed.

(** *** The peers of a set *)

(** X21.  [addPeer] registers a peer once.  For an id that is not in the
    set, [getPeer] afterwards returns the new peer: the given height and
    hash, the services of the connection, a zero ban score and empty known
    and filter sets.  For an id that is in the set the call changes
    nothing: the peer keeps its height, hash, ban score and sets.  In both
    cases the other peers stay, the transport is not called, and
    [removePeer] of the id afterwards leaves the peers that [removePeer]
    leaves without the [addPeer]. *)
Theorem addPeer_registers_once
    (ps : peerSet) (basePeer : BasePeer) (height : Z) (hash : list byte) (id : string) :
  getPeer (addPeer zeroBanScore ps basePeer height hash) (ID basePeer)
  = Some (match getPeer ps (ID basePeer) with
          | Some old => old
          | None => mkPeer basePeer (ServiceFlag basePeer) height hash zeroBanScore ∅ ∅ ∅
          end)
  /\ (id <> ID basePeer ->
      getPeer (addPeer zeroBanScore ps basePeer height hash) id = getPeer ps id)
  /\ transport (addPeer zeroBanScore ps basePeer height hash) = transport ps
  /\ peers (removePeer (addPeer zeroBanScore ps basePeer height hash) (ID basePeer))
     = peers (removePeer ps (ID basePeer))
  /\ getPeer (removePeer (addPeer zeroBanScore ps basePeer height hash) (ID basePeer))
       (ID basePeer) = None.
Proof.
  unfold addPeer, getPeer, removePeer, newPeer.
  destruct (peers ps !! ID basePeer) as [old|] eqn:Hold; cbn [peers transport].
  - rewrite Hold, lookup_delete_eq. auto.
  - rewrite lookup_insert_eq, delete_insert_eq, lookup_delete_eq.
    repeat split; auto. intros Hne. apply lookup_insert_ne. auto.
Qed.

(** *** The best peer *)

Lemma bestPeerLoop_spec (flag : Z) (order : list peer) :
  forall best : option peer,
    match bestPeerLoop IsEnable flag order best with
    | None =>
        best = None
        /\ forall p, p ∈ order -> IsEnable (services p) flag = false
    | Some b =>
        (Some b = best \/ (b ∈ order /\ IsEnable (services b) flag = true))
        /\ (forall b0, best = Some b0 -> height b0 <= height b)
        /\ forall p, p ∈ order -> IsEnable (services p) flag = true ->
                     height p <= height b
    end.
Proof.
  induction order as [|p rest IH]; intros best.
  - cbn [bestPeerLoop]. destruct best as [b|].
    + split; [auto|]. split; [intros b0 [= ->]; lia|].
      intros p Hin. apply elem_of_nil in Hin. contradiction.
    + split; [reflexivity|]. intros p Hin. apply elem_of_nil in Hin. contradiction.
  - cbn [bestPeerLoop]. destruct (IsEnable (services p) flag) eqn:He; cbn [negb].
    + assert (Hnext : forall best',
                 ((best' = Some p /\ forall b0, best = Some b0 -> height b0 <= height p)
                  \/ (best' = best /\ exists b0, best = Some b0 /\ height p <= height b0)) ->
                 match bestPeerLoop IsEnable flag rest best' with
                 | None =>
                     best = None
                     /\ forall p0, p0 ∈ p :: rest -> IsEnable (services p0) flag = false
                 | Some b =>
                     (Some b = best
                      \/ (b ∈ p :: rest /\ IsEnable (services b) flag = true))
                     /\ (forall b0, best = Some b0 -> height b0 <= height b)
                     /\ forall p0, p0 ∈ p :: rest -> IsEnable (services p0) flag = true ->
                                   height p0 <= height b
                 end).
      { intros best' Hb'. specialize (IH best').
        destruct (bestPeerLoop IsEnable flag rest best') as [b|].
        - destruct IH as (Hfrom & Hge & Hall).
          assert (Hp : height p <= height b).
          { destruct Hb' as [[-> _]|(-> & b0 & Hb0 & Hle)].
            - apply Hge. reflexivity.
            - specialize (Hge b0 Hb0). lia. }
          split; [|split].
          + destruct Hfrom as [Hfrom|[Hin Hen]].
            * destruct Hb' as [[-> _]|(-> & _)]; [|left; exact Hfrom].
              injection Hfrom as ->. right. split; [apply list_elem_of_here|exact He].
            * right. split; [apply list_elem_of_further; exact Hin|exact Hen].
          + intros b0 Hb0. destruct Hb' as [[-> Hold]|(-> & _)]; [|apply Hge; exact Hb0].
            specialize (Hold b0 Hb0). lia.
          + intros p0 Hin Hen. apply elem_of_cons in Hin. destruct Hin as [->|Hin];
              [exact Hp|apply Hall; assumption].
        - destruct IH as [Hnone _]. destruct Hb' as [[-> _]|(-> & b0 & Hb0 & _)];
            [discriminate|congruence]. }
      destruct best as [b0|].
      * destruct (height b0 <? height p) eqn:Hlt.
        -- apply Z.ltb_lt in Hlt. apply Hnext. left. split; [reflexivity|].
           intros b1 [= <-]. lia.
        -- apply Z.ltb_ge in Hlt. apply Hnext. right. split; [reflexivity|]. eauto.
      * apply Hnext. left. split; [reflexivity|]. discriminate.
    + specialize (IH best). destruct (bestPeerLoop IsEnable flag rest best) as [b|].
      * destruct IH as (Hfrom & Hge & Hall). split; [|split; [exact Hge|]].
        -- destruct Hfrom as [Hfrom|[Hin Hen]]; [left; exact Hfrom|].
           right. split; [apply list_elem_of_further; exact Hin|exact Hen].
        -- intros p0 Hin Hen. apply elem_of_cons in Hin. destruct Hin as [->|Hin];
             [congruence|apply Hall; assumption].
      * destruct IH as [Hnone Hall]. split; [exact Hnone|].
        intros p0 Hin. apply elem_of_cons in Hin. destruct Hin as [->|Hin];
          [exact He|apply Hall; exact Hin].
Qed.

(** X22.  [bestPeer] returns a peer of greatest height among those that
    offer the service, in whatever order the range over the map visits the
    peers: it returns nil exactly when no peer of the set offers the
    service, and otherwise a peer of the set that offers it and whose
    height no peer offering it exceeds. *)
Theorem bestPeer_is_highest (ps : peerSet) (order : list (string * peer)) (flag : Z) :
  rangeOrder ps order ->
  match bestPeer IsEnable order flag with
  | None =>
      forall id p, peers ps !! id = Some p -> IsEnable (services p) flag = false
  | Some best =>
      (exists id, peers ps !! id = Some best)
      /\ IsEnable (services best) flag = true
      /\ forall id p, peers ps !! id = Some p ->
                      IsEnable (services p) flag = true ->
                      height p <= height best
  end.
Proof.
  intros Horder. unfold rangeOrder in Horder.
  assert (Hmem : forall p, p ∈ order.*2 <-> exists id, peers ps !! id = Some p).
  { intros p. rewrite list_elem_of_fmap. split.
    - intros ([id p0] & -> & Hin). exists id. rewrite Horder in Hin.
      apply elem_of_map_to_list in Hin. exact Hin.
    - intros (id & Hid). exists (id, p). split; [reflexivity|].
      rewrite Horder. apply elem_of_map_to_list. exact Hid. }
  unfold bestPeer. pose proof (bestPeerLoop_spec flag (order.*2) None) as Hspec.
  destruct (bestPeerLoop IsEnable flag (order.*2) None) as [best|].
  - destruct Hspec as (Hfrom & _ & Hall).
    destruct Hfrom as [Hfrom|[Hin Hen]]; [discriminate|].
    split; [apply Hmem; exact Hin|]. split; [exact Hen|].
    intros id p Hid. apply Hall, Hmem. eauto.
  - destruct Hspec as [_ Hall]. intros id p Hid. apply Hall, Hmem. eauto.
Qed.

End PeerOps.

(** ** The peers of the scenarios *)

Lemma popFirst_elem (s : gset string) (item : string) :
  Vectors.popFirst s = Some item -> item ∈ s.
Proof.
  unfold Vectors.popFirst. intros Hh. apply elem_of_elements, head_Some_elem_of, Hh.
Qed.

Lemma popFirst_empty (s : gset string) : Vectors.popFirst s = None -> s = ∅.
Proof.
  unfold Vectors.popFirst. intros Hh. apply head_None in Hh.
  apply elements_empty_inv in Hh. apply leibniz_equiv. exact Hh.
Qed.

Section PeerScenarios.
Import Vectors.

(** X17 on peer "P" and the hash "h". *)
Lemma mark_keeps_cap_P :
  (exists p',
      markBlock (fun hash : string => hash) popFirst peerP "h" = Some p'
      /\ "h" ∈ knownBlocks p'
      /\ Z.of_nat (size (knownBlocks p')) <= maxKnownBlocks
      /\ knownBlocks p' ⊆ {["h"]} ∪ knownBlocks peerP
      /\ (Z.of_nat (size (knownBlocks peerP)) < maxKnownBlocks ->
          knownBlocks p' = {["h"]} ∪ knownBlocks peerP)
      /\ p' = withKnownBlocks peerP (knownBlocks p'))
  /\ (exists p',
         markTransaction (fun hash : string => hash) popFirst peerP "h" = Some p'
         /\ "h" ∈ knownTxs p'
         /\ Z.of_nat (size (knownTxs p')) <= maxKnownTxs
         /\ knownTxs p' ⊆ {["h"]} ∪ knownTxs peerP
         /\ (Z.of_nat (size (knownTxs peerP)) < maxKnownTxs ->
             knownTxs p' = {["h"]} ∪ knownTxs peerP)
         /\ p' = withKnownTxs peerP (knownTxs p')).
Proof.
  apply (mark_keeps_cap (fun hash : string => hash) popFirst popFirst_elem popFirst_empty
           peerP "h").
Defined.

(** X19 on the SPV peer "L". *)
Lemma sendTransactions_skips_SPV_L :
  sendTransactions (fun tx : string => tx) isEnable sfFullNode (fun tx => Some tx) trySend
    ["a"; "b"] peerL 0%nat
  = (Ok true, peerL, 0%nat).
Proof.
  apply (sendTransactions_skips_SPV (fun tx : string => tx) isEnable sfFullNode
           (fun tx => Some tx) trySend ["a"; "b"] peerL 0%nat).
  vm_compute. reflexivity.
Defined.

(** X20 on the full node "Q": both transactions are sent and known. *)
Lemma sendTransactions_full_node_Q :
  knownTxs peerQ ⊆ knownTxs (withKnownTxs peerQ {["a"; "b"]})
  /\ knownTxs (withKnownTxs peerQ {["a"; "b"]})
     ⊆ knownTxs peerQ ∪ list_to_set ((fun tx : string => tx) <$> ["a"; "b"])
  /\ withKnownTxs peerQ {["a"; "b"]}
     = withKnownTxs peerQ (knownTxs (withKnownTxs peerQ {["a"; "b"]}))
  /\ (Ok (E:=SendError) true = Ok true ->
      knownTxs (withKnownTxs peerQ {["a"; "b"]})
      = knownTxs peerQ ∪ list_to_set ((fun tx : string => tx) <$> ["a"; "b"])).
Proof.
  apply (sendTransactions_full_node (fun tx : string => tx) isEnable sfFullNode
           (fun tx => Some tx) trySend ["a"; "b"] peerQ
           (withKnownTxs peerQ {["a"; "b"]}) 0%nat 2%nat (Ok true)).
  - vm_compute. reflexivity.
  - vm_compute. reflexivity.
Defined.

(** X22 on the three peers: the SPV node "L" is the highest, and the best
    full node is "Q". *)
Lemma bestPeer_is_highest_PQL :
  match bestPeer isEnable (map_to_list (peers setPQL)) sfFullNode with
  | None =>
      forall id p, peers setPQL !! id = Some p -> isEnable (services p) sfFullNode = false
  | Some best =>
      (exists id, peers setPQL !! id = Some best)
      /\ isEnable (services best) sfFullNode = true
      /\ forall id p, peers setPQL !! id = Some p ->
                      isEnable (services p) sfFullNode = true ->
                      height p <= height best
  end.
Proof.
  apply (bestPeer_is_highest isEnable setPQL (map_to_list (peers setPQL)) sfFullNode).
  unfold rangeOrder. reflexivity.
Defined.

End PeerScenarios.

End NetsyncFacts.
